(** * arcade-minimap: a shallow embedding of [minimap.ts] and its properties

    The extension renders a power-of-two downscaled overview of the tile
    map, stamps sprites on it and refreshes it from a timer callback.  The
    embedding follows the source function by function:

    - JavaScript numbers that the code only uses as integers are [Z]; the
      32-bit operators [<<], [>>] and [&] wrap as ECMAScript prescribes;
      sprite geometry, which the host keeps in fixed point, is [Q];
    - a call either returns, throws (dereferencing [undefined], or a host
      that rejects an out-of-range write) or never returns (a loop whose
      step is not positive): the [result] monad;
    - sprites are host objects compared by reference: the state carries a
      store of sprites indexed by references;
    - images are host objects too.  Where the extension draws on a buffer
      it has just created (the builder, the refresh) the functions work on
      the contents of the buffers; [renderScaledImage] and [includeSprite],
      which a program can call on any two images, are also given on
      references into a store of buffers ([ByRef]), where source and
      destination may be one object. *)

From Stdlib Require Import ZArith QArith.QArith_base Lia List.
From stdpp Require Import base tactics option list gmap.

Close Scope Q_scope.
Open Scope Z_scope.

(* ===================================================================== *)
(** ** JavaScript's 32-bit integer operators *)
(* ===================================================================== *)

Module JS.

(** ECMAScript [ToInt32] on an integral number: reduce modulo [2^32] into
    the signed range. *)
Definition ToInt32 (n : Z) : Z := (n + 2 ^ 31) mod 2 ^ 32 - 2 ^ 31.

(** [ToInt32] on a fractional number first drops the fraction (rounds
    toward zero). *)
Definition trunc (q : Q) : Z := Z.quot (Qnum q) (Zpos (Qden q)).

(** [a << n]: the shift count is taken modulo 32, the result wraps. *)
Definition shl (a n : Z) : Z := ToInt32 (Z.shiftl (ToInt32 a) (n mod 32)).

(** [a >> n]: sign-propagating shift of the wrapped operand. *)
Definition shr (a n : Z) : Z := Z.shiftr (ToInt32 a) (n mod 32).

(** [a & b]. *)
Definition and (a b : Z) : Z := Z.land (ToInt32 a) (ToInt32 b).

End JS.

(* ===================================================================== *)
(** ** The two enumerations *)
(* ===================================================================== *)

(** [enum MinimapScale] and [enum MinimapSpriteScale].  A TypeScript
    numeric enum is a number, and the code computes with it, so the
    functions below take scales as [Z]; [value] gives the number of each
    member. *)
Module MinimapScale.
Inductive t : Type := Original | Half | Quarter | Eighth | Sixteenth.
Definition value (s : t) : Z :=
  match s with
  | Original => 0
  | Half => 1
  | Quarter => 2
  | Eighth => 3
  | Sixteenth => 4
  end.
End MinimapScale.

Module MinimapSpriteScale.
Inductive t : Type := MinimapScale | Double | Quadruple | Octuple.
Definition value (s : t) : Z :=
  match s with
  | MinimapScale => 0
  | Double => 1
  | Quadruple => 2
  | Octuple => 3
  end.
End MinimapSpriteScale.

(* ===================================================================== *)
(** ** Outcomes of a call *)
(* ===================================================================== *)

(** [Ok a]: the call returned [a]; [Fault]: it threw; [Diverge]: it never
    returns. *)
Inductive result (A : Type) : Type :=
  | Ok (a : A)
  | Fault
  | Diverge.
Arguments Ok {A} a.
Arguments Fault {A}.
Arguments Diverge {A}.

#[global] Instance result_ret : MRet result := λ A a, Ok a.
#[global] Instance result_bind : MBind result := λ A B f m,
  match m with
  | Ok a => f a
  | Fault => Fault
  | Diverge => Diverge
  end.

(** [for (let i = start; i < limit; i += step) body(i)], threading the
    mutated object [a].  [fuel] bounds the number of iterations. *)
Fixpoint for_fuel {A : Type} (fuel : nat) (i limit step : Z)
    (body : Z → A → result A) (a : A) : result A :=
  if i <? limit then
    match fuel with
    | O => Diverge
    | S fuel' => a' ← body i a; for_fuel fuel' (i + step) limit step body a'
    end
  else Ok a.

(** The loops of the source all start at [0].  With a step of at least one
    the loop leaves after at most [limit] iterations, so that much fuel is
    always enough; with a step that is not positive the condition
    [i < limit] stays true for ever and the fuel runs out: [Diverge]. *)
Definition for_loop {A : Type} (limit step : Z)
    (body : Z → A → result A) (a : A) : result A :=
  for_fuel (Z.to_nat limit) 0 limit step body a.

(** [for (let x of xs) body(x)]. *)
Fixpoint for_of {A B : Type} (xs : list B) (body : B → A → result A) (a : A)
    : result A :=
  match xs with
  | [] => Ok a
  | x :: xs' => a' ← body x a; for_of xs' body a'
  end.

(* ===================================================================== *)
(** ** The host: images, tile maps and sprites *)
(* ===================================================================== *)

(** What the extension leaves to the host runtime.  [strict_bounds] says
    whether [Image.setPixel] outside the buffer throws ([true]) or is
    dropped ([false]); [Flag_Destroyed] is the bit [sprites.Flag.Destroyed];
    [setImage_position (x, y) (w, h) (w', h')] is where the host has a
    sprite at [(x, y)] of size [w × h] after [setImage] gave it an image
    of size [w' × h'].  Of that position nothing is known but that an
    image of the size the sprite has does not move it. *)
Class Host := {
  strict_bounds : bool;
  Flag_Destroyed : Z;
  setImage_position : Q * Q → Q * Q → Z * Z → Q * Q;
  setImage_position_same_size : ∀ x y w h w' h',
    (w == inject_Z w')%Q → (h == inject_Z h')%Q →
    setImage_position (x, y) (w, h) (w', h') = (x, y);
}.

Module Image.

Record t := mk {
  width : Z;
  height : Z;
  pixels : Z → Z → Z;
}.

Definition inRange (img : t) (x y : Z) : bool :=
  (0 <=? x) && (x <? width img) && (0 <=? y) && (y <? height img).

(** Modelled from the spec: the host image primitive [getPixel] is not
    part of the sources.  Inside the buffer it returns the stored palette
    index; outside it reads as the background index [0]. *)
Definition getPixel (img : t) (x y : Z) : Z :=
  if inRange img x y then pixels img x y else 0.

(** Modelled from the spec: the host image primitive [setPixel] is not
    part of the sources.  Inside the buffer it stores the palette index
    and touches no other pixel; an out-of-range write is, as the host
    decides, a fault or dropped. *)
Definition setPixel `{Host} (img : t) (x y c : Z) : result t :=
  if inRange img x y then
    Ok {| width := width img; height := height img;
          pixels := λ u v, if (u =? x) && (v =? y) then c else pixels img u v |}
  else if strict_bounds then Fault else Ok img.

(** Modelled from the spec: the host primitive [image.create] is not part
    of the sources.  It returns a blank buffer of the given size. *)
Definition create (w h : Z) : t :=
  {| width := w; height := h; pixels := λ _ _, 0 |}.

(** Modelled from the spec: the host primitive [fill] is not part of the
    sources.  It sets every pixel of the buffer. *)
Definition fill (img : t) (c : Z) : t :=
  {| width := width img; height := height img; pixels := λ _ _, c |}.

End Image.

Module Minimap.
(** [interface Minimap].  The field [image] is an image object: [I] is
    the content of the buffer where only the content matters, and a
    reference where it matters which object it is. *)
Record with_image (I : Type) := mk {
  image : I;
  scale : Z;
  borderWidth : Z;
  borderColor : Z;
}.
Arguments mk {I} _ _ _ _.
Arguments image {I} _.
Arguments scale {I} _.
Arguments borderWidth {I} _.
Arguments borderColor {I} _.
Abbreviation t := (with_image Image.t).
Abbreviation obj := (with_image positive).
End Minimap.

Module TileMap.
(** The part of the host's tile map that [getMinimapObject] calls:
    [scale], [areaWidth()], [areaHeight()], [getTileIndex(col, row)] and
    [getTileImage(index)]. *)
Record t := mk {
  scale : Z;
  areaWidth : Z;
  areaHeight : Z;
  getTileIndex : Z → Z → Z;
  getTileImage : Z → Image.t;
}.
End TileMap.

Module Sprite.
(** The part of a host sprite that the extension reads or writes; the
    image is a content or a reference, as in [Minimap.with_image]. *)
Record with_image (I : Type) := mk {
  x : Q;
  y : Q;
  width : Q;
  height : Q;
  image : I;
  flags : Z;
  data : option (Minimap.with_image I);
}.
Arguments mk {I} _ _ _ _ _ _ _.
Arguments x {I} _.
Arguments y {I} _.
Arguments width {I} _.
Arguments height {I} _.
Arguments image {I} _.
Arguments flags {I} _.
Arguments data {I} _.
Abbreviation t := (with_image Image.t).
Abbreviation obj := (with_image positive).

Definition set_data (s : t) (d : option Minimap.t) : t :=
  {| x := x s; y := y s; width := width s; height := height s;
     image := image s; flags := flags s; data := d |}.

(** Modelled from the spec: the host method [setImage] is not part of the
    sources.  The sprite shows the new image and takes its size; where it
    is afterwards is the host's to say. *)
Definition setImage `{Host} (s : t) (img : Image.t) : t :=
  let position :=
    setImage_position (x s, y s) (width s, height s)
                      (Image.width img, Image.height img) in
  {| x := position.1; y := position.2;
     width := inject_Z (Image.width img); height := inject_Z (Image.height img);
     image := img; flags := flags s; data := data s |}.

(** Modelled from the spec: the host function [sprites.create] is not part
    of the sources.  The new sprite shows the image, is not destroyed and
    carries no data. *)
Definition create (img : Image.t) : t :=
  {| x := 0%Q; y := 0%Q;
     width := inject_Z (Image.width img); height := inject_Z (Image.height img);
     image := img; flags := 0; data := None |}.
End Sprite.

(* ===================================================================== *)
(** ** ScaledRenderer *)
(* ===================================================================== *)

Section Renderer.
Context `{Host}.

(** [renderScaledImage(source, destination, x, y, scale)] on two image
    objects, as a function of their contents: the result is the content
    of the destination after the call.  That is every call the extension
    makes itself, where the destination has just been created.  The call
    on references, which may name one object, is
    [ByRef.renderScaledImage]; the two agree on distinct objects
    ([renderScaledImage_by_ref]). *)
Definition renderScaledImage (source destination : Image.t) (x y scale : Z)
    : result Image.t :=
  for_loop (Image.width source) (JS.shl 1 scale) (λ i destination,
    for_loop (Image.height source) (JS.shl 1 scale) (λ j destination,
      if negb (Image.getPixel source i j =? 0) then
        Image.setPixel destination
          (x + JS.shr i scale) (y + JS.shr j scale) (Image.getPixel source i j)
      else Ok destination) destination) destination.

End Renderer.

(* ===================================================================== *)
(** ** The module state *)
(* ===================================================================== *)

(** References to host sprites. *)
Abbreviation ref := positive (only parsing).

Module IUpdateSprite.
(** [interface IUpdateSprite]; the sprite may be [null]. *)
Record t := mk {
  sprite : option ref;
  scale : Z;
}.
End IUpdateSprite.

(** The scene's tile map, the host's sprite objects, the two module
    variables [minimapSprite] and [spritesToUpdate], and the intervals of
    the refresh handlers registered with [game.onUpdateInterval]. *)
Record State := mkState {
  tileMap : option TileMap.t;
  heap : gmap ref Sprite.t;
  minimapSprite : option ref;
  spritesToUpdate : list IUpdateSprite.t;
  handlers : list Z;
}.

Definition set_heap (st : State) (h : gmap ref Sprite.t) : State :=
  {| tileMap := tileMap st; heap := h; minimapSprite := minimapSprite st;
     spritesToUpdate := spritesToUpdate st; handlers := handlers st |}.

Definition set_minimapSprite (st : State) (r : option ref) : State :=
  {| tileMap := tileMap st; heap := heap st; minimapSprite := r;
     spritesToUpdate := spritesToUpdate st; handlers := handlers st |}.

Definition set_spritesToUpdate (st : State) (l : list IUpdateSprite.t) : State :=
  {| tileMap := tileMap st; heap := heap st; minimapSprite := minimapSprite st;
     spritesToUpdate := l; handlers := handlers st |}.

Definition set_handlers (st : State) (l : list Z) : State :=
  {| tileMap := tileMap st; heap := heap st; minimapSprite := minimapSprite st;
     spritesToUpdate := spritesToUpdate st; handlers := l |}.

(** Reading a property of [v]: throws when [v] is [undefined] or [null]. *)
Definition deref {A : Type} (v : option A) : result A :=
  match v with
  | Some a => Ok a
  | None => Fault
  end.

(** The object behind a sprite reference, if there is one. *)
Definition sprite_at (st : State) (r : option ref) : option Sprite.t :=
  l ← r; heap st !! l.

(** The state right after the program is loaded: nothing displayed,
    nothing tracked, nothing scheduled. *)
Definition Uninitialized (tilemap : option TileMap.t) (h : gmap ref Sprite.t)
    : State :=
  {| tileMap := tilemap; heap := h; minimapSprite := None;
     spritesToUpdate := []; handlers := [] |}.

(* ===================================================================== *)
(** ** MinimapBuilder, SpriteOverlay and UpdateTracker *)
(* ===================================================================== *)

Section Minimap.
Context `{Host}.

(** [getMinimapObject(scale, borderWidth, borderColor)]; the tile map is
    [game.currentScene().tileMap]. *)
Definition getMinimapObject (st : State) (scale borderWidth borderColor : Z)
    : result Minimap.t :=
  match tileMap st with
  | None =>
      Ok {| Minimap.image := Image.create 1 1; Minimap.scale := scale;
            Minimap.borderWidth := borderWidth;
            Minimap.borderColor := borderColor |}
  | Some tilemap =>
      let numRows := JS.shr (TileMap.areaHeight tilemap) (TileMap.scale tilemap) in
      let numCols := JS.shr (TileMap.areaWidth tilemap) (TileMap.scale tilemap) in
      let tileWidth := JS.shl 1 (TileMap.scale tilemap) in
      let minimap :=
        Image.create (JS.shr (numCols * tileWidth) scale + borderWidth * 2)
                     (JS.shr (numRows * tileWidth) scale + borderWidth * 2) in
      let minimap :=
        if 0 <? borderWidth then Image.fill minimap borderColor else minimap in
      minimap ← for_loop numRows 1 (λ r minimap,
        for_loop numCols 1 (λ c minimap,
          let idx := TileMap.getTileIndex tilemap c r in
          let tile := TileMap.getTileImage tilemap idx in
          let nx := JS.shr (c * tileWidth) scale + borderWidth in
          let ny := JS.shr (r * tileWidth) scale + borderWidth in
          renderScaledImage tile minimap nx ny scale) minimap) minimap;
      Ok {| Minimap.image := minimap; Minimap.scale := scale;
            Minimap.borderWidth := borderWidth;
            Minimap.borderColor := borderColor |}
  end.

(** [getImage(minimap)]. *)
Definition getImage (minimap : Minimap.t) : Image.t := Minimap.image minimap.

(** The three values [includeSprite] computes before it draws. *)
Definition includeSprite_scale {I : Type} (minimap : Minimap.with_image I)
    (spriteScale : Z) : Z :=
  Z.max (Minimap.scale minimap - spriteScale) 0.

Definition includeSprite_x {I : Type} (minimap : Minimap.with_image I)
    (sprite : Sprite.with_image I) (spriteScale : Z) : Z :=
  JS.shr (JS.trunc (Sprite.x sprite)) (Minimap.scale minimap)
  - JS.shr (JS.trunc (Sprite.width sprite / 2)%Q)
           (includeSprite_scale minimap spriteScale)
  + Minimap.borderWidth minimap.

Definition includeSprite_y {I : Type} (minimap : Minimap.with_image I)
    (sprite : Sprite.with_image I) (spriteScale : Z) : Z :=
  JS.shr (JS.trunc (Sprite.y sprite)) (Minimap.scale minimap)
  - JS.shr (JS.trunc (Sprite.height sprite / 2)%Q)
           (includeSprite_scale minimap spriteScale)
  + Minimap.borderWidth minimap.

(** [includeSprite(minimap, sprite, spriteScale)] on the contents of the
    images, for a sprite whose image is another object than the minimap's
    image, as in the refresh, which draws on a minimap it has just built.
    The call draws into the minimap's image in place; the result is the
    minimap afterwards.  The call on references is [ByRef.includeSprite];
    the two agree on distinct objects ([includeSprite_by_ref]). *)
Definition includeSprite (minimap : Minimap.t) (sprite : Sprite.t)
    (spriteScale : Z) : result Minimap.t :=
  let scale := includeSprite_scale minimap spriteScale in
  let x := includeSprite_x minimap sprite spriteScale in
  let y := includeSprite_y minimap sprite spriteScale in
  image ← renderScaledImage (Sprite.image sprite) (Minimap.image minimap)
                            x y scale;
  Ok {| Minimap.image := image; Minimap.scale := Minimap.scale minimap;
        Minimap.borderWidth := Minimap.borderWidth minimap;
        Minimap.borderColor := Minimap.borderColor minimap |}.

(** [createMinimapSprite(scale, borderWidth, borderColor)]: the state
    afterwards and the reference it returns.  The sprite kind
    [MiniMapKind] plays no part in what the module does and is left out. *)
Definition createMinimapSprite (st : State) (scale borderWidth borderColor : Z)
    : result (State * ref) :=
  minimap ← getMinimapObject st scale borderWidth borderColor;
  let r := fresh (dom (heap st)) in
  let sprite := Sprite.create (Minimap.image minimap) in
  let sprite := Sprite.set_data sprite (Some minimap) in
  Ok (set_minimapSprite (set_heap st (<[r := sprite]> (heap st))) (Some r), r).

(** [addSpriteToUpdateList(sprite, spriteScale)]. *)
Definition addSpriteToUpdateList (st : State) (sprite : option ref)
    (spriteScale : Z) : State :=
  let updateSprite :=
    {| IUpdateSprite.sprite := sprite; IUpdateSprite.scale := spriteScale |} in
  set_spritesToUpdate st (spritesToUpdate st ++ [updateSprite]).

(** [removeSpriteFromUpdateList(sprite)]; [!==] compares references. *)
Definition removeSpriteFromUpdateList (st : State) (sprite : option ref)
    : State :=
  set_spritesToUpdate st
    (filter (λ u, IUpdateSprite.sprite u ≠ sprite) (spritesToUpdate st)).

(** [isDestroyed(sprite)]. *)
Definition isDestroyed (sprite : option Sprite.t) : bool :=
  match sprite with
  | None => true
  | Some sprite => negb (JS.and (Sprite.flags sprite) Flag_Destroyed =? 0)
  end.

(** What the refresh handler does with one entry of the snapshot.  The
    minimap it draws on is [minimapSprite.data], read again each time. *)
Definition refreshEntry (updateSprite : IUpdateSprite.t) (st : State)
    : result State :=
  if negb (isDestroyed (sprite_at st (IUpdateSprite.sprite updateSprite))) then
    r ← deref (minimapSprite st);
    display ← deref (heap st !! r);
    minimap ← deref (Sprite.data display);
    sprite ← deref (sprite_at st (IUpdateSprite.sprite updateSprite));
    minimap ← includeSprite minimap sprite (IUpdateSprite.scale updateSprite);
    Ok (set_heap st (<[r := Sprite.set_data display (Some minimap)]> (heap st)))
  else
    Ok (removeSpriteFromUpdateList st (IUpdateSprite.sprite updateSprite)).

(** The callback that [updateMiniMapEvery] hands to the scheduler.
    [newMM] and [minimapSprite.data] are one object, so the image shown
    at the end is the one the loop has drawn on. *)
Definition refreshTick (st : State) : result State :=
  r ← deref (minimapSprite st);
  display ← deref (heap st !! r);
  oldMM ← deref (Sprite.data display);
  newMM ← getMinimapObject st (Minimap.scale oldMM)
             (Minimap.borderWidth oldMM) (Minimap.borderColor oldMM);
  let st := set_heap st (<[r := Sprite.set_data display (Some newMM)]> (heap st)) in
  st ← for_of (spritesToUpdate st) refreshEntry st;
  display ← deref (heap st !! r);
  newMM ← deref (Sprite.data display);
  Ok (set_heap st (<[r := Sprite.setImage display (Minimap.image newMM)]> (heap st))).

(** [updateMiniMapEvery(updateInterval)] registers one more handler. *)
Definition updateMiniMapEvery (st : State) (updateInterval : Z) : State :=
  set_handlers st (handlers st ++ [updateInterval]).

(** The host marks a sprite destroyed. *)
Definition destroy (st : State) (r : ref) : State :=
  match heap st !! r with
  | Some s =>
      set_heap st (<[r := {| Sprite.x := Sprite.x s; Sprite.y := Sprite.y s;
                             Sprite.width := Sprite.width s;
                             Sprite.height := Sprite.height s;
                             Sprite.image := Sprite.image s;
                             Sprite.flags := Z.lor (Sprite.flags s) Flag_Destroyed;
                             Sprite.data := Sprite.data s |}]> (heap st))
  | None => st
  end.

(** What can happen to the module between two frames: a call of one of
    its blocks, the host destroying a sprite, or the scheduler firing the
    [k]-th registered refresh handler. *)
Inductive event : Type :=
  | CreateMinimapSprite (scale borderWidth borderColor : Z)
  | AddSpriteToUpdateList (sprite : option ref) (spriteScale : Z)
  | RemoveSpriteFromUpdateList (sprite : option ref)
  | UpdateMiniMapEvery (updateInterval : Z)
  | Destroy (sprite : ref)
  | Fire (k : nat).

Definition step (st : State) (e : event) : result State :=
  match e with
  | CreateMinimapSprite scale borderWidth borderColor =>
      created ← createMinimapSprite st scale borderWidth borderColor;
      Ok created.1
  | AddSpriteToUpdateList sprite spriteScale =>
      Ok (addSpriteToUpdateList st sprite spriteScale)
  | RemoveSpriteFromUpdateList sprite =>
      Ok (removeSpriteFromUpdateList st sprite)
  | UpdateMiniMapEvery updateInterval =>
      Ok (updateMiniMapEvery st updateInterval)
  | Destroy sprite => Ok (destroy st sprite)
  | Fire k =>
      match handlers st !! k with
      | Some _ => refreshTick st
      | None => Ok st
      end
  end.

Fixpoint run (st : State) (es : list event) : result State :=
  match es with
  | [] => Ok st
  | e :: es' => st' ← step st e; run st' es'
  end.

End Minimap.

(* ===================================================================== *)
(** ** Images as objects *)
(* ===================================================================== *)

(** An [Image] is an object: two references can name one buffer, and a
    pixel written through one is read through the other.  [Buffers] is the
    store of the image objects, the content of each under its reference. *)
Abbreviation Buffers := (gmap positive Image.t).

Module ByRef.
Section ByRef.
Context `{Host}.

(** Modelled from the spec: the host's image primitives are not part of
    the sources.  On a reference they act on the buffer it names, as
    those of [Image] do on a content; a reference to no object throws. *)
Definition width (images : Buffers) (img : positive) : result Z :=
  buffer ← deref (images !! img); Ok (Image.width buffer).

Definition height (images : Buffers) (img : positive) : result Z :=
  buffer ← deref (images !! img); Ok (Image.height buffer).

Definition getPixel (images : Buffers) (img : positive) (x y : Z) : result Z :=
  buffer ← deref (images !! img); Ok (Image.getPixel buffer x y).

Definition setPixel (images : Buffers) (img : positive) (x y c : Z)
    : result Buffers :=
  buffer ← deref (images !! img);
  buffer ← Image.setPixel buffer x y c;
  Ok (<[img := buffer]> images).

(** [renderScaledImage(source, destination, x, y, scale)]: every
    [source.getPixel] reads the store as the writes before it have left
    it.  The size of a buffer never changes, so the limit of a loop is
    read when the loop is entered. *)
Definition renderScaledImage (source destination : positive) (x y scale : Z)
    (images : Buffers) : result Buffers :=
  limit ← width images source;
  for_loop limit (JS.shl 1 scale) (λ i images,
    limit ← height images source;
    for_loop limit (JS.shl 1 scale) (λ j images,
      c ← getPixel images source i j;
      if negb (c =? 0) then
        c ← getPixel images source i j;
        setPixel images destination (x + JS.shr i scale) (y + JS.shr j scale) c
      else Ok images) images) images.

(** [includeSprite(minimap, sprite, spriteScale)]: [sprite.image] and
    [minimap.image] are references. *)
Definition includeSprite (minimap : Minimap.obj) (sprite : Sprite.obj)
    (spriteScale : Z) (images : Buffers) : result Buffers :=
  let scale := includeSprite_scale minimap spriteScale in
  let x := includeSprite_x minimap sprite spriteScale in
  let y := includeSprite_y minimap sprite spriteScale in
  renderScaledImage (Sprite.image sprite) (Minimap.image minimap) x y scale
    images.

End ByRef.
End ByRef.

(* ===================================================================== *)
(** ** Vocabulary of the properties *)
(* ===================================================================== *)

(** The values a loop variable takes in
    [for (let i = 0; i < limit; i += step)] when [step] is positive. *)
Definition loop_indices (limit step : Z) : list Z :=
  (λ k, k * step) <$> seqZ 0 ((limit + step - 1) `div` step).

(** The calls [setPixel(u, v, c)] that rendering [source] at origin
    [(x, y)] and scale level [scale] makes, in the order of the loops: one
    for each visited pixel that is not transparent. *)
Definition stamps (source : Image.t) (x y scale : Z) : list (Z * Z * Z) :=
  i ← loop_indices (Image.width source) (JS.shl 1 scale);
  j ← loop_indices (Image.height source) (JS.shl 1 scale);
  if negb (Image.getPixel source i j =? 0)
  then [(x + JS.shr i scale, y + JS.shr j scale, Image.getPixel source i j)]
  else [].

Definition plot `{Host} (w : Z * Z * Z) (destination : Image.t) : result Image.t :=
  Image.setPixel destination w.1.1 w.1.2 w.2.

(** The colour of the last write to [(u, v)] in a sequence of writes. *)
Fixpoint painted (ws : list (Z * Z * Z)) (u v : Z) : option Z :=
  match ws with
  | [] => None
  | w :: ws' =>
      match painted ws' u v with
      | Some c => Some c
      | None => if (w.1.1 =? u) && (w.1.2 =? v) then Some w.2 else None
      end
  end.

(** [(i, j)] is a pixel of [img] that the loops of a rendering at scale
    level [s] visit: inside the image, both coordinates multiples of the
    step [1 << s]. *)
Definition visited (img : Image.t) (s i j : Z) : Prop :=
  0 ≤ i < Image.width img ∧ 0 ≤ j < Image.height img ∧
  (JS.shl 1 s | i) ∧ (JS.shl 1 s | j).

(** [(i, j)] is a pixel of [img] on the sampling grid of scale level [s]:
    inside the image, both coordinates multiples of [2^s]. *)
Definition sampled (img : Image.t) (s i j : Z) : Prop :=
  0 ≤ i < Image.width img ∧ 0 ≤ j < Image.height img ∧
  (2 ^ s | i) ∧ (2 ^ s | j).

(** A scale level whose shifts stay within 32-bit arithmetic; the levels of
    [MinimapScale] are [0] to [4]. *)
Definition shift_ok (s : Z) : Prop := 0 ≤ s ≤ 30.

(** A buffer whose coordinates are 32-bit integers. *)
Definition int32_sized (img : Image.t) : Prop :=
  Image.width img ≤ 2 ^ 31 ∧ Image.height img ≤ 2 ^ 31.

(** An image without a single visible pixel. *)
Definition blank (img : Image.t) : Prop := ∀ i j, Image.getPixel img i j = 0.

(** The three constants [getMinimapObject] reads off the tile map. *)
Definition numRows (tilemap : TileMap.t) : Z :=
  JS.shr (TileMap.areaHeight tilemap) (TileMap.scale tilemap).
Definition numCols (tilemap : TileMap.t) : Z :=
  JS.shr (TileMap.areaWidth tilemap) (TileMap.scale tilemap).
Definition tileWidth (tilemap : TileMap.t) : Z :=
  JS.shl 1 (TileMap.scale tilemap).

(** The image of the tile in column [c] and row [r], and where
    [getMinimapObject] puts it. *)
Definition tile_at (tilemap : TileMap.t) (c r : Z) : Image.t :=
  TileMap.getTileImage tilemap (TileMap.getTileIndex tilemap c r).
Definition cell_offset (tilemap : TileMap.t) (scale borderWidth k : Z) : Z :=
  JS.shr (k * tileWidth tilemap) scale + borderWidth.

(** The grid cells [(c, r)] in the order of the two loops: row by row. *)
Definition cells (tilemap : TileMap.t) : list (Z * Z) :=
  r ← seqZ 0 (numRows tilemap); c ← seqZ 0 (numCols tilemap); [(c, r)].

Definition stamp_cell `{Host} (tilemap : TileMap.t) (scale borderWidth : Z)
    (cell : Z * Z) (minimap : Image.t) : result Image.t :=
  renderScaledImage (tile_at tilemap cell.1 cell.2) minimap
    (cell_offset tilemap scale borderWidth cell.1)
    (cell_offset tilemap scale borderWidth cell.2) scale.

(** The size of the minimap image. *)
Definition minimap_width (tilemap : TileMap.t) (scale borderWidth : Z) : Z :=
  JS.shr (numCols tilemap * tileWidth tilemap) scale + borderWidth * 2.
Definition minimap_height (tilemap : TileMap.t) (scale borderWidth : Z) : Z :=
  JS.shr (numRows tilemap * tileWidth tilemap) scale + borderWidth * 2.

(** The image before the first tile is drawn. *)
Definition canvas (tilemap : TileMap.t) (scale borderWidth borderColor : Z)
    : Image.t :=
  let minimap := Image.create (minimap_width tilemap scale borderWidth)
                              (minimap_height tilemap scale borderWidth) in
  if 0 <? borderWidth then Image.fill minimap borderColor else minimap.

(** [(u, v)] lies in the outer strip of width [b] of [img]. *)
Definition in_margin (img : Image.t) (b u v : Z) : Prop :=
  u < b ∨ Image.width img - b ≤ u ∨ v < b ∨ Image.height img - b ≤ v.

(** Some tile draws a visible pixel on [(u, v)]: a visited pixel [(i, j)]
    of the tile of a cell [(c, r)] of the grid is not zero and lands
    there. *)
Definition drawn_over (tilemap : TileMap.t) (scale borderWidth u v : Z) : Prop :=
  ∃ c r i j,
    0 ≤ c < numCols tilemap ∧ 0 ≤ r < numRows tilemap ∧
    visited (tile_at tilemap c r) scale i j ∧
    Image.getPixel (tile_at tilemap c r) i j ≠ 0 ∧
    u = cell_offset tilemap scale borderWidth c + JS.shr i scale ∧
    v = cell_offset tilemap scale borderWidth r + JS.shr j scale.

(** The geometry the builder counts on: the minimap's scale level does
    not exceed the tile scale, both are 32-bit shift counts, the map's
    area is a 32-bit integer, and no tile image is larger than a tile. *)
Definition grid_ok (tilemap : TileMap.t) (scale : Z) : Prop :=
  0 ≤ scale ≤ TileMap.scale tilemap ∧ TileMap.scale tilemap ≤ 30 ∧
  numCols tilemap * tileWidth tilemap < 2 ^ 31 ∧
  numRows tilemap * tileWidth tilemap < 2 ^ 31.
Definition tiles_fit (tilemap : TileMap.t) : Prop :=
  ∀ idx, Image.width (TileMap.getTileImage tilemap idx) ≤ tileWidth tilemap ∧
         Image.height (TileMap.getTileImage tilemap idx) ≤ tileWidth tilemap.

(** The sprite of a tracked entry is not destroyed in [st]. *)
Definition alive `{Host} (st : State) (u : IUpdateSprite.t) : Prop :=
  isDestroyed (sprite_at st (IUpdateSprite.sprite u)) = false.

#[global] Instance alive_dec `{Host} st u : Decision (alive st u).
Proof. unfold alive. apply _. Defined.

(** Overlaying the sprite of one tracked entry on a minimap. *)
Definition overlay `{Host} (st : State) (u : IUpdateSprite.t)
    (minimap : Minimap.t) : result Minimap.t :=
  sprite ← deref (sprite_at st (IUpdateSprite.sprite u));
  includeSprite minimap sprite (IUpdateSprite.scale u).

(** The references of the destroyed sprites among the entries [l]. *)
Definition dead_refs `{Host} (st : State) (l : list IUpdateSprite.t)
    : list (option ref) :=
  IUpdateSprite.sprite <$> filter (λ u, ¬ alive st u) l.

(** The state in the middle of a refresh: the display [r] carries the
    minimap [minimap], and [cur] is what is left of the tracked list. *)
Definition during (st : State) (r : ref) (display : Sprite.t)
    (minimap : Minimap.t) (cur : list IUpdateSprite.t) : State :=
  set_spritesToUpdate
    (set_heap st (<[r := Sprite.set_data display (Some minimap)]> (heap st)))
    cur.

(** The state a refresh leaves when its overlays produced [minimap]. *)
Definition refreshed `{Host} (st : State) (r : ref) (display : Sprite.t)
    (minimap : Minimap.t) : State :=
  set_spritesToUpdate
    (set_heap st
       (<[r := Sprite.setImage (Sprite.set_data display (Some minimap))
                               (Minimap.image minimap)]> (heap st)))
    (filter (alive st) (spritesToUpdate st)).

Definition is_create (e : event) : bool :=
  match e with
  | CreateMinimapSprite _ _ _ => true
  | _ => false
  end.

(* ===================================================================== *)
(** ** A small world to run the code on *)
(* ===================================================================== *)

(** Two hosts: one drops writes outside a buffer, one rejects them.  Both
    keep the left and top edge of a sprite whose image is replaced, so
    that its centre [(x, y)] moves by half the change of size. *)
Definition keep_corner (position size : Q * Q) (size' : Z * Z) : Q * Q :=
  if Qeq_bool size.1 (inject_Z size'.1) && Qeq_bool size.2 (inject_Z size'.2)
  then position
  else (position.1 + (inject_Z size'.1 - size.1) / 2,
        position.2 + (inject_Z size'.2 - size.2) / 2)%Q.

Lemma keep_corner_same_size x y w h w' h' :
  (w == inject_Z w')%Q → (h == inject_Z h')%Q →
  keep_corner (x, y) (w, h) (w', h') = (x, y).
Proof.
  intros Hw%Qeq_bool_iff Hh%Qeq_bool_iff. unfold keep_corner. simpl.
  by rewrite Hw, Hh.
Qed.

Definition lenient_host : Host :=
  {| strict_bounds := false; Flag_Destroyed := 2;
     setImage_position := keep_corner;
     setImage_position_same_size := keep_corner_same_size |}.
Definition strict_host : Host :=
  {| strict_bounds := true; Flag_Destroyed := 2;
     setImage_position := keep_corner;
     setImage_position_same_size := keep_corner_same_size |}.

(** A 4×2 image whose pixel [(u, v)] is [u + 4 v]: only [(0, 0)] is
    transparent. *)
Definition demo_source : Image.t :=
  {| Image.width := 4; Image.height := 2; Image.pixels := λ u v, u + 4 * v |}.

(** The same source as [demo_source] but for the pixel [(1, 0)]. *)
Definition demo_source_alt : Image.t :=
  {| Image.width := 4; Image.height := 2;
     Image.pixels := λ u v, if (u =? 1) && (v =? 0) then 6 else u + 4 * v |}.

Definition demo_destination : Image.t := Image.fill (Image.create 5 3) 9.

(** A 2×2 grid of 4×4 tiles; the tile in column [c] and row [r] is filled
    with colour [c + 2 r + 1]. *)
Definition demo_tilemap : TileMap.t :=
  {| TileMap.scale := 2; TileMap.areaWidth := 8; TileMap.areaHeight := 8;
     TileMap.getTileIndex := λ c r, c + 2 * r;
     TileMap.getTileImage := λ idx, Image.fill (Image.create 4 4) (idx + 1) |}.

Definition demo_minimap : Minimap.t :=
  {| Minimap.image := Image.create 6 6; Minimap.scale := 1;
     Minimap.borderWidth := 1; Minimap.borderColor := 9 |}.

(** The display, a live 2×2 sprite at [(4.5, 4)], a destroyed sprite and a
    sprite without a visible pixel. *)
Definition demo_display : Sprite.t :=
  Sprite.set_data (Sprite.create (Minimap.image demo_minimap)) (Some demo_minimap).
Definition demo_hero : Sprite.t :=
  {| Sprite.x := 9 # 2; Sprite.y := 4; Sprite.width := 2; Sprite.height := 2;
     Sprite.image := Image.fill (Image.create 2 2) 7;
     Sprite.flags := 0; Sprite.data := None |}.
Definition demo_ghost : Sprite.t :=
  {| Sprite.x := 2; Sprite.y := 2; Sprite.width := 2; Sprite.height := 2;
     Sprite.image := Image.fill (Image.create 2 2) 5;
     Sprite.flags := 2; Sprite.data := None |}.
Definition demo_invisible : Sprite.t :=
  {| Sprite.x := 2; Sprite.y := 2; Sprite.width := 3; Sprite.height := 3;
     Sprite.image := Image.create 3 3;
     Sprite.flags := 0; Sprite.data := None |}.

Definition demo_tracked (sprite : option ref) (scale : Z) : IUpdateSprite.t :=
  {| IUpdateSprite.sprite := sprite; IUpdateSprite.scale := scale |}.

(** Sprite 1 is the display, 2 the hero, 3 the destroyed one; the list
    tracks the hero twice, the destroyed sprite and a [null]. *)
Definition demo_state : State :=
  {| tileMap := Some demo_tilemap;
     heap := <[1%positive := demo_display]>
               (<[2%positive := demo_hero]> (<[3%positive := demo_ghost]> ∅));
     minimapSprite := Some 1%positive;
     spritesToUpdate :=
       [demo_tracked (Some 2%positive) 0; demo_tracked (Some 3%positive) 0;
        demo_tracked None 0; demo_tracked (Some 2%positive) 1];
     handlers := [100] |}.

Definition demo_empty_scene : State := Uninitialized None ∅.

(** Every write of the builder, in order: the writes of the cells, row
    by row. *)
Definition all_stamps (tilemap : TileMap.t) (scale borderWidth : Z)
    : list (Z * Z * Z) :=
  cell ← cells tilemap;
  stamps (tile_at tilemap cell.1 cell.2)
    (cell_offset tilemap scale borderWidth cell.1)
    (cell_offset tilemap scale borderWidth cell.2) scale.

(** The number of minimap pixels along one side of a tile. *)
Definition cell_size (tilemap : TileMap.t) (scale : Z) : Z :=
  2 ^ (TileMap.scale tilemap - scale).

(** A map three pixels wide with 4×4 tiles: it has rows but no whole
    column. *)
Definition demo_strip : TileMap.t :=
  {| TileMap.scale := 2; TileMap.areaWidth := 3; TileMap.areaHeight := 8;
     TileMap.getTileIndex := λ c r, c + 2 * r;
     TileMap.getTileImage := λ idx, Image.fill (Image.create 4 4) (idx + 1) |}.

(** The scale, border width and border colour of the minimap that the
    display carries, if there is a display. *)
Definition display_params (st : State) : option (Z * Z * Z) :=
  r ← minimapSprite st;
  display ← heap st !! r;
  minimap ← Sprite.data display;
  Some (Minimap.scale minimap, Minimap.borderWidth minimap,
        Minimap.borderColor minimap).

(** Calls with arguments as the blocks offer them: a scale level within
    32-bit shifts for the display, no negative scale for a tracked
    sprite. *)
Definition ok_event (e : event) : Prop :=
  match e with
  | CreateMinimapSprite scale _ _ => shift_ok scale
  | AddSpriteToUpdateList _ spriteScale => 0 ≤ spriteScale
  | _ => True
  end.

Definition scales_ok (l : list IUpdateSprite.t) : Prop :=
  Forall (λ u, 0 ≤ IUpdateSprite.scale u) l.

(** A state in which a refresh can run: there is a display, it carries a
    minimap of a sound scale level, and the tracked entries have sound
    scales. *)
Definition Safe (st : State) : Prop :=
  (∃ r display minimap,
     minimapSprite st = Some r ∧ heap st !! r = Some display ∧
     Sprite.data display = Some minimap ∧
     shift_ok (Minimap.scale minimap)) ∧
  scales_ok (spritesToUpdate st).

(** The intervals that the calls of [updateMiniMapEvery] among [es]
    register, in order. *)
Definition registered (es : list event) : list Z :=
  omap (λ e, match e with
             | UpdateMiniMapEvery updateInterval => Some updateInterval
             | _ => None
             end) es.



(** Two images have the same size and the same pixels. *)
Definition same_picture (a b : Image.t) : Prop :=
  Image.width a = Image.width b ∧ Image.height a = Image.height b ∧
  ∀ u v, Image.getPixel a u v = Image.getPixel b u v.

(** A row of four pixels [1 2 0 0] and a row of three [0 0 5]. *)
Definition demo_row : Image.t :=
  {| Image.width := 4; Image.height := 1;
     Image.pixels := λ u v, if u =? 0 then 1 else if u =? 1 then 2 else 0 |}.
Definition demo_tail : Image.t :=
  {| Image.width := 3; Image.height := 1;
     Image.pixels := λ u v, if u =? 2 then 5 else 0 |}.

(** The image objects of the small world: [1] is the 4×2 source, [2] the
    5×3 destination, [3] and [4] the images of the hero and of the
    destroyed sprite, [5] and [6] the two rows, [7] a 6×6 canvas. *)
Definition demo_images : Buffers :=
  <[1%positive := demo_source]> (<[2%positive := demo_destination]>
  (<[3%positive := Sprite.image demo_hero]>
  (<[4%positive := Sprite.image demo_ghost]>
  (<[5%positive := demo_row]> (<[6%positive := demo_tail]>
  (<[7%positive := Image.create 6 6]> ∅)))))).

(** The demo minimap and the hero with their images as objects. *)
Definition demo_minimap_obj : Minimap.obj :=
  {| Minimap.image := 7%positive; Minimap.scale := 1;
     Minimap.borderWidth := 1; Minimap.borderColor := 9 |}.
Definition demo_hero_obj : Sprite.obj :=
  {| Sprite.x := 9 # 2; Sprite.y := 4; Sprite.width := 2; Sprite.height := 2;
     Sprite.image := 3%positive; Sprite.flags := 0; Sprite.data := None |}.

(** A display as [createMinimapSprite] leaves it, moved to [(3, 0)]: the
    sprite shows the very image object of the minimap it carries, here
    the row [5]. *)
Definition demo_row_minimap : Minimap.obj :=
  {| Minimap.image := 5%positive; Minimap.scale := 0;
     Minimap.borderWidth := 0; Minimap.borderColor := 0 |}.
Definition demo_row_display : Sprite.obj :=
  {| Sprite.x := 3; Sprite.y := 0; Sprite.width := 4; Sprite.height := 1;
     Sprite.image := 5%positive; Sprite.flags := 0;
     Sprite.data := Some demo_row_minimap |}.

(* ===================================================================== *)
(** ** Shifts *)
(* ===================================================================== *)

Lemma ToInt32_small n : - 2 ^ 31 ≤ n < 2 ^ 31 → JS.ToInt32 n = n.
Proof.
  intros Hn. unfold JS.ToInt32.
  rewrite Z.mod_small by lia. lia.
Qed.

Lemma pow2_le_30 s : 0 ≤ s ≤ 30 → 0 < 2 ^ s ≤ 2 ^ 30.
Proof.
  intros Hs. split; [apply Z.pow_pos_nonneg; lia|].
  apply Z.pow_le_mono_r; lia.
Qed.

Lemma shl_1 s : shift_ok s → JS.shl 1 s = 2 ^ s.
Proof.
  intros Hs. unfold JS.shl.
  rewrite (ToInt32_small 1) by lia.
  rewrite Z.mod_small by (unfold shift_ok in Hs; lia).
  rewrite Z.shiftl_1_l.
  pose proof (pow2_le_30 s Hs).
  apply ToInt32_small. lia.
Qed.

Lemma shr_small a s :
  0 ≤ s < 32 → - 2 ^ 31 ≤ a < 2 ^ 31 → JS.shr a s = a ≫ s.
Proof.
  intros Hs Ha. unfold JS.shr.
  rewrite ToInt32_small by done.
  by rewrite Z.mod_small by lia.
Qed.

Lemma shiftr_multiple k s : 0 ≤ s → (k * 2 ^ s) ≫ s = k.
Proof.
  intros Hs. rewrite Z.shiftr_div_pow2 by done.
  apply Z.div_mul. apply Z.pow_nonzero; lia.
Qed.

(* ===================================================================== *)
(** ** The result monad and the loops *)
(* ===================================================================== *)

Lemma bind_Ok {A B} (m : result A) (f : A → result B) b :
  m ≫= f = Ok b ↔ ∃ a, m = Ok a ∧ f a = Ok b.
Proof.
  destruct m as [a| |]; simpl.
  - split; [eauto|]. by intros (a' & [= <-] & Hf).
  - split; [done|]. by intros (a' & Hm & _).
  - split; [done|]. by intros (a' & Hm & _).
Qed.

Lemma bind_ret_r {A} (m : result A) : m ≫= Ok = m.
Proof. by destruct m. Qed.

Lemma bind_ext {A B} (m : result A) (f g : A → result B) :
  (∀ a, f a = g a) → m ≫= f = m ≫= g.
Proof. intros Hfg. destruct m; simpl; auto. Qed.

Lemma for_of_cons {A B} (x : B) (xs : list B) (body : B → A → result A) a :
  for_of (x :: xs) body a = body x a ≫= for_of xs body.
Proof. done. Qed.

Lemma for_of_app {A B} (xs ys : list B) (body : B → A → result A) a :
  for_of (xs ++ ys) body a = for_of xs body a ≫= for_of ys body.
Proof.
  revert a. induction xs as [|x xs IH]; intros a; simpl; [done|].
  destruct (body x a); simpl; auto.
Qed.

Lemma for_of_bind {A B C} (xs : list B) (f : B → list C)
    (body : C → A → result A) a :
  for_of (xs ≫= f) body a = for_of xs (λ x, for_of (f x) body) a.
Proof.
  revert a. induction xs as [|x xs IH]; intros a; simpl; [done|].
  rewrite for_of_app. apply bind_ext. auto.
Qed.

Lemma for_of_ext {A B} (xs : list B) (f g : B → A → result A) a :
  (∀ x a, x ∈ xs → f x a = g x a) → for_of xs f a = for_of xs g a.
Proof.
  revert a. induction xs as [|x xs IH]; intros a Hfg; simpl; [done|].
  rewrite Hfg by left. apply bind_ext. intros a'.
  apply IH. intros ???. apply Hfg. by right.
Qed.

(** A property that every iteration keeps is kept by the loop. *)
Lemma for_of_inv {A B} (P : A → Prop) (xs : list B) (body : B → A → result A) a r :
  (∀ x a a', x ∈ xs → P a → body x a = Ok a' → P a') →
  P a → for_of xs body a = Ok r → P r.
Proof.
  revert a. induction xs as [|x xs IH]; intros a Hbody Ha; simpl.
  - by intros [= <-].
  - rewrite bind_Ok. intros (a' & Hx & Hr).
    eapply IH, Hr; [|eapply Hbody, Hx; [left|done]].
    intros ??????. eapply Hbody; [by right|done..].
Qed.

(** With a positive step the loop visits exactly [loop_indices]. *)
Lemma for_fuel_indices {A} (limit step : Z) (body : Z → A → result A) :
  0 < step →
  ∀ (n : nat) (fuel : nat) (k : Z) (a : A),
    0 ≤ k →
    Z.of_nat n = Z.max 0 ((limit - k * step + step - 1) `div` step) →
    limit - k * step ≤ Z.of_nat fuel →
    for_fuel fuel (k * step) limit step body a
    = for_of ((λ k, k * step) <$> seqZ k (Z.of_nat n)) body a.
Proof.
  intros Hstep. induction n as [|n IH]; intros fuel k a Hk Hn Hfuel.
  - assert (limit - k * step ≤ 0) as Hle.
    { destruct (decide (limit - k * step ≤ 0)) as [|Hgt]; [done|exfalso].
      assert (1 ≤ (limit - k * step + step - 1) `div` step); [|lia].
      apply Z.div_le_lower_bound; lia. }
    simpl. destruct fuel; simpl;
      (destruct (Z.ltb_spec (k * step) limit); [lia|done]).
  - assert (0 < limit - k * step) as Hlt.
    { destruct (decide (0 < limit - k * step)) as [|Hle]; [done|exfalso].
      assert ((limit - k * step + step - 1) `div` step ≤ 0); [|lia].
      apply Z.lt_succ_r, Z.div_lt_upper_bound; lia. }
    destruct fuel as [|fuel]; [simpl in Hfuel; lia|].
    rewrite seqZ_cons by lia. simpl.
    destruct (Z.ltb_spec (k * step) limit); [|lia].
    apply bind_ext. intros a'.
    replace (k * step + step) with (Z.succ k * step) by lia.
    rewrite Nat2Z.inj_succ, Z.pred_succ.
    apply IH; [lia| |lia].
    replace (limit - Z.succ k * step + step - 1)
      with ((limit - k * step + step - 1) + (-1) * step) by lia.
    rewrite Z.div_add by lia. lia.
Qed.

Lemma for_loop_indices {A} (limit step : Z) (body : Z → A → result A) a :
  0 < step → for_loop limit step body a = for_of (loop_indices limit step) body a.
Proof.
  intros Hstep. unfold for_loop, loop_indices.
  pose proof (for_fuel_indices limit step body Hstep
    (Z.to_nat ((limit + step - 1) `div` step)) (Z.to_nat limit) 0 a) as Hf.
  rewrite Z.mul_0_l, Z.sub_0_r in Hf. rewrite Hf; [|lia..].
  destruct (decide (0 ≤ (limit + step - 1) `div` step)).
  - by rewrite Z2Nat.id.
  - rewrite !seqZ_nil; [done|lia..].
Qed.

Lemma elem_of_loop_indices limit step i :
  0 < step → i ∈ loop_indices limit step ↔ 0 ≤ i < limit ∧ (step | i).
Proof.
  intros Hstep. unfold loop_indices.
  rewrite list_elem_of_fmap. setoid_rewrite elem_of_seqZ. split.
  - intros (k & -> & Hk). split; [|by exists k].
    split; [nia|].
    assert (k * step ≤ limit - 1); [|lia].
    assert (k + 1 ≤ (limit + step - 1) `div` step) as Hk1 by lia.
    pose proof (Z.mul_div_le (limit + step - 1) step Hstep). nia.
  - intros ([Hi0 Hi] & k & ->). exists k. split; [done|].
    split; [nia|].
    assert (k + 1 ≤ (limit + step - 1) `div` step); [|lia].
    apply Z.div_le_lower_bound; [done|nia].
Qed.

Lemma for_fuel_inv {A} (P : A → Prop) (body : Z → A → result A) limit step :
  (∀ i a a', P a → body i a = Ok a' → P a') →
  ∀ fuel i a r, P a → for_fuel fuel i limit step body a = Ok r → P r.
Proof.
  intros Hbody. induction fuel as [|fuel IH]; intros i a r Ha; simpl.
  - destruct (i <? limit); [done|]. by intros [= <-].
  - destruct (i <? limit); [|by intros [= <-]].
    rewrite bind_Ok. intros (a' & Hi & Hr). eauto.
Qed.

Lemma for_loop_inv {A} (P : A → Prop) (body : Z → A → result A) limit step a r :
  (∀ i a a', P a → body i a = Ok a' → P a') →
  P a → for_loop limit step body a = Ok r → P r.
Proof. intros Hbody Ha. by apply for_fuel_inv. Qed.

Lemma for_fuel_no_Fault {A} (body : Z → A → result A) limit step :
  (∀ i a, body i a ≠ Fault) →
  ∀ fuel i a, for_fuel fuel i limit step body a ≠ Fault.
Proof.
  intros Hbody. induction fuel as [|fuel IH]; intros i a; simpl.
  - by destruct (i <? limit).
  - destruct (i <? limit); [|done].
    specialize (Hbody i a). destruct (body i a); simpl; done.
Qed.

(** A loop whose step is not positive and whose condition holds at the
    start never leaves: no amount of fuel makes it return. *)
Lemma for_fuel_stuck {A} (body : Z → A → result A) limit step r :
  step ≤ 0 → 0 < limit →
  ∀ fuel i a, i ≤ 0 → for_fuel fuel i limit step body a ≠ Ok r.
Proof.
  intros Hstep Hlimit. induction fuel as [|fuel IH]; intros i a Hi; simpl.
  - destruct (Z.ltb_spec i limit); [done|lia].
  - destruct (Z.ltb_spec i limit); [|lia].
    destruct (body i a) as [a'| |]; simpl; [|done..]. apply IH. lia.
Qed.

Lemma for_loop_stuck {A} (body : Z → A → result A) limit step a r :
  step ≤ 0 → for_loop limit step body a = Ok r → limit ≤ 0 ∧ r = a.
Proof.
  intros Hstep Hr. destruct (decide (0 < limit)) as [Hl|Hl].
  - exfalso.
    by eapply (for_fuel_stuck body limit step r Hstep Hl (Z.to_nat limit) 0 a).
  - split; [lia|]. unfold for_loop in Hr.
    replace (Z.to_nat limit) with 0%nat in Hr by lia. simpl in Hr.
    destruct (Z.ltb_spec 0 limit); [lia|]. by injection Hr.
Qed.

(** More fuel than [for_loop] takes changes nothing when the step is
    positive: the loop has left before. *)
Lemma for_fuel_enough {A} (body : Z → A → result A) limit step a fuel :
  0 < step → (Z.to_nat limit ≤ fuel)%nat →
  for_fuel fuel 0 limit step body a = for_loop limit step body a.
Proof.
  intros Hstep Hfuel. rewrite for_loop_indices by done.
  pose proof (for_fuel_indices limit step body Hstep
    (Z.to_nat ((limit + step - 1) `div` step)) fuel 0 a) as Hf.
  rewrite Z.mul_0_l, Z.sub_0_r in Hf. rewrite Hf; [|lia..].
  unfold loop_indices.
  destruct (decide (0 ≤ (limit + step - 1) `div` step)).
  - by rewrite Z2Nat.id.
  - rewrite !seqZ_nil; [done|lia..].
Qed.

Lemma for_of_skip {A B} (xs : list B) (a : A) :
  for_of xs (λ _ a, Ok a) a = Ok a.
Proof. induction xs; simpl; auto. Qed.

Lemma loop_indices_1 n : loop_indices n 1 = seqZ 0 n.
Proof.
  unfold loop_indices. rewrite Z.add_simpl_r, Z.div_1_r.
  rewrite <- (list_fmap_id (seqZ 0 n)) at 2.
  apply list_fmap_ext. intros _ k _. simpl. lia.
Qed.

Lemma for_of_total {A B} (P : A → Prop) (xs : list B) (body : B → A → result A) a :
  (∀ x a, x ∈ xs → P a → ∃ a', body x a = Ok a' ∧ P a') →
  P a → ∃ r, for_of xs body a = Ok r ∧ P r.
Proof.
  revert a. induction xs as [|x xs IH]; intros a Hbody Ha; [by exists a|].
  destruct (Hbody x a) as (a' & Hx & Ha'); [left|done|].
  rewrite for_of_cons, Hx. apply IH; [|done].
  intros ????. apply Hbody; [by right|done].
Qed.

Lemma filter_ext_in {A} (P Q : A → Prop)
    `{!∀ x, Decision (P x), !∀ x, Decision (Q x)} (l : list A) :
  (∀ x, x ∈ l → P x ↔ Q x) → filter P l = filter Q l.
Proof.
  induction l as [|a l IH]; intros HPQ; [done|].
  rewrite !filter_cons, IH by (intros ??; apply HPQ; by right).
  destruct (decide (P a)) as [HP|HP], (decide (Q a)) as [HQ|HQ]; try done;
    exfalso; apply (HPQ a) in HP || apply (HPQ a) in HQ; done || left.
Qed.

Lemma filter_all {A} (P : A → Prop) `{!∀ x, Decision (P x)} (l : list A) :
  (∀ x, x ∈ l → P x) → filter P l = l.
Proof.
  induction l as [|a l IH]; intros HP; [done|].
  rewrite filter_cons_True by (apply HP; left).
  f_equal. apply IH. intros ??. apply HP. by right.
Qed.

(* ===================================================================== *)
(** ** Pixels *)
(* ===================================================================== *)

Section Pixels.
Context `{Host}.

Lemma setPixel_Ok d x y c r :
  Image.setPixel d x y c = Ok r →
  Image.width r = Image.width d ∧ Image.height r = Image.height d ∧
  ∀ u v, Image.getPixel r u v =
    if Image.inRange d u v && (u =? x) && (v =? y) then c
    else Image.getPixel d u v.
Proof.
  unfold Image.setPixel.
  destruct (Image.inRange d x y) eqn:Hin.
  - intros [= <-]. repeat split; [done..|]. intros u v.
    unfold Image.getPixel, Image.inRange. simpl.
    fold (Image.inRange d u v).
    destruct (Image.inRange d u v); simpl; [|done].
    by destruct (u =? x), (v =? y).
  - destruct strict_bounds; [done|]. intros [= <-].
    repeat split; [done..|]. intros u v.
    destruct (Image.inRange d u v) eqn:Huv; [|done]. simpl.
    destruct (Z.eqb_spec u x) as [->|]; [|done].
    destruct (Z.eqb_spec v y) as [->|]; [|done].
    congruence.
Qed.

Lemma inRange_dims d r u v :
  Image.width r = Image.width d → Image.height r = Image.height d →
  Image.inRange r u v = Image.inRange d u v.
Proof. unfold Image.inRange. by intros -> ->. Qed.

Lemma setPixel_total d x y c :
  (strict_bounds = true → Image.inRange d x y = true) →
  ∃ r, Image.setPixel d x y c = Ok r.
Proof.
  unfold Image.setPixel. intros Hin.
  destruct (Image.inRange d x y); [eauto|].
  destruct strict_bounds; [|eauto]. by specialize (Hin eq_refl).
Qed.

Lemma setPixel_not_Diverge d x y c : Image.setPixel d x y c ≠ Diverge.
Proof.
  unfold Image.setPixel.
  by destruct (Image.inRange d x y), strict_bounds.
Qed.

(** A sequence of writes keeps the size of the buffer and leaves, at each
    position, the colour of the last write to it. *)
Lemma for_of_plot_Ok ws : ∀ d r,
  for_of ws plot d = Ok r →
  Image.width r = Image.width d ∧ Image.height r = Image.height d ∧
  ∀ u v, Image.getPixel r u v =
    if Image.inRange d u v
    then default (Image.getPixel d u v) (painted ws u v) else 0.
Proof.
  induction ws as [|w ws IH]; intros d r; simpl.
  - intros [= <-]. repeat split; [done..|]. intros u v.
    unfold Image.getPixel. by destruct (Image.inRange d u v).
  - rewrite bind_Ok. intros (d1 & Hw & Hr).
    apply setPixel_Ok in Hw as (Hw1 & Hh1 & Hpix).
    apply IH in Hr as (Hw2 & Hh2 & Hpix2).
    repeat split; [congruence..|]. intros u v.
    rewrite Hpix2, (inRange_dims d d1) by done.
    destruct (Image.inRange d u v) eqn:Hin; [|done].
    destruct (painted ws u v); [done|]. simpl.
    rewrite Hpix, Hin. simpl.
    rewrite (Z.eqb_sym w.1.1), (Z.eqb_sym w.1.2).
    by destruct (u =? w.1.1), (v =? w.1.2).
Qed.

Lemma for_of_plot_total ws : ∀ d,
  (strict_bounds = true →
   Forall (λ w, Image.inRange d w.1.1 w.1.2 = true) ws) →
  ∃ r, for_of ws plot d = Ok r.
Proof.
  induction ws as [|w ws IH]; intros d Hin; [by exists d|].
  destruct (setPixel_total d w.1.1 w.1.2 w.2) as [d1 Hd1].
  { intros Hs. specialize (Hin Hs). by inv Hin. }
  rewrite for_of_cons.
  change (plot w d) with (Image.setPixel d w.1.1 w.1.2 w.2). rewrite Hd1.
  change (∃ r, for_of ws plot d1 = Ok r).
  apply IH. intros Hs. specialize (Hin Hs). inv Hin.
  apply setPixel_Ok in Hd1 as (Hw1 & Hh1 & _).
  eapply Forall_impl; [done|]. intros w' Hw'. simpl in Hw'.
  by rewrite (inRange_dims d d1).
Qed.

Lemma for_of_plot_not_Diverge ws : ∀ d, for_of ws plot d ≠ Diverge.
Proof.
  induction ws as [|w ws IH]; intros d; [done|].
  rewrite for_of_cons.
  change (plot w d) with (Image.setPixel d w.1.1 w.1.2 w.2).
  pose proof (setPixel_not_Diverge d w.1.1 w.1.2 w.2).
  destruct (Image.setPixel d w.1.1 w.1.2 w.2); [apply IH|done..].
Qed.

Lemma painted_Some ws u v c : painted ws u v = Some c → (u, v, c) ∈ ws.
Proof.
  induction ws as [|[[a b] c'] ws IH]; simpl; [done|].
  destruct (painted ws u v) as [c''|].
  - intros [= ->]. right. by apply IH.
  - destruct (Z.eqb_spec a u) as [->|]; [|done].
    destruct (Z.eqb_spec b v) as [->|]; [|done].
    intros [= ->]. left.
Qed.

Lemma painted_None ws u v : painted ws u v = None ↔ ∀ c, (u, v, c) ∉ ws.
Proof.
  induction ws as [|[[a b] c'] ws IH]; simpl.
  - split; [|done]. intros _ c. apply not_elem_of_nil.
  - destruct (painted ws u v) as [c''|] eqn:Hp.
    + split; [done|]. intros Hno. exfalso.
      apply (Hno c''). right. by apply painted_Some.
    + destruct (Z.eqb_spec a u) as [->|Ha]; simpl.
      * destruct (Z.eqb_spec b v) as [->|Hb]; simpl.
        -- split; [done|]. intros Hno. exfalso. apply (Hno c'). left.
        -- split; [|done]. intros _ c. rewrite elem_of_cons.
           intros [[= ? ?]|Hin]; [done|]. by apply (proj1 IH eq_refl c).
      * split; [|done]. intros _ c. rewrite elem_of_cons.
        intros [[= ? ?]|Hin]; [done|]. by apply (proj1 IH eq_refl c).
Qed.

End Pixels.

(* ===================================================================== *)
(** ** ScaledRenderer: what a rendering writes *)
(* ===================================================================== *)

Section Rendering.
Context `{Host}.

(** When the step [1 << s] is positive the two loops of
    [renderScaledImage] issue exactly the writes [stamps]. *)
Lemma renderScaledImage_stamps source destination x y s :
  0 < JS.shl 1 s →
  renderScaledImage source destination x y s
  = for_of (stamps source x y s) plot destination.
Proof.
  intros Hstep. unfold renderScaledImage, stamps.
  rewrite for_loop_indices, for_of_bind by done.
  apply for_of_ext. intros i d _.
  rewrite for_loop_indices, for_of_bind by done.
  apply for_of_ext. intros j d' _.
  destruct (negb (Image.getPixel source i j =? 0)); [|done].
  rewrite for_of_cons. symmetry. apply bind_ret_r.
Qed.

(** When it is not, a call that returns has not run the loop body. *)
Lemma renderScaledImage_stuck source destination x y s r :
  JS.shl 1 s ≤ 0 →
  renderScaledImage source destination x y s = Ok r → r = destination.
Proof. intros Hstep Hr. by apply for_loop_stuck in Hr as [_ ->]. Qed.

Lemma elem_of_stamps source x y s u v c :
  0 < JS.shl 1 s →
  (u, v, c) ∈ stamps source x y s ↔
  ∃ i j, visited source s i j ∧ Image.getPixel source i j ≠ 0 ∧
         u = x + JS.shr i s ∧ v = y + JS.shr j s ∧
         c = Image.getPixel source i j.
Proof.
  intros Hstep. unfold stamps, visited.
  rewrite list_elem_of_bind. setoid_rewrite list_elem_of_bind.
  setoid_rewrite elem_of_loop_indices; [|done..]. split.
  - intros (i & (j & Hin & Hj) & Hi).
    destruct (Z.eqb_spec (Image.getPixel source i j) 0) as [|Hne];
      simpl in Hin; [by apply not_elem_of_nil in Hin|].
    apply list_elem_of_singleton in Hin as [= -> -> ->].
    exists i, j. by destruct Hi as [? ?], Hj as [? ?].
  - intros (i & j & (Hi & Hj & Hdi & Hdj) & Hne & -> & -> & ->).
    exists i. split; [|done]. exists j. split; [|done].
    destruct (Z.eqb_spec (Image.getPixel source i j) 0); [done|].
    simpl. apply list_elem_of_singleton. done.
Qed.

(** The writes depend on the visited pixels of the source only. *)
Lemma stamps_ext source source' x y s :
  0 < JS.shl 1 s →
  Image.width source' = Image.width source →
  Image.height source' = Image.height source →
  (∀ i j, visited source s i j →
          Image.getPixel source' i j = Image.getPixel source i j) →
  stamps source' x y s = stamps source x y s.
Proof.
  intros Hstep Hw Hh Hpix. unfold stamps. rewrite Hw, Hh.
  apply Forall_bind_ext, Forall_forall. intros i Hi.
  apply Forall_bind_ext, Forall_forall. intros j Hj.
  apply elem_of_loop_indices in Hi as [Hi Hdi]; [|done].
  apply elem_of_loop_indices in Hj as [Hj Hdj]; [|done].
  by rewrite Hpix.
Qed.

(** At a scale level within 32-bit shifts the visited pixels of an image
    with 32-bit coordinates are the sampled ones, and [>>] is the exact
    shift on them. *)
Lemma visited_sampled img s i j :
  shift_ok s → visited img s i j ↔ sampled img s i j.
Proof. intros Hs. unfold visited, sampled. by rewrite shl_1. Qed.

Lemma shr_sampled img s i j :
  shift_ok s → int32_sized img → sampled img s i j →
  JS.shr i s = i ≫ s ∧ JS.shr j s = j ≫ s.
Proof.
  intros Hs [Hw Hh] (Hi & Hj & _). unfold shift_ok in Hs.
  split; apply shr_small; lia.
Qed.

Lemma shiftr_multiple_inj s i i' :
  0 ≤ s → (2 ^ s | i) → (2 ^ s | i') → i ≫ s = i' ≫ s → i = i'.
Proof.
  intros Hs [k ->] [k' ->]. rewrite !shiftr_multiple by done. by intros ->.
Qed.

(** Two sampled pixels never land on the same destination: each
    destination position is written at most once. *)
Lemma stamps_functional source x y s u v c c' :
  shift_ok s → int32_sized source →
  (u, v, c) ∈ stamps source x y s → (u, v, c') ∈ stamps source x y s →
  c = c'.
Proof.
  intros Hs Hsz.
  assert (0 < JS.shl 1 s) as Hstep
    by (rewrite shl_1 by done; apply (pow2_le_30 s Hs)).
  assert (0 ≤ s) as Hs0 by (unfold shift_ok in Hs; lia).
  rewrite !elem_of_stamps by done.
  intros (i & j & Hij%visited_sampled & _ & -> & -> & ->); [|done].
  intros (i' & j' & Hij'%visited_sampled & _ & Hu & Hv & ->); [|done].
  destruct (shr_sampled source s i j Hs Hsz Hij) as [Hi Hj].
  destruct (shr_sampled source s i' j' Hs Hsz Hij') as [Hi' Hj'].
  rewrite Hi, Hi' in Hu. rewrite Hj, Hj' in Hv.
  destruct Hij as (_ & _ & Hdi & Hdj), Hij' as (_ & _ & Hdi' & Hdj').
  assert (i = i') as -> by (eapply (shiftr_multiple_inj s); [done..|lia]).
  assert (j = j') as -> by (eapply (shiftr_multiple_inj s); [done..|lia]).
  done.
Qed.

Lemma renderScaledImage_dims source destination x y s r :
  renderScaledImage source destination x y s = Ok r →
  Image.width r = Image.width destination ∧
  Image.height r = Image.height destination.
Proof.
  unfold renderScaledImage.
  set (P := λ d, Image.width d = Image.width destination ∧
                 Image.height d = Image.height destination).
  apply (for_loop_inv P); [|done].
  intros i d d' Hd.
  apply (for_loop_inv P); [|done].
  intros j d1 d2 [Hw1 Hh1].
  destruct (negb (Image.getPixel source i j =? 0)).
  - intros (Hw2 & Hh2 & _)%setPixel_Ok. split; congruence.
  - by intros [= <-].
Qed.

(** A position on which no visited pixel of the source lands with a
    visible colour is as it was, at every scale level. *)
Lemma renderScaledImage_untouched source destination x y s r u v :
  renderScaledImage source destination x y s = Ok r →
  (∀ i j, visited source s i j → u = x + JS.shr i s → v = y + JS.shr j s →
          Image.getPixel source i j = 0) →
  Image.getPixel r u v = Image.getPixel destination u v.
Proof.
  intros Hr Hzero.
  destruct (decide (0 < JS.shl 1 s)) as [Hstep|Hstep];
    [|by rewrite (renderScaledImage_stuck source destination x y s r)
        by (done || lia)].
  rewrite renderScaledImage_stamps in Hr by done.
  apply for_of_plot_Ok in Hr as (_ & _ & ->).
  destruct (Image.inRange destination u v) eqn:Hin;
    [|unfold Image.getPixel; by rewrite Hin].
  destruct (painted (stamps source x y s) u v) as [c|] eqn:Hp; simpl.
  - apply painted_Some, elem_of_stamps in Hp; [|done].
    destruct Hp as (i & j & Hij & Hne & -> & -> & ->).
    exfalso. by apply Hne, Hzero.
  - done.
Qed.

Lemma renderScaledImage_written source destination x y s r i j :
  shift_ok s → int32_sized source →
  renderScaledImage source destination x y s = Ok r →
  sampled source s i j → Image.getPixel source i j ≠ 0 →
  Image.inRange destination (x + i ≫ s) (y + j ≫ s) = true →
  Image.getPixel r (x + i ≫ s) (y + j ≫ s) = Image.getPixel source i j.
Proof.
  intros Hs Hsz Hr Hij Hne Hin.
  assert (0 < JS.shl 1 s) as Hstep
    by (rewrite shl_1 by done; apply (pow2_le_30 s Hs)).
  rewrite renderScaledImage_stamps in Hr by done.
  apply for_of_plot_Ok in Hr as (_ & _ & ->). rewrite Hin.
  assert ((x + i ≫ s, y + j ≫ s, Image.getPixel source i j)
          ∈ stamps source x y s) as Hstamp.
  { apply elem_of_stamps; [done|]. exists i, j.
    destruct (shr_sampled source s i j Hs Hsz Hij) as [-> ->].
    by rewrite visited_sampled. }
  destruct (painted (stamps source x y s) (x + i ≫ s) (y + j ≫ s))
    as [c|] eqn:Hp; simpl.
  - apply painted_Some in Hp. by eapply stamps_functional.
  - exfalso. by eapply painted_None in Hp.
Qed.

Lemma renderScaledImage_returns source destination x y s :
  0 < JS.shl 1 s →
  (strict_bounds = true →
   ∀ i j, visited source s i j → Image.getPixel source i j ≠ 0 →
          Image.inRange destination (x + JS.shr i s) (y + JS.shr j s) = true) →
  ∃ r, renderScaledImage source destination x y s = Ok r.
Proof.
  intros Hstep Hin. rewrite renderScaledImage_stamps by done.
  apply for_of_plot_total. intros Hstrict.
  apply Forall_forall. intros [[u v] c] Hw.
  apply elem_of_stamps in Hw; [|done].
  destruct Hw as (i & j & Hij & Hne & -> & -> & ->). simpl. auto.
Qed.

Lemma sampled_scale_0 source i j :
  sampled source 0 i j ↔
  0 ≤ i < Image.width source ∧ 0 ≤ j < Image.height source.
Proof.
  unfold sampled. change (2 ^ 0) with 1.
  pose proof (Z.divide_1_l i). pose proof (Z.divide_1_l j). tauto.
Qed.

End Rendering.

(* ===================================================================== *)
(** ** ScaledRenderer on references *)
(* ===================================================================== *)

(** A loop on a part of the state is the loop on the whole state. *)
Lemma for_fuel_lift {A B} (f : A → B)
    (body : Z → A → result A) (body' : Z → B → result B) limit step :
  (∀ i a, body' i (f a) = a' ← body i a; Ok (f a')) →
  ∀ fuel i a,
    for_fuel fuel i limit step body' (f a)
    = a' ← for_fuel fuel i limit step body a; Ok (f a').
Proof.
  intros Hbody. induction fuel as [|fuel IH]; intros i a; simpl.
  - by destruct (i <? limit).
  - destruct (i <? limit); [|done]. rewrite Hbody.
    destruct (body i a) as [a'| |]; simpl; [apply IH|done..].
Qed.

Lemma for_loop_lift {A B} (f : A → B)
    (body : Z → A → result A) (body' : Z → B → result B) limit step a :
  (∀ i a, body' i (f a) = a' ← body i a; Ok (f a')) →
  for_loop limit step body' (f a)
  = a' ← for_loop limit step body a; Ok (f a').
Proof. intros Hbody. by apply for_fuel_lift. Qed.

Section ByRefRendering.
Context `{Host}.

(** On two distinct image objects the call on references does to the
    destination what [renderScaledImage] says of the two contents, and
    touches no other object. *)
Lemma renderScaledImage_onto (images : Buffers) source destination src dst
    x y s :
  source ≠ destination → images !! source = Some src →
  ByRef.renderScaledImage source destination x y s
    (<[destination := dst]> images)
  = r ← renderScaledImage src dst x y s; Ok (<[destination := r]> images).
Proof.
  intros Hne Hsrc.
  assert (∀ d, <[destination := d]> images !! source = Some src) as Hsource
    by (intros d; rewrite lookup_insert_ne; [done|congruence]).
  unfold ByRef.renderScaledImage, ByRef.width. rewrite Hsource. simpl.
  unfold renderScaledImage.
  apply (for_loop_lift (λ d, <[destination := d]> images)).
  intros i d. unfold ByRef.height. rewrite Hsource. simpl.
  apply (for_loop_lift (λ d, <[destination := d]> images)).
  intros j d'. unfold ByRef.getPixel, ByRef.setPixel. rewrite Hsource. simpl.
  destruct (negb (Image.getPixel src i j =? 0)); [|done].
  rewrite lookup_insert_eq. simpl.
  destruct (Image.setPixel d' (x + JS.shr i s) (y + JS.shr j s)
              (Image.getPixel src i j)) as [d''| |]; simpl; [|done..].
  by rewrite insert_insert_eq.
Qed.

Lemma renderScaledImage_by_ref (images : Buffers) source destination src dst
    x y s :
  source ≠ destination →
  images !! source = Some src → images !! destination = Some dst →
  ByRef.renderScaledImage source destination x y s images
  = r ← renderScaledImage src dst x y s; Ok (<[destination := r]> images).
Proof.
  intros Hne Hsrc Hdst.
  rewrite <- (insert_id images destination dst) at 1 by done.
  by apply renderScaledImage_onto.
Qed.

(** Two calls in a row on the same destination. *)
Lemma renderScaledImage_by_ref_twice (images : Buffers) first second
    destination src1 src2 dst x1 y1 s1 x2 y2 s2 :
  first ≠ destination → second ≠ destination →
  images !! first = Some src1 → images !! second = Some src2 →
  images !! destination = Some dst →
  (images1 ← ByRef.renderScaledImage first destination x1 y1 s1 images;
   ByRef.renderScaledImage second destination x2 y2 s2 images1)
  = r1 ← renderScaledImage src1 dst x1 y1 s1;
    r2 ← renderScaledImage src2 r1 x2 y2 s2;
    Ok (<[destination := r2]> images).
Proof.
  intros Hne1 Hne2 Hsrc1 Hsrc2 Hdst.
  rewrite (renderScaledImage_by_ref images first destination src1 dst)
    by done.
  destruct (renderScaledImage src1 dst x1 y1 s1) as [r1| |]; simpl;
    [|done..].
  by apply renderScaledImage_onto.
Qed.

(** A call that returns has found its source. *)
Lemma renderScaledImage_by_ref_source (images images' : Buffers)
    source destination x y s :
  ByRef.renderScaledImage source destination x y s images = Ok images' →
  ∃ src, images !! source = Some src.
Proof.
  unfold ByRef.renderScaledImage, ByRef.width.
  destruct (images !! source) as [src|]; [eauto|done].
Qed.

End ByRefRendering.

(* ===================================================================== *)
(** ** C1 *)
(* ===================================================================== *)

(** What [renderScaledImage] does to the content of a destination that is
    not the source, at the scale levels from [0] to [30] and for a source
    with 32-bit coordinates: it depends on the sampled pixels of the
    source only, never loops for ever, returns unless the host rejects a
    write, and when it returns has written the visible sampled pixels and
    nothing else. *)
Lemma renderScaledImage_sampling `{Host}
    (source destination : Image.t) (x y s : Z) :
  0 ≤ s ≤ 30 →
  Image.width source ≤ 2 ^ 31 → Image.height source ≤ 2 ^ 31 →
  (∀ source',
     Image.width source' = Image.width source →
     Image.height source' = Image.height source →
     (∀ i j, 0 ≤ i < Image.width source → 0 ≤ j < Image.height source →
             (2 ^ s | i) → (2 ^ s | j) →
             Image.getPixel source' i j = Image.getPixel source i j) →
     renderScaledImage source' destination x y s
     = renderScaledImage source destination x y s) ∧
  renderScaledImage source destination x y s ≠ Diverge ∧
  ((strict_bounds = true →
    ∀ i j, 0 ≤ i < Image.width source → 0 ≤ j < Image.height source →
           (2 ^ s | i) → (2 ^ s | j) → Image.getPixel source i j ≠ 0 →
           Image.inRange destination (x + i ≫ s) (y + j ≫ s) = true) →
   ∃ r, renderScaledImage source destination x y s = Ok r) ∧
  ∀ r, renderScaledImage source destination x y s = Ok r →
    Image.width r = Image.width destination ∧
    Image.height r = Image.height destination ∧
    (∀ i j, 0 ≤ i < Image.width source → 0 ≤ j < Image.height source →
            (2 ^ s | i) → (2 ^ s | j) → Image.getPixel source i j ≠ 0 →
            Image.inRange destination (x + i ≫ s) (y + j ≫ s) = true →
            Image.getPixel r (x + i ≫ s) (y + j ≫ s)
            = Image.getPixel source i j) ∧
    (∀ u v,
       (∀ i j, 0 ≤ i < Image.width source → 0 ≤ j < Image.height source →
               (2 ^ s | i) → (2 ^ s | j) →
               u = x + i ≫ s → v = y + j ≫ s →
               Image.getPixel source i j = 0) →
       Image.getPixel r u v = Image.getPixel destination u v) ∧
    (s = 0 →
     ∀ i j, 0 ≤ i < Image.width source → 0 ≤ j < Image.height source →
            Image.getPixel source i j ≠ 0 →
            Image.inRange destination (x + i) (y + j) = true →
            Image.getPixel r (x + i) (y + j) = Image.getPixel source i j).
Proof.
  intros Hs Hw Hh.
  assert (shift_ok s) as Hok by done.
  assert (int32_sized source) as Hsz by done.
  assert (0 < JS.shl 1 s) as Hstep
    by (rewrite shl_1 by done; apply (pow2_le_30 s Hs)).
  split; [|split; [|split]].
  - intros source' Hw' Hh' Hpix.
    rewrite (renderScaledImage_stamps source'), (renderScaledImage_stamps source)
      by done.
    rewrite (stamps_ext source source'); [done..|].
    intros i j (Hi & Hj & Hdi & Hdj)%visited_sampled; [|done]. by apply Hpix.
  - rewrite renderScaledImage_stamps by done. apply for_of_plot_not_Diverge.
  - intros Hin. apply renderScaledImage_returns; [done|].
    intros Hstrict i j Hij%visited_sampled Hne; [|done].
    destruct (shr_sampled source s i j Hok Hsz Hij) as [-> ->].
    destruct Hij as (Hi & Hj & Hdi & Hdj). by apply Hin.
  - intros r Hr.
    destruct (renderScaledImage_dims _ _ _ _ _ _ Hr) as [Hwr Hhr].
    split; [done|]. split; [done|]. split; [|split].
    + intros i j ??????.
      by apply (renderScaledImage_written source destination).
    + intros u v Hzero.
      apply (renderScaledImage_untouched source destination x y s r u v Hr).
      intros i j Hij%visited_sampled; [|done].
      destruct (shr_sampled source s i j Hok Hsz Hij) as [-> ->].
      destruct Hij as (Hi & Hj & Hdi & Hdj). by apply Hzero.
    + intros -> i j Hi Hj Hne Hin.
      pose proof (renderScaledImage_written source destination x y 0 r i j)
        as Hwr0.
      rewrite !Z.shiftr_0_r in Hwr0. apply Hwr0; try done.
      by apply sampled_scale_0.
Qed.

(** C1, as it holds: for a source and a destination that are two image
    objects, for the scale levels from [0] to [30] (those of
    [MinimapScale] are [0] to [4]) and a source with 32-bit coordinates.
    [renderScaledImage]
    - depends on the source only through the pixels whose two coordinates
      are multiples of [2^s]: it reads no other;
    - never loops for ever, and returns unless the host rejects a write
      outside the destination;
    - when it returns, has changed no image object but the destination,
      has kept the size of the destination, has written every sampled
      source pixel [(i, j)] that is not zero at
      [(x + (i >> s), y + (j >> s))], and has left every position
      unchanged whose sampled source pixel is zero, or that has none;
    - at [s = 0] has copied every non-zero source pixel one to one.
    When source and destination are one object none of the last two
    holds: [renderScaledImage_onto_itself]. *)
Theorem renderScaledImage_samples_multiples `{Host}
    (images : Buffers) (source destination : positive)
    (src dst : Image.t) (x y s : Z) :
  source ≠ destination →
  images !! source = Some src → images !! destination = Some dst →
  0 ≤ s ≤ 30 →
  Image.width src ≤ 2 ^ 31 → Image.height src ≤ 2 ^ 31 →
  (∀ src',
     Image.width src' = Image.width src →
     Image.height src' = Image.height src →
     (∀ i j, 0 ≤ i < Image.width src → 0 ≤ j < Image.height src →
             (2 ^ s | i) → (2 ^ s | j) →
             Image.getPixel src' i j = Image.getPixel src i j) →
     ByRef.renderScaledImage source destination x y s
       (<[source := src']> images)
     = (images' ← ByRef.renderScaledImage source destination x y s images;
        Ok (<[source := src']> images'))) ∧
  ByRef.renderScaledImage source destination x y s images ≠ Diverge ∧
  ((strict_bounds = true →
    ∀ i j, 0 ≤ i < Image.width src → 0 ≤ j < Image.height src →
           (2 ^ s | i) → (2 ^ s | j) → Image.getPixel src i j ≠ 0 →
           Image.inRange dst (x + i ≫ s) (y + j ≫ s) = true) →
   ∃ images', ByRef.renderScaledImage source destination x y s images
              = Ok images') ∧
  ∀ images',
    ByRef.renderScaledImage source destination x y s images = Ok images' →
    ∃ r,
      images' = <[destination := r]> images ∧
      Image.width r = Image.width dst ∧
      Image.height r = Image.height dst ∧
      (∀ i j, 0 ≤ i < Image.width src → 0 ≤ j < Image.height src →
              (2 ^ s | i) → (2 ^ s | j) → Image.getPixel src i j ≠ 0 →
              Image.inRange dst (x + i ≫ s) (y + j ≫ s) = true →
              Image.getPixel r (x + i ≫ s) (y + j ≫ s)
              = Image.getPixel src i j) ∧
      (∀ u v,
         (∀ i j, 0 ≤ i < Image.width src → 0 ≤ j < Image.height src →
                 (2 ^ s | i) → (2 ^ s | j) →
                 u = x + i ≫ s → v = y + j ≫ s →
                 Image.getPixel src i j = 0) →
         Image.getPixel r u v = Image.getPixel dst u v) ∧
      (s = 0 →
       ∀ i j, 0 ≤ i < Image.width src → 0 ≤ j < Image.height src →
              Image.getPixel src i j ≠ 0 →
              Image.inRange dst (x + i) (y + j) = true →
              Image.getPixel r (x + i) (y + j) = Image.getPixel src i j).
Proof.
  intros Hne Hsrc Hdst Hs Hw Hh.
  destruct (renderScaledImage_sampling src dst x y s Hs Hw Hh)
    as (Hreads & Hends & Hreturns & Hresult).
  rewrite (renderScaledImage_by_ref images source destination src dst)
    by done.
  split; [|split; [|split]].
  - intros src' Hw' Hh' Hpix.
    rewrite (renderScaledImage_by_ref (<[source := src']> images)
               source destination src' dst);
      [|done|apply lookup_insert_eq|by rewrite lookup_insert_ne].
    rewrite (Hreads src') by done.
    destruct (renderScaledImage src dst x y s) as [r| |]; simpl; [|done..].
    f_equal. by apply insert_insert_ne.
  - by destruct (renderScaledImage src dst x y s).
  - intros Hin. destruct (Hreturns Hin) as [r ->]. simpl. eauto.
  - intros images'. rewrite bind_Ok. intros (r & Hr & [= <-]).
    exists r. split; [done|]. by apply Hresult.
Qed.

(* ===================================================================== *)
(** ** SpriteOverlay *)
(* ===================================================================== *)

Section Overlay.
Context `{Host}.

(** Nothing is written when the source shows nothing: the call returns
    the destination as it was, unless the loop step is not positive. *)
Lemma renderScaledImage_blank source destination x y s :
  blank source →
  (∀ r, renderScaledImage source destination x y s = Ok r → r = destination) ∧
  renderScaledImage source destination x y s ≠ Fault ∧
  (shift_ok s → renderScaledImage source destination x y s = Ok destination).
Proof.
  intros Hblank. unfold renderScaledImage.
  assert (∀ i j (d : Image.t),
    (if negb (Image.getPixel source i j =? 0)
     then Image.setPixel d (x + JS.shr i s) (y + JS.shr j s)
            (Image.getPixel source i j)
     else Ok d) = Ok d) as Hbody.
  { intros i j d. by rewrite Hblank. }
  split; [|split].
  - intros r.
    apply (for_loop_inv (λ d, d = destination)); [|done].
    intros i d d' ->.
    apply (for_loop_inv (λ d, d = destination)); [|done].
    intros j d1 d2 ->. rewrite Hbody. by intros [= <-].
  - apply for_fuel_no_Fault. intros i d.
    apply for_fuel_no_Fault. intros j d'. by rewrite Hbody.
  - intros Hs. rewrite shl_1 by done.
    pose proof (pow2_le_30 s Hs) as Hpow.
    rewrite for_loop_indices by lia.
    erewrite for_of_ext; [apply for_of_skip|].
    intros i d _. simpl.
    rewrite for_loop_indices by lia.
    erewrite for_of_ext; [apply for_of_skip|].
    intros j d' _. apply Hbody.
Qed.

Lemma includeSprite_unfold minimap sprite spriteScale :
  includeSprite minimap sprite spriteScale =
  image ← renderScaledImage (Sprite.image sprite) (Minimap.image minimap)
            (includeSprite_x minimap sprite spriteScale)
            (includeSprite_y minimap sprite spriteScale)
            (includeSprite_scale minimap spriteScale);
  Ok {| Minimap.image := image; Minimap.scale := Minimap.scale minimap;
        Minimap.borderWidth := Minimap.borderWidth minimap;
        Minimap.borderColor := Minimap.borderColor minimap |}.
Proof. done. Qed.

Lemma includeSprite_Ok minimap sprite spriteScale minimap' :
  includeSprite minimap sprite spriteScale = Ok minimap' ↔
  ∃ image,
    renderScaledImage (Sprite.image sprite) (Minimap.image minimap)
      (includeSprite_x minimap sprite spriteScale)
      (includeSprite_y minimap sprite spriteScale)
      (includeSprite_scale minimap spriteScale) = Ok image ∧
    minimap' = {| Minimap.image := image;
                  Minimap.scale := Minimap.scale minimap;
                  Minimap.borderWidth := Minimap.borderWidth minimap;
                  Minimap.borderColor := Minimap.borderColor minimap |}.
Proof.
  rewrite includeSprite_unfold, bind_Ok.
  split; intros (image & Hr & Heq); exists image; (split; [done|]);
    congruence.
Qed.

(** On a sprite whose image is not the minimap's image object the call
    on references does to the minimap's image what [includeSprite] says
    of the contents, and touches no other image. *)
Lemma includeSprite_by_ref (images : Buffers)
    (minimap : Minimap.obj) (sprite : Sprite.obj)
    (minimap0 : Minimap.t) (sprite0 : Sprite.t) spriteScale :
  Sprite.image sprite ≠ Minimap.image minimap →
  images !! Sprite.image sprite = Some (Sprite.image sprite0) →
  images !! Minimap.image minimap = Some (Minimap.image minimap0) →
  Minimap.scale minimap = Minimap.scale minimap0 →
  Minimap.borderWidth minimap = Minimap.borderWidth minimap0 →
  Sprite.x sprite = Sprite.x sprite0 → Sprite.y sprite = Sprite.y sprite0 →
  Sprite.width sprite = Sprite.width sprite0 →
  Sprite.height sprite = Sprite.height sprite0 →
  ByRef.includeSprite minimap sprite spriteScale images
  = minimap' ← includeSprite minimap0 sprite0 spriteScale;
    Ok (<[Minimap.image minimap := Minimap.image minimap']> images).
Proof.
  intros Hne Himage Hcanvas Hs Hb Hx Hy Hw Hh.
  unfold ByRef.includeSprite.
  rewrite (renderScaledImage_by_ref images _ _ (Sprite.image sprite0)
             (Minimap.image minimap0)) by done.
  rewrite includeSprite_unfold.
  unfold includeSprite_x, includeSprite_y, includeSprite_scale.
  rewrite Hs, Hb, Hx, Hy, Hw, Hh.
  by destruct (renderScaledImage _ _ _ _ _).
Qed.

(** The overlay keeps the three parameters of the minimap. *)
Lemma includeSprite_params minimap sprite spriteScale minimap' :
  includeSprite minimap sprite spriteScale = Ok minimap' →
  Minimap.scale minimap' = Minimap.scale minimap ∧
  Minimap.borderWidth minimap' = Minimap.borderWidth minimap ∧
  Minimap.borderColor minimap' = Minimap.borderColor minimap.
Proof. rewrite includeSprite_Ok. by intros (image & _ & ->). Qed.

Lemma includeSprite_scale_range {I} (minimap : Minimap.with_image I) spriteScale :
  0 ≤ spriteScale → shift_ok (Minimap.scale minimap) →
  shift_ok (includeSprite_scale minimap spriteScale).
Proof. unfold shift_ok, includeSprite_scale. lia. Qed.

(** The members of the two enumerations: every level is within 32-bit
    shifts, and the effective scale of an overlay is a level again, never
    above the minimap's. *)
Lemma MinimapScale_shift_ok (scale : MinimapScale.t) :
  shift_ok (MinimapScale.value scale).
Proof. unfold shift_ok. destruct scale; simpl; lia. Qed.

Lemma includeSprite_scale_enum (minimap : Minimap.t) (scale : MinimapScale.t)
    (spriteScale : MinimapSpriteScale.t) :
  Minimap.scale minimap = MinimapScale.value scale →
  0 ≤ includeSprite_scale minimap (MinimapSpriteScale.value spriteScale)
    ≤ MinimapScale.value scale ∧
  ∃ e : MinimapScale.t,
    includeSprite_scale minimap (MinimapSpriteScale.value spriteScale)
    = MinimapScale.value e.
Proof.
  unfold includeSprite_scale. intros ->. split.
  - destruct scale, spriteScale; simpl; lia.
  - destruct scale, spriteScale; simpl;
      first [ by exists MinimapScale.Original
            | by exists MinimapScale.Half
            | by exists MinimapScale.Quarter
            | by exists MinimapScale.Eighth
            | by exists MinimapScale.Sixteenth ].
Qed.

End Overlay.

(* ===================================================================== *)
(** ** C5, C6 and C8 *)
(* ===================================================================== *)

(** C5.  [includeSprite] renders the sprite's image at the effective scale
    [max(minimap.scale - spriteScale, 0)]: that is the level passed to
    [renderScaledImage].  The level is never negative, it is the
    difference when the requested scale does not exceed the minimap's, and
    for a minimap at scale 3 and a sprite requested at scale 5 it is [0]. *)
Theorem includeSprite_effective_scale `{Host}
    (minimap : Minimap.t) (sprite : Sprite.t) (spriteScale : Z) :
  let m := Minimap.scale minimap in
  let e := Z.max (m - spriteScale) 0 in
  includeSprite minimap sprite spriteScale =
    (image ← renderScaledImage (Sprite.image sprite) (Minimap.image minimap)
               (includeSprite_x minimap sprite spriteScale)
               (includeSprite_y minimap sprite spriteScale) e;
     Ok {| Minimap.image := image; Minimap.scale := m;
           Minimap.borderWidth := Minimap.borderWidth minimap;
           Minimap.borderColor := Minimap.borderColor minimap |}) ∧
  0 ≤ e ∧
  (spriteScale ≤ m → e = m - spriteScale) ∧
  (m ≤ spriteScale → e = 0) ∧
  (m = 3 → spriteScale = 5 → e = 0).
Proof.
  intros m e. split; [apply includeSprite_unfold|].
  subst m e. repeat split; lia.
Qed.

(** C6, as it holds.  [includeSprite] hands [renderScaledImage] the
    origin
    [x = (sprite.x >> minimap.scale) - ((sprite.width / 2) >> e)
         + minimap.borderWidth]
    and the same for [y] with [sprite.y] and [sprite.height], where [e] is
    the effective scale.  When the sprite's image is not the image object
    of the minimap, no other image object changes and a visible sampled
    pixel [(i, j)] of the sprite's image ends up at
    [(x + (i >> e), y + (j >> e))]: the image is stamped at that origin.
    When it is that object, as for the display and the minimap it
    carries, it is not: [includeSprite_own_image]. *)
Theorem includeSprite_placement `{Host}
    (images : Buffers) (minimap : Minimap.obj) (sprite : Sprite.obj)
    (spriteScale : Z) :
  let e := Z.max (Minimap.scale minimap - spriteScale) 0 in
  let x := JS.shr (JS.trunc (Sprite.x sprite)) (Minimap.scale minimap)
           - JS.shr (JS.trunc (Sprite.width sprite / 2)%Q) e
           + Minimap.borderWidth minimap in
  let y := JS.shr (JS.trunc (Sprite.y sprite)) (Minimap.scale minimap)
           - JS.shr (JS.trunc (Sprite.height sprite / 2)%Q) e
           + Minimap.borderWidth minimap in
  ByRef.includeSprite minimap sprite spriteScale images
  = ByRef.renderScaledImage (Sprite.image sprite) (Minimap.image minimap)
      x y e images ∧
  (Sprite.image sprite ≠ Minimap.image minimap →
   0 ≤ e ≤ 30 →
   ∀ image canvas,
     images !! Sprite.image sprite = Some image →
     images !! Minimap.image minimap = Some canvas →
     Image.width image ≤ 2 ^ 31 → Image.height image ≤ 2 ^ 31 →
     ∀ images',
       ByRef.includeSprite minimap sprite spriteScale images = Ok images' →
       ∃ drawn,
         images' = <[Minimap.image minimap := drawn]> images ∧
         ∀ i j, 0 ≤ i < Image.width image → 0 ≤ j < Image.height image →
                (2 ^ e | i) → (2 ^ e | j) →
                Image.getPixel image i j ≠ 0 →
                Image.inRange canvas (x + i ≫ e) (y + j ≫ e) = true →
                Image.getPixel drawn (x + i ≫ e) (y + j ≫ e)
                = Image.getPixel image i j).
Proof.
  intros e x y. split; [done|].
  intros Hne He image canvas Himage Hcanvas Hw Hh images'.
  change (ByRef.includeSprite minimap sprite spriteScale images)
    with (ByRef.renderScaledImage (Sprite.image sprite)
            (Minimap.image minimap) x y e images).
  rewrite (renderScaledImage_by_ref images _ _ image canvas) by done.
  rewrite bind_Ok. intros (drawn & Hdrawn & [= <-]).
  exists drawn. split; [done|]. intros i j Hi Hj Hdi Hdj Hvisible Hin.
  by apply (renderScaledImage_written image canvas).
Qed.

(** C8.  Overlaying a sprite whose image is all zeros changes nothing:
    whenever [includeSprite] returns, the minimap is the one it was given,
    pixels included; the call never faults, and it does return at every
    effective scale level from [0] to [30]. *)
Theorem includeSprite_blank_identity `{Host}
    (minimap : Minimap.t) (sprite : Sprite.t) (spriteScale : Z) :
  blank (Sprite.image sprite) →
  (∀ minimap', includeSprite minimap sprite spriteScale = Ok minimap' →
     minimap' = minimap ∧
     ∀ u v, Image.getPixel (Minimap.image minimap') u v
            = Image.getPixel (Minimap.image minimap) u v) ∧
  includeSprite minimap sprite spriteScale ≠ Fault ∧
  (shift_ok (Z.max (Minimap.scale minimap - spriteScale) 0) →
   includeSprite minimap sprite spriteScale = Ok minimap).
Proof.
  intros Hblank.
  destruct (renderScaledImage_blank (Sprite.image sprite)
    (Minimap.image minimap) (includeSprite_x minimap sprite spriteScale)
    (includeSprite_y minimap sprite spriteScale)
    (includeSprite_scale minimap spriteScale) Hblank) as (Hid & Hnf & Hok).
  split; [|split].
  - intros minimap' (image & Hr & ->)%includeSprite_Ok.
    apply Hid in Hr as ->. by destruct minimap.
  - rewrite includeSprite_unfold.
    destruct (renderScaledImage _ _ _ _ _); done.
  - intros He. rewrite includeSprite_unfold, Hok by done.
    by destruct minimap.
Qed.

(* ===================================================================== *)
(** ** MinimapBuilder *)
(* ===================================================================== *)

Section Builder.
Context `{Host}.

(** With a tile map the builder draws the cells, row by row, on the
    canvas. *)
Lemma getMinimapObject_cells st tilemap scale borderWidth borderColor :
  tileMap st = Some tilemap →
  getMinimapObject st scale borderWidth borderColor =
  minimap ← for_of (cells tilemap) (stamp_cell tilemap scale borderWidth)
               (canvas tilemap scale borderWidth borderColor);
  Ok {| Minimap.image := minimap; Minimap.scale := scale;
        Minimap.borderWidth := borderWidth;
        Minimap.borderColor := borderColor |}.
Proof.
  intros Htm. unfold getMinimapObject. rewrite Htm.
  fold (numRows tilemap) (numCols tilemap) (tileWidth tilemap).
  fold (minimap_width tilemap scale borderWidth).
  fold (minimap_height tilemap scale borderWidth).
  fold (canvas tilemap scale borderWidth borderColor).
  f_equal.
  rewrite for_loop_indices, loop_indices_1 by lia.
  unfold cells. rewrite for_of_bind.
  apply for_of_ext. intros r minimap _.
  rewrite for_loop_indices, loop_indices_1 by lia.
  rewrite for_of_bind.
  apply for_of_ext. intros c minimap' _.
  rewrite for_of_cons. symmetry. apply bind_ret_r.
Qed.

Lemma getMinimapObject_Ok st tilemap scale borderWidth borderColor minimap :
  tileMap st = Some tilemap →
  getMinimapObject st scale borderWidth borderColor = Ok minimap ↔
  for_of (cells tilemap) (stamp_cell tilemap scale borderWidth)
    (canvas tilemap scale borderWidth borderColor)
  = Ok (Minimap.image minimap) ∧
  Minimap.scale minimap = scale ∧
  Minimap.borderWidth minimap = borderWidth ∧
  Minimap.borderColor minimap = borderColor.
Proof.
  intros Htm. rewrite (getMinimapObject_cells st tilemap) by done.
  rewrite bind_Ok. split.
  - by intros (image & Hr & [= <-]).
  - intros (Hr & <- & <- & <-). exists (Minimap.image minimap).
    split; [done|]. by destruct minimap.
Qed.

Lemma elem_of_cells tilemap c r :
  (c, r) ∈ cells tilemap ↔ 0 ≤ c < numCols tilemap ∧ 0 ≤ r < numRows tilemap.
Proof.
  unfold cells. rewrite list_elem_of_bind.
  setoid_rewrite list_elem_of_bind.
  setoid_rewrite list_elem_of_singleton.
  setoid_rewrite elem_of_seqZ. split.
  - intros (r' & (c' & [= -> ->] & Hc) & Hr). lia.
  - intros [Hc Hr]. exists r. split; [|lia]. exists c. split; [done|lia].
Qed.

Lemma canvas_dims tilemap scale borderWidth borderColor :
  Image.width (canvas tilemap scale borderWidth borderColor)
  = minimap_width tilemap scale borderWidth ∧
  Image.height (canvas tilemap scale borderWidth borderColor)
  = minimap_height tilemap scale borderWidth.
Proof. unfold canvas. by destruct (0 <? borderWidth). Qed.

Lemma canvas_filled tilemap scale borderWidth borderColor u v :
  0 < borderWidth →
  Image.inRange (canvas tilemap scale borderWidth borderColor) u v = true →
  Image.getPixel (canvas tilemap scale borderWidth borderColor) u v
  = borderColor.
Proof.
  intros Hb Hin. unfold Image.getPixel. rewrite Hin.
  unfold canvas. destruct (Z.ltb_spec 0 borderWidth); [done|lia].
Qed.

(** Drawing the cells keeps the size of the image. *)
Lemma stamp_cells_dims tilemap scale borderWidth cs img r :
  for_of cs (stamp_cell tilemap scale borderWidth) img = Ok r →
  Image.width r = Image.width img ∧ Image.height r = Image.height img.
Proof.
  apply (for_of_inv (λ d, Image.width d = Image.width img ∧
                          Image.height d = Image.height img)); [|done].
  intros cell d d' _ [Hw Hh] Hr.
  apply renderScaledImage_dims in Hr as [Hw' Hh']. split; congruence.
Qed.

Lemma getMinimapObject_size st tilemap scale borderWidth borderColor minimap :
  tileMap st = Some tilemap →
  getMinimapObject st scale borderWidth borderColor = Ok minimap →
  Image.width (Minimap.image minimap) = minimap_width tilemap scale borderWidth ∧
  Image.height (Minimap.image minimap) = minimap_height tilemap scale borderWidth.
Proof.
  intros Htm [Hcells _]%(getMinimapObject_Ok st tilemap); [|done].
  apply stamp_cells_dims in Hcells as [-> ->]. apply canvas_dims.
Qed.

(** A position on which no cell draws a visible pixel keeps the colour
    it had on the canvas. *)
Lemma stamp_cells_untouched tilemap scale borderWidth img r u v :
  for_of (cells tilemap) (stamp_cell tilemap scale borderWidth) img = Ok r →
  ¬ drawn_over tilemap scale borderWidth u v →
  Image.getPixel r u v = Image.getPixel img u v.
Proof.
  intros Hr Hfree. revert Hr.
  apply (for_of_inv (λ d, Image.getPixel d u v = Image.getPixel img u v));
    [|done].
  intros [c r'] d d' [Hc Hr']%elem_of_cells Hd Hstamp.
  rewrite <- Hd. unfold stamp_cell in Hstamp. simpl in Hstamp.
  eapply renderScaledImage_untouched; [done|].
  intros i j Hij -> ->.
  destruct (decide (Image.getPixel (tile_at tilemap c r') i j = 0))
    as [|Hne]; [done|].
  exfalso. apply Hfree. by exists c, r', i, j.
Qed.

(** On a host that drops out-of-range writes the builder returns at
    every scale level within 32-bit shifts. *)
Lemma getMinimapObject_returns st scale borderWidth borderColor :
  strict_bounds = false → shift_ok scale →
  ∃ minimap, getMinimapObject st scale borderWidth borderColor = Ok minimap ∧
             Minimap.scale minimap = scale ∧
             Minimap.borderWidth minimap = borderWidth ∧
             Minimap.borderColor minimap = borderColor.
Proof.
  intros Hlenient Hs.
  assert (0 < JS.shl 1 scale) as Hstep
    by (rewrite shl_1 by done; apply (pow2_le_30 scale Hs)).
  destruct (tileMap st) as [tilemap|] eqn:Htm.
  - destruct (for_of_total (λ _, True) (cells tilemap)
                (stamp_cell tilemap scale borderWidth)
                (canvas tilemap scale borderWidth borderColor))
      as (image & Himage & _); [|done|].
    { intros [c r] d _ _. unfold stamp_cell.
      destruct (renderScaledImage_returns (tile_at tilemap c r) d
        (cell_offset tilemap scale borderWidth c)
        (cell_offset tilemap scale borderWidth r) scale) as [d' Hd'];
        [done|by rewrite Hlenient|].
      by exists d'. }
    exists {| Minimap.image := image; Minimap.scale := scale;
              Minimap.borderWidth := borderWidth;
              Minimap.borderColor := borderColor |}.
    split; [|done]. by apply (getMinimapObject_Ok st tilemap).
  - unfold getMinimapObject. rewrite Htm. eauto.
Qed.

(** Under [grid_ok] a pixel of a tile of the grid lands in the interior
    of the image: at or after the border, before the opposite border. *)
Lemma cell_pixel_interior tilemap scale b n k i :
  0 ≤ scale ≤ TileMap.scale tilemap → TileMap.scale tilemap ≤ 30 →
  n * tileWidth tilemap < 2 ^ 31 →
  0 ≤ k < n → 0 ≤ i < tileWidth tilemap →
  b ≤ cell_offset tilemap scale b k + JS.shr i scale
    < JS.shr (n * tileWidth tilemap) scale + b.
Proof.
  intros Hs Hts Hn Hk Hi. unfold cell_offset, tileWidth in *.
  rewrite shl_1 in * by (unfold shift_ok; lia).
  set (q := 2 ^ (TileMap.scale tilemap - scale)).
  assert (0 < q) as Hq by (apply Z.pow_pos_nonneg; lia).
  assert (0 < 2 ^ scale) as Hp by (apply Z.pow_pos_nonneg; lia).
  assert (2 ^ TileMap.scale tilemap = q * 2 ^ scale) as Htw.
  { unfold q. rewrite <- Z.pow_add_r by lia. f_equal. lia. }
  rewrite Htw in *.
  assert (q * 2 ^ scale < 2 ^ 31) as Hsmall.
  { assert (q * 2 ^ scale ≤ n * (q * 2 ^ scale)); [nia|lia]. }
  rewrite !shr_small by nia.
  replace (k * (q * 2 ^ scale)) with ((k * q) * 2 ^ scale) by lia.
  replace (n * (q * 2 ^ scale)) with ((n * q) * 2 ^ scale) by lia.
  rewrite !shiftr_multiple by lia.
  rewrite Z.shiftr_div_pow2 by lia.
  assert (0 ≤ i `div` 2 ^ scale) by (apply Z.div_pos; lia).
  assert (i `div` 2 ^ scale < q) by (apply Z.div_lt_upper_bound; lia).
  nia.
Qed.

Lemma drawn_over_interior tilemap scale b u v :
  grid_ok tilemap scale → tiles_fit tilemap →
  drawn_over tilemap scale b u v →
  b ≤ u < minimap_width tilemap scale b - b ∧
  b ≤ v < minimap_height tilemap scale b - b.
Proof.
  intros (Hs & Hts & Hcols & Hrows) Hfit
    (c & r & i & j & Hc & Hr & (Hi & Hj & _) & _ & -> & ->).
  destruct (Hfit (TileMap.getTileIndex tilemap c r)) as [Hw Hh].
  fold (tile_at tilemap c r) in Hw, Hh.
  unfold minimap_width, minimap_height. split.
  - pose proof (cell_pixel_interior tilemap scale b (numCols tilemap) c i).
    lia.
  - pose proof (cell_pixel_interior tilemap scale b (numRows tilemap) r j).
    lia.
Qed.

(** The bounds contract of the renderer holds by the builder's
    arithmetic: under [grid_ok], with tiles that fit and a border that is
    not negative, no write leaves the image, so the builder returns on
    every host. *)
Lemma getMinimapObject_in_bounds st tilemap scale borderWidth borderColor :
  tileMap st = Some tilemap →
  grid_ok tilemap scale → tiles_fit tilemap → 0 ≤ borderWidth →
  ∃ minimap, getMinimapObject st scale borderWidth borderColor = Ok minimap.
Proof.
  intros Htm Hgrid Hfit Hb.
  assert (0 < JS.shl 1 scale) as Hstep.
  { destruct Hgrid as (Hs & Hts & _).
    rewrite shl_1 by (unfold shift_ok; lia). apply Z.pow_pos_nonneg; lia. }
  pose (W := minimap_width tilemap scale borderWidth).
  pose (Ht := minimap_height tilemap scale borderWidth).
  destruct (for_of_total
    (λ d, Image.width d = W ∧ Image.height d = Ht) (cells tilemap)
    (stamp_cell tilemap scale borderWidth)
    (canvas tilemap scale borderWidth borderColor))
    as (image & Himage & _); [|apply canvas_dims|].
  - intros [c r] d [Hc Hr]%elem_of_cells [Hw Hh]. unfold stamp_cell. simpl.
    destruct (renderScaledImage_returns (tile_at tilemap c r) d
      (cell_offset tilemap scale borderWidth c)
      (cell_offset tilemap scale borderWidth r) scale) as [d' Hd'];
      [done| |].
    + intros _ i j Hij Hne.
      destruct (drawn_over_interior tilemap scale borderWidth
        (cell_offset tilemap scale borderWidth c + JS.shr i scale)
        (cell_offset tilemap scale borderWidth r + JS.shr j scale))
        as [Hu Hv]; [done|done|by exists c, r, i, j|].
      unfold Image.inRange. rewrite Hw, Hh. subst W Ht.
      repeat (apply andb_true_intro; split);
        (apply Z.leb_le || apply Z.ltb_lt); lia.
    + exists d'. split; [done|].
      apply renderScaledImage_dims in Hd' as [-> ->]. done.
  - exists {| Minimap.image := image; Minimap.scale := scale;
              Minimap.borderWidth := borderWidth;
              Minimap.borderColor := borderColor |}.
    by apply (getMinimapObject_Ok st tilemap).
Qed.

(** Then no tile reaches the margin: the whole border strip is
    [borderColor]. *)
Lemma getMinimapObject_margin_intact st tilemap scale b borderColor minimap u v :
  tileMap st = Some tilemap → grid_ok tilemap scale → tiles_fit tilemap →
  0 < b → getMinimapObject st scale b borderColor = Ok minimap →
  Image.inRange (Minimap.image minimap) u v = true →
  in_margin (Minimap.image minimap) b u v →
  Image.getPixel (Minimap.image minimap) u v = borderColor.
Proof.
  intros Htm Hgrid Hfit Hb [Hcells _]%(getMinimapObject_Ok st tilemap) Hin Hmargin;
    [|done].
  pose proof (stamp_cells_dims _ _ _ _ _ _ Hcells) as [Hw Hh].
  destruct (canvas_dims tilemap scale b borderColor) as [Hcw Hch].
  rewrite (stamp_cells_untouched tilemap scale b _ _ u v Hcells).
  - apply canvas_filled; [done|].
    by rewrite <- (inRange_dims _ (Minimap.image minimap)).
  - intros [Hu Hv]%drawn_over_interior; [|done..].
    unfold in_margin in Hmargin. rewrite Hw, Hh, Hcw, Hch in Hmargin. lia.
Qed.

End Builder.

(* ===================================================================== *)
(** ** C7, C3 and C4 *)
(* ===================================================================== *)

(** C7.  Without a tile map [getMinimapObject] does not fail: it returns
    an instance whose image is a blank 1×1 image and whose [scale],
    [borderWidth] and [borderColor] are the requested ones, whatever they
    are. *)
Theorem getMinimapObject_without_tilemap `{Host}
    (st : State) (scale borderWidth borderColor : Z) :
  tileMap st = None →
  ∃ minimap,
    getMinimapObject st scale borderWidth borderColor = Ok minimap ∧
    Minimap.image minimap = Image.create 1 1 ∧
    Image.width (Minimap.image minimap) = 1 ∧
    Image.height (Minimap.image minimap) = 1 ∧
    blank (Minimap.image minimap) ∧
    Minimap.scale minimap = scale ∧
    Minimap.borderWidth minimap = borderWidth ∧
    Minimap.borderColor minimap = borderColor.
Proof.
  intros Htm. unfold getMinimapObject. rewrite Htm.
  eexists. split; [done|]. simpl. repeat split; try done.
  intros i j. unfold Image.getPixel. simpl.
  by destruct (Image.inRange (Image.create 1 1) i j).
Qed.

(** C3.  With a tile map, the image of every instance that
    [getMinimapObject] returns is [(numCols * tileWidth >> s) + 2 * b]
    wide and [(numRows * tileWidth >> s) + 2 * b] high, for every scale
    level [s] and border width [b], where [tileWidth] is [1 << scale] of
    the tile map, that is [2^scale] for every tile scale that is a 32-bit
    shift count, and [numCols], [numRows] are the grid's dimensions in
    tiles; [>>] is the exact shift when the level is within 32-bit shifts
    and the product is a 32-bit integer.  An instance is returned at every
    such level on a host that drops out-of-range writes, and on every host
    when the tiles fit their cells and the level does not exceed the tile
    scale, for then no write leaves the image. *)
Theorem getMinimapObject_dimensions `{Host}
    (st : State) (tilemap : TileMap.t) (s b borderColor : Z) :
  tileMap st = Some tilemap →
  (0 ≤ TileMap.scale tilemap ≤ 30 →
   tileWidth tilemap = 2 ^ TileMap.scale tilemap) ∧
  (∀ minimap, getMinimapObject st s b borderColor = Ok minimap →
     Image.width (Minimap.image minimap)
     = JS.shr (numCols tilemap * tileWidth tilemap) s + 2 * b ∧
     Image.height (Minimap.image minimap)
     = JS.shr (numRows tilemap * tileWidth tilemap) s + 2 * b ∧
     (shift_ok s → 0 ≤ numCols tilemap * tileWidth tilemap < 2 ^ 31 →
      Image.width (Minimap.image minimap)
      = (numCols tilemap * tileWidth tilemap) ≫ s + 2 * b) ∧
     (shift_ok s → 0 ≤ numRows tilemap * tileWidth tilemap < 2 ^ 31 →
      Image.height (Minimap.image minimap)
      = (numRows tilemap * tileWidth tilemap) ≫ s + 2 * b)) ∧
  (strict_bounds = false → shift_ok s →
   ∃ minimap, getMinimapObject st s b borderColor = Ok minimap) ∧
  (grid_ok tilemap s → tiles_fit tilemap → 0 ≤ b →
   ∃ minimap, getMinimapObject st s b borderColor = Ok minimap).
Proof.
  intros Htm. split; [|split; [|split]].
  - intros Hts. by apply shl_1.
  - intros minimap [Hw Hh]%(getMinimapObject_size st tilemap); [|done].
    rewrite Hw, Hh. unfold minimap_width, minimap_height.
    split; [lia|]. split; [lia|].
    split; intros Hs Hsmall; rewrite shr_small; unfold shift_ok in Hs; lia.
  - intros Hlenient Hs.
    destruct (getMinimapObject_returns st s b borderColor) as (mm & Hmm & _);
      [done|done|by exists mm].
  - intros Hgrid Hfit Hb. by apply (getMinimapObject_in_bounds st tilemap).
Qed.

(** C4.  With a tile map and a border width [b > 0], the image of the
    returned instance is what drawing the cells [(c, r)], row by row, at
    offset [((c * tileWidth >> scale) + b, (r * tileWidth >> scale) + b)]
    makes of an image filled with [borderColor]; so every pixel of the
    outer [b]-pixel margin on which no tile has drawn a visible pixel is
    [borderColor]. *)
Theorem getMinimapObject_border `{Host}
    (st : State) (tilemap : TileMap.t) (scale b borderColor : Z)
    (minimap : Minimap.t) :
  tileMap st = Some tilemap → 0 < b →
  getMinimapObject st scale b borderColor = Ok minimap →
  for_of (cells tilemap)
    (λ cell image,
       renderScaledImage (tile_at tilemap cell.1 cell.2) image
         (JS.shr (cell.1 * tileWidth tilemap) scale + b)
         (JS.shr (cell.2 * tileWidth tilemap) scale + b) scale)
    (Image.fill (Image.create
                   (JS.shr (numCols tilemap * tileWidth tilemap) scale + b * 2)
                   (JS.shr (numRows tilemap * tileWidth tilemap) scale + b * 2))
                borderColor)
  = Ok (Minimap.image minimap) ∧
  ∀ u v,
    Image.inRange (Minimap.image minimap) u v = true →
    in_margin (Minimap.image minimap) b u v →
    ¬ (∃ c r i j,
         0 ≤ c < numCols tilemap ∧ 0 ≤ r < numRows tilemap ∧
         visited (tile_at tilemap c r) scale i j ∧
         Image.getPixel (tile_at tilemap c r) i j ≠ 0 ∧
         u = JS.shr (c * tileWidth tilemap) scale + b + JS.shr i scale ∧
         v = JS.shr (r * tileWidth tilemap) scale + b + JS.shr j scale) →
    Image.getPixel (Minimap.image minimap) u v = borderColor.
Proof.
  intros Htm Hb [Hcells _]%(getMinimapObject_Ok st tilemap); [|done].
  split.
  - rewrite <- Hcells. unfold canvas.
    destruct (Z.ltb_spec 0 b); [done|lia].
  - intros u v Hin _ Hfree.
    rewrite (stamp_cells_untouched tilemap scale b _ _ u v Hcells) by done.
    apply canvas_filled; [done|].
    apply stamp_cells_dims in Hcells as [Hw Hh].
    by rewrite <- (inRange_dims _ (Minimap.image minimap)).
Qed.

(* ===================================================================== *)
(** ** UpdateTracker *)
(* ===================================================================== *)

Section Tracker.
Context `{Host}.

Lemma includeSprite_set_data minimap sprite d spriteScale :
  includeSprite minimap (Sprite.set_data sprite d) spriteScale
  = includeSprite minimap sprite spriteScale.
Proof. done. Qed.

(** [alive] only looks at the reference of the entry. *)
Lemma alive_sprite st u w :
  IUpdateSprite.sprite u = IUpdateSprite.sprite w → alive st u → alive st w.
Proof. unfold alive. by intros ->. Qed.

Lemma alive_Some st u :
  alive st u → ∃ sprite, sprite_at st (IUpdateSprite.sprite u) = Some sprite.
Proof.
  unfold alive. destruct (sprite_at st (IUpdateSprite.sprite u)); [eauto|done].
Qed.

Section During.
Variables (st : State) (r : ref) (display : Sprite.t).
Hypothesis Hr : minimapSprite st = Some r.
Hypothesis Hdisplay : heap st !! r = Some display.

(** Storing a minimap in the display changes neither which sprites are
    destroyed nor what an overlay draws. *)
Lemma during_isDestroyed minimap cur q :
  isDestroyed (sprite_at (during st r display minimap cur) q)
  = isDestroyed (sprite_at st q).
Proof.
  destruct q as [l|]; [|done]. simpl.
  destruct (decide (l = r)) as [->|Hne].
  - by rewrite lookup_insert_eq, Hdisplay.
  - by rewrite lookup_insert_ne.
Qed.

Lemma during_overlay minimap cur u minimap' :
  overlay (during st r display minimap cur) u minimap'
  = overlay st u minimap'.
Proof.
  unfold overlay. destruct (IUpdateSprite.sprite u) as [l|]; [|done].
  simpl. destruct (decide (l = r)) as [->|Hne].
  - by rewrite lookup_insert_eq, Hdisplay.
  - by rewrite lookup_insert_ne.
Qed.

Lemma during_sprite_at minimap cur q sprite :
  sprite_at st q = Some sprite →
  ∃ d, sprite_at (during st r display minimap cur) q
       = Some (Sprite.set_data sprite d).
Proof.
  destruct q as [l|]; [|done]. simpl. intros Hl.
  destruct (decide (l = r)) as [->|Hne].
  - rewrite lookup_insert_eq. exists (Some minimap). congruence.
  - rewrite lookup_insert_ne by done. exists (Sprite.data sprite).
    rewrite Hl. by destruct sprite.
Qed.

Lemma during_during minimap cur minimap' :
  set_heap (during st r display minimap cur)
    (<[r := Sprite.set_data (Sprite.set_data display (Some minimap))
                            (Some minimap')]>
       (heap (during st r display minimap cur)))
  = during st r display minimap' cur.
Proof. unfold during, set_heap. simpl. by rewrite insert_insert_eq. Qed.

(** One entry of the snapshot: a live sprite is overlaid on the
    display's minimap, a destroyed one is taken off the list. *)
Lemma refreshEntry_during u minimap cur :
  refreshEntry u (during st r display minimap cur) =
  if decide (alive st u) then
    minimap' ← overlay st u minimap;
    Ok (during st r display minimap' cur)
  else
    Ok (during st r display minimap
          (filter (λ w, IUpdateSprite.sprite w ≠ IUpdateSprite.sprite u) cur)).
Proof.
  unfold refreshEntry. rewrite during_isDestroyed.
  destruct (decide (alive st u)) as [Ha|Ha].
  - destruct (alive_Some st u Ha) as [sprite Hsprite].
    destruct (during_sprite_at minimap cur _ _ Hsprite) as [d Hd].
    unfold alive in Ha. rewrite Ha, Hd. unfold overlay. rewrite Hsprite.
    change (minimapSprite (during st r display minimap cur))
      with (minimapSprite st).
    rewrite Hr. simpl. rewrite lookup_insert_eq. simpl.
    rewrite includeSprite_set_data.
    apply bind_ext. intros minimap'. f_equal.
    apply (during_during minimap cur minimap').
  - unfold alive in Ha. apply not_false_is_true in Ha. by rewrite Ha.
Qed.

(** The whole snapshot: the live entries are overlaid in order, and
    the entries of every destroyed sprite met are gone. *)
Lemma for_of_refreshEntry l : ∀ minimap cur,
  for_of l refreshEntry (during st r display minimap cur) =
  minimap' ← for_of (filter (alive st) l) (overlay st) minimap;
  Ok (during st r display minimap'
        (filter (λ w, IUpdateSprite.sprite w ∉ dead_refs st l) cur)).
Proof.
  induction l as [|u l IH]; intros minimap cur.
  - simpl. do 2 f_equal. symmetry. apply filter_all.
    intros w _. apply not_elem_of_nil.
  - rewrite for_of_cons, refreshEntry_during. unfold dead_refs.
    destruct (decide (alive st u)) as [Ha|Ha].
    + rewrite (filter_cons_True (alive st)) by done.
      rewrite (filter_cons_False (λ u, ¬ alive st u)) by tauto.
      rewrite for_of_cons.
      destruct (overlay st u minimap) as [minimap'| |]; [|done..].
      apply IH.
    + rewrite (filter_cons_False (alive st)) by done.
      rewrite (filter_cons_True (λ u, ¬ alive st u)) by done.
      simpl. rewrite IH. apply bind_ext. intros minimap'.
      do 2 f_equal. rewrite list_filter_filter.
      apply list_filter_iff. intros w.
      unfold dead_refs. rewrite not_elem_of_cons. tauto.
Qed.

(** Every entry of the snapshot is visited, so exactly the live
    entries stay. *)
Lemma pruned_snapshot l :
  filter (λ w, IUpdateSprite.sprite w ∉ dead_refs st l) l
  = filter (alive st) l.
Proof.
  apply filter_ext_in. intros w Hw. unfold dead_refs.
  rewrite list_elem_of_fmap. setoid_rewrite list_elem_of_filter. split.
  - intros Hnot. destruct (decide (alive st w)) as [|Hdead]; [done|].
    exfalso. apply Hnot. by exists w.
  - intros Ha (u & Heq & Hdead & _). apply Hdead.
    by apply (alive_sprite st w u).
Qed.

End During.

(** The refresh handler, as a function of the state it finds. *)
Lemma refreshTick_refreshed st r display oldMM :
  minimapSprite st = Some r → heap st !! r = Some display →
  Sprite.data display = Some oldMM →
  refreshTick st =
  newMM ← getMinimapObject st (Minimap.scale oldMM)
             (Minimap.borderWidth oldMM) (Minimap.borderColor oldMM);
  finalMM ← for_of (filter (alive st) (spritesToUpdate st)) (overlay st) newMM;
  Ok (refreshed st r display finalMM).
Proof.
  intros Hr Hdisplay Hdata. unfold refreshTick.
  rewrite Hr. simpl. rewrite Hdisplay. simpl. rewrite Hdata. simpl.
  apply bind_ext. intros newMM.
  change (set_heap st (<[r:=Sprite.set_data display (Some newMM)]> (heap st)))
    with (during st r display newMM (spritesToUpdate st)).
  change (spritesToUpdate (during st r display newMM (spritesToUpdate st)))
    with (spritesToUpdate st).
  rewrite (for_of_refreshEntry st r display Hr Hdisplay).
  rewrite (pruned_snapshot st).
  destruct (for_of (filter (alive st) (spritesToUpdate st)) (overlay st) newMM)
    as [finalMM| |]; [|done..].
  simpl. rewrite lookup_insert_eq. simpl.
  unfold refreshed, during, set_heap. simpl. by rewrite insert_insert_eq.
Qed.

(** Without a display, or a display without a minimap, the handler
    throws at its first statement. *)
Lemma refreshTick_Fault st :
  minimapSprite st = None ∨
  (∃ r display, minimapSprite st = Some r ∧ heap st !! r = Some display ∧
                Sprite.data display = None) →
  refreshTick st = Fault.
Proof.
  unfold refreshTick. intros [Hnone|(r & display & Hr & Hd & Hdata)].
  - by rewrite Hnone.
  - rewrite Hr. simpl. rewrite Hd. simpl. by rewrite Hdata.
Qed.

Lemma refreshTick_Ok st st' :
  refreshTick st = Ok st' →
  ∃ r display oldMM newMM finalMM,
    minimapSprite st = Some r ∧ heap st !! r = Some display ∧
    Sprite.data display = Some oldMM ∧
    getMinimapObject st (Minimap.scale oldMM) (Minimap.borderWidth oldMM)
      (Minimap.borderColor oldMM) = Ok newMM ∧
    for_of (filter (alive st) (spritesToUpdate st)) (overlay st) newMM
    = Ok finalMM ∧
    st' = refreshed st r display finalMM.
Proof.
  intros Htick.
  destruct (minimapSprite st) as [r|] eqn:Hr;
    [|by rewrite refreshTick_Fault in Htick by auto].
  destruct (heap st !! r) as [display|] eqn:Hd;
    [|unfold refreshTick in Htick; rewrite Hr in Htick; simpl in Htick;
      by rewrite Hd in Htick].
  destruct (Sprite.data display) as [oldMM|] eqn:Hdata;
    [|rewrite refreshTick_Fault in Htick by eauto 10; done].
  rewrite (refreshTick_refreshed st r display oldMM) in Htick by done.
  apply bind_Ok in Htick as (newMM & Hnew & Htick).
  apply bind_Ok in Htick as (finalMM & Hfinal & [= <-]).
  by exists r, display, oldMM, newMM, finalMM.
Qed.

(** The refresh does not change which sprites are destroyed. *)
Lemma refreshed_alive st r display finalMM u :
  heap st !! r = Some display →
  alive (refreshed st r display finalMM) u ↔ alive st u.
Proof.
  intros Hd. unfold alive.
  destruct (IUpdateSprite.sprite u) as [l|]; [|done]. simpl.
  destruct (decide (l = r)) as [->|Hne].
  - by rewrite lookup_insert_eq, Hd.
  - by rewrite lookup_insert_ne.
Qed.

End Tracker.

Section TrackerReturns.
Context `{Host}.

Lemma includeSprite_returns minimap sprite spriteScale :
  strict_bounds = false →
  shift_ok (includeSprite_scale minimap spriteScale) →
  ∃ minimap', includeSprite minimap sprite spriteScale = Ok minimap'.
Proof.
  intros Hlenient Hs.
  assert (0 < JS.shl 1 (includeSprite_scale minimap spriteScale)) as Hstep
    by (rewrite shl_1 by done; apply (pow2_le_30 _ Hs)).
  destruct (renderScaledImage_returns (Sprite.image sprite)
    (Minimap.image minimap) (includeSprite_x minimap sprite spriteScale)
    (includeSprite_y minimap sprite spriteScale)
    (includeSprite_scale minimap spriteScale)) as [image Himage];
    [done|by rewrite Hlenient|].
  rewrite includeSprite_unfold, Himage. eauto.
Qed.

Lemma overlays_return st l minimap :
  strict_bounds = false → shift_ok (Minimap.scale minimap) →
  Forall (λ u, 0 ≤ IUpdateSprite.scale u) l →
  ∃ minimap', for_of (filter (alive st) l) (overlay st) minimap = Ok minimap'.
Proof.
  intros Hlenient Hs Hl.
  destruct (for_of_total
    (λ minimap', Minimap.scale minimap' = Minimap.scale minimap)
    (filter (alive st) l) (overlay st) minimap) as (minimap' & Hr & _);
    [|done|by exists minimap'].
  intros u mm [Ha Hu]%list_elem_of_filter Hmm.
  destruct (alive_Some st u Ha) as [sprite Hsprite].
  unfold overlay. rewrite Hsprite. simpl.
  destruct (includeSprite_returns mm sprite (IUpdateSprite.scale u))
    as [mm' Hmm']; [done| |].
  - apply includeSprite_scale_range; [|by rewrite Hmm].
    rewrite Forall_forall in Hl. by apply Hl.
  - exists mm'. split; [done|].
    apply includeSprite_params in Hmm' as (-> & _). done.
Qed.

(** On a host that drops out-of-range writes, a refresh of an existing
    display at a scale level within 32-bit shifts returns. *)
Lemma refreshTick_returns st r display oldMM :
  strict_bounds = false →
  minimapSprite st = Some r → heap st !! r = Some display →
  Sprite.data display = Some oldMM → shift_ok (Minimap.scale oldMM) →
  Forall (λ u, 0 ≤ IUpdateSprite.scale u) (spritesToUpdate st) →
  ∃ st', refreshTick st = Ok st'.
Proof.
  intros Hlenient Hr Hd Hdata Hs Hl.
  rewrite (refreshTick_refreshed st r display oldMM) by done.
  destruct (getMinimapObject_returns st (Minimap.scale oldMM)
    (Minimap.borderWidth oldMM) (Minimap.borderColor oldMM))
    as (newMM & -> & Hscale & _); [done..|].
  destruct (overlays_return st (spritesToUpdate st) newMM)
    as [finalMM HfinalMM]; [done|by rewrite Hscale|done..|].
  simpl. rewrite HfinalMM. simpl. eauto.
Qed.

Lemma getMinimapObject_params st scale borderWidth borderColor minimap :
  getMinimapObject st scale borderWidth borderColor = Ok minimap →
  Minimap.scale minimap = scale ∧
  Minimap.borderWidth minimap = borderWidth ∧
  Minimap.borderColor minimap = borderColor.
Proof.
  destruct (tileMap st) as [tilemap|] eqn:Htm.
  - by intros (_ & ? & ? & ?)%(getMinimapObject_Ok st tilemap).
  - unfold getMinimapObject. rewrite Htm. by intros [= <-].
Qed.

Lemma createMinimapSprite_Ok st scale borderWidth borderColor st' r :
  createMinimapSprite st scale borderWidth borderColor = Ok (st', r) →
  ∃ minimap,
    getMinimapObject st scale borderWidth borderColor = Ok minimap ∧
    r = fresh (dom (heap st)) ∧
    st' = set_minimapSprite
            (set_heap st
               (<[r := Sprite.set_data (Sprite.create (Minimap.image minimap))
                                       (Some minimap)]> (heap st)))
            (Some r).
Proof.
  unfold createMinimapSprite. rewrite bind_Ok.
  intros (minimap & Hmm & [= <- <-]). by exists minimap.
Qed.

(** Only [createMinimapSprite] assigns [minimapSprite]. *)
Lemma step_minimapSprite st e st' :
  is_create e = false → step st e = Ok st' →
  minimapSprite st' = minimapSprite st.
Proof.
  destruct e as [s b c|sprite p|sprite|interval|sprite|k]; simpl;
    intros Hnc Hstep; try done; try by injection Hstep as <-.
  - injection Hstep as <-. unfold destroy.
    by destruct (heap st !! sprite).
  - destruct (handlers st !! k); [|by injection Hstep as <-].
    by apply refreshTick_Ok in Hstep as (? & ? & ? & ? & ? & _ & _ & _ & _ & _ & ->).
Qed.

Lemma run_minimapSprite es : ∀ st st',
  Forall (λ e, is_create e = false) es → run st es = Ok st' →
  minimapSprite st' = minimapSprite st.
Proof.
  induction es as [|e es IH]; intros st st' Hes; simpl.
  - by intros [= <-].
  - inv Hes. rewrite bind_Ok. intros (st1 & Hstep & Hrun).
    rewrite (IH st1 st') by done. by apply (step_minimapSprite st e).
Qed.

Lemma run_app es es' st :
  run st (es ++ es') = st1 ← run st es; run st1 es'.
Proof.
  revert st. induction es as [|e es IH]; intros st; simpl; [done|].
  destruct (step st e); simpl; auto.
Qed.

Lemma run_singleton st e : run st [e] = step st e.
Proof. simpl. apply bind_ret_r. Qed.

End TrackerReturns.

(* ===================================================================== *)
(** ** C9, C2 and C10 *)
(* ===================================================================== *)

(** C9.  [removeSpriteFromUpdateList(S)] takes out exactly the entries
    whose sprite reference is [S] and leaves the others as they were, in
    their order: an entry is tracked afterwards if and only if it was
    tracked and its reference differs from [S]; the list afterwards is a
    sublist of the list before, shorter by the number of entries for
    [S]; nothing else in the state changes; when no entry refers to [S]
    the call changes nothing at all; and an entry for another sprite
    stays even when that sprite is equal to [S] field by field. *)
Theorem removeSpriteFromUpdateList_exact (st : State) (S : option ref) :
  let st' := removeSpriteFromUpdateList st S in
  (∀ u, u ∈ spritesToUpdate st' ↔
        u ∈ spritesToUpdate st ∧ IUpdateSprite.sprite u ≠ S) ∧
  spritesToUpdate st' `sublist_of` spritesToUpdate st ∧
  (length (spritesToUpdate st)
   = length (spritesToUpdate st')
     + length (filter (λ u, IUpdateSprite.sprite u = S) (spritesToUpdate st)))%nat ∧
  (∀ l1 l2,
     spritesToUpdate st = l1 ++ l2 →
     spritesToUpdate st'
     = filter (λ u, IUpdateSprite.sprite u ≠ S) l1
       ++ filter (λ u, IUpdateSprite.sprite u ≠ S) l2) ∧
  tileMap st' = tileMap st ∧ heap st' = heap st ∧
  minimapSprite st' = minimapSprite st ∧ handlers st' = handlers st ∧
  ((∀ u, u ∈ spritesToUpdate st → IUpdateSprite.sprite u ≠ S) → st' = st) ∧
  removeSpriteFromUpdateList st' S = st' ∧
  (∀ u l l',
     S = Some l → IUpdateSprite.sprite u = Some l' → l' ≠ l →
     heap st !! l' = heap st !! l →
     u ∈ spritesToUpdate st → u ∈ spritesToUpdate st').
Proof.
  intros st'. subst st'. unfold removeSpriteFromUpdateList. simpl.
  split; [|split; [|split; [|split]]].
  - intros u. rewrite list_elem_of_filter. tauto.
  - apply sublist_filter.
  - induction (spritesToUpdate st) as [|u l IH]; [done|].
    rewrite !filter_cons.
    destruct (decide (IUpdateSprite.sprite u ≠ S)) as [Hne|Heq],
             (decide (IUpdateSprite.sprite u = S)) as [Heq'|Hne'];
      simpl; try lia; [done|].
    exfalso. by apply Heq.
  - intros l1 l2 ->. apply filter_app.
  - repeat split; try done.
    + intros Hall. rewrite filter_all by done. by destruct st.
    + unfold set_spritesToUpdate. simpl. f_equal.
      apply list_filter_filter_l. done.
    + intros u l l' -> Hu Hne _ Hin. apply list_elem_of_filter.
      split; [|done]. rewrite Hu. congruence.
Qed.

(** C2.  A run of the refresh handler that completes has found a display
    [r] with a minimap [oldMM], rebuilt the minimap with the parameters of
    [oldMM], and visited every entry of the tracked list as it was when the
    run began.  Its output is the rebuilt minimap with the entries whose
    sprite is not destroyed overlaid in order, and no other entry; the
    tracked list afterwards consists of those same entries: every visited
    entry whose sprite is destroyed ([null] or flagged) is gone, every
    other visited entry is still there, and no entry of the list refers to
    a destroyed sprite. *)
Theorem refreshTick_prunes_destroyed `{Host} (st st' : State) :
  refreshTick st = Ok st' →
  ∃ r display oldMM newMM finalMM,
    minimapSprite st = Some r ∧ heap st !! r = Some display ∧
    Sprite.data display = Some oldMM ∧
    getMinimapObject st (Minimap.scale oldMM) (Minimap.borderWidth oldMM)
      (Minimap.borderColor oldMM) = Ok newMM ∧
    for_of (filter (λ u, isDestroyed (sprite_at st (IUpdateSprite.sprite u))
                         = false) (spritesToUpdate st))
      (λ u minimap,
         sprite ← deref (sprite_at st (IUpdateSprite.sprite u));
         includeSprite minimap sprite (IUpdateSprite.scale u)) newMM
    = Ok finalMM ∧
    (∃ shown, heap st' !! r = Some shown ∧
              Sprite.image shown = Minimap.image finalMM ∧
              Sprite.data shown = Some finalMM) ∧
    spritesToUpdate st'
    = filter (λ u, isDestroyed (sprite_at st (IUpdateSprite.sprite u)) = false)
        (spritesToUpdate st) ∧
    (∀ u, u ∈ spritesToUpdate st →
          isDestroyed (sprite_at st (IUpdateSprite.sprite u)) = true →
          u ∉ spritesToUpdate st') ∧
    (∀ u, u ∈ spritesToUpdate st →
          isDestroyed (sprite_at st (IUpdateSprite.sprite u)) = false →
          u ∈ spritesToUpdate st') ∧
    Forall (λ u, isDestroyed (sprite_at st' (IUpdateSprite.sprite u)) = false)
      (spritesToUpdate st').
Proof.
  intros (r & display & oldMM & newMM & finalMM
          & Hr & Hd & Hdata & Hnew & Hfinal & ->)%refreshTick_Ok.
  exists r, display, oldMM, newMM, finalMM.
  do 5 (split; [done|]). split; [|split; [done|split; [|split]]].
  - eexists. split; [apply lookup_insert_eq|done].
  - intros u _ Hdead. simpl. rewrite list_elem_of_filter.
    unfold alive. intros [Ha _]. congruence.
  - intros u Hu Ha. simpl. by apply list_elem_of_filter.
  - apply Forall_forall. intros u [Ha _]%list_elem_of_filter.
    by apply (refreshed_alive st r display finalMM u Hd).
Qed.

(** C10.  The refresh handler reads [minimapSprite.data] unguarded:
    - in a state without a display it throws, whatever else the state
      holds;
    - so it completes only in a state where [minimapSprite] is a sprite
      carrying a minimap;
    - from the uninitialized state, after any events among which there is
      no [createMinimapSprite], a refresh handler that fires throws;
    - [createMinimapSprite] establishes the precondition: right after it
      the handler gets past the dereference and rebuilds the minimap with
      the parameters the display was created with. *)
Theorem refreshTick_needs_display `{Host} :
  (∀ st, minimapSprite st = None → refreshTick st = Fault) ∧
  (∀ st st', refreshTick st = Ok st' →
     ∃ r display minimap,
       minimapSprite st = Some r ∧ heap st !! r = Some display ∧
       Sprite.data display = Some minimap) ∧
  (∀ tilemap h es k interval st,
     Forall (λ e, is_create e = false) es →
     run (Uninitialized tilemap h) es = Ok st →
     handlers st !! k = Some interval →
     step st (Fire k) = Fault ∧
     run (Uninitialized tilemap h) (es ++ [Fire k]) = Fault) ∧
  (∀ st scale borderWidth borderColor st' r,
     createMinimapSprite st scale borderWidth borderColor = Ok (st', r) →
     ∃ display minimap,
       minimapSprite st' = Some r ∧ heap st' !! r = Some display ∧
       Sprite.data display = Some minimap ∧
       refreshTick st' =
         (newMM ← getMinimapObject st' scale borderWidth borderColor;
          finalMM ← for_of (filter (alive st') (spritesToUpdate st'))
                      (overlay st') newMM;
          Ok (refreshed st' r display finalMM))).
Proof.
  split; [|split; [|split]].
  - intros st Hnone. apply refreshTick_Fault. by left.
  - intros st st' (r & display & oldMM & _ & _ & Hr & Hd & Hdata & _)%refreshTick_Ok.
    by exists r, display, oldMM.
  - intros tilemap h es k interval st Hes Hrun Hk.
    assert (step st (Fire k) = Fault) as Hstep.
    { simpl. rewrite Hk. apply refreshTick_Fault. left.
      by rewrite (run_minimapSprite es (Uninitialized tilemap h) st). }
    split; [done|]. rewrite run_app, Hrun.
    change (run st [Fire k] = Fault). by rewrite run_singleton.
  - intros st scale borderWidth borderColor st' r
      (minimap & Hmm & -> & ->)%createMinimapSprite_Ok.
    eexists _, minimap. split; [done|]. split; [apply lookup_insert_eq|].
    split; [done|].
    erewrite refreshTick_refreshed;
      [|done|apply lookup_insert_eq|done].
    by apply getMinimapObject_params in Hmm as (-> & -> & ->).
Qed.

(* ===================================================================== *)
(** ** The theorems at work on the small world *)
(* ===================================================================== *)

(** Rendering the 4×2 image at level 1 from origin [(1, 1)] samples
    [(0, 0)] and [(2, 0)]: the visible one lands on [(2, 1)], the
    transparent one leaves [(1, 1)] as it was. *)
Lemma renderScaledImage_samples_multiples_witness :
  ∃ images' r,
    @ByRef.renderScaledImage lenient_host 1 2 1 1 1 demo_images = Ok images' ∧
    images' !! 2%positive = Some r ∧
    images' !! 1%positive = Some demo_source ∧
    Image.getPixel r 2 1 = 2 ∧ Image.getPixel r 1 1 = 9.
Proof.
  destruct (@renderScaledImage_samples_multiples lenient_host
              demo_images 1 2 demo_source demo_destination 1 1 1
              ltac:(discriminate) eq_refl eq_refl
              ltac:(lia) ltac:(simpl; lia) ltac:(simpl; lia))
    as (_ & _ & Hreturns & Hr).
  destruct Hreturns as [images' Hrender]; [discriminate|].
  destruct (Hr images' Hrender) as (r & Himages & _ & _ & Hwritten & Huntouched & _).
  exists images', r. split; [exact Hrender|].
  split; [rewrite Himages; apply lookup_insert_eq|].
  split; [rewrite Himages; reflexivity|]. split.
  - apply (Hwritten 2 0); [simpl; lia|simpl; lia|by exists 1|by exists 0
                          |discriminate|reflexivity].
  - rewrite (Huntouched 1 1); [reflexivity|].
    intros i j Hi Hj [k ->] [l ->] Hu Hv.
    rewrite !shiftr_multiple in Hu, Hv by lia.
    assert (k = 0) as -> by lia. assert (l = 0) as -> by lia. reflexivity.
Defined.

(** C1 does not hold for every level [s >= 0].  At scale level 32 the
    shift counts wrap to [0]: the loops visit every pixel.  The source pixel [(1, 0)], whose column is no multiple of
    [2^32], is read and written at [(1 + 1, 1 + 0)], a position on which no
    pixel of the sampling grid of [2^32] lands; and a source that differs
    in that pixel only gives another result. *)
Lemma renderScaledImage_scale_32 :
  ∃ r r',
    @renderScaledImage lenient_host demo_source demo_destination 1 1 32 = Ok r ∧
    @renderScaledImage lenient_host demo_source_alt demo_destination 1 1 32
    = Ok r' ∧
    ¬ (2 ^ 32 | 1) ∧
    Image.getPixel r 2 1 = Image.getPixel demo_source 1 0 ∧
    Image.getPixel r 2 1 ≠ Image.getPixel demo_destination 2 1 ∧
    (∀ i j, 0 ≤ i < Image.width demo_source →
            0 ≤ j < Image.height demo_source →
            (2 ^ 32 | i) → (2 ^ 32 | j) →
            (2 = 1 + i ≫ 32 → 1 = 1 + j ≫ 32 →
             Image.getPixel demo_source i j = 0) ∧
            Image.getPixel demo_source_alt i j = Image.getPixel demo_source i j) ∧
    Image.getPixel r' 2 1 ≠ Image.getPixel r 2 1.
Proof.
  eexists _, _. split; [vm_compute; reflexivity|].
  split; [vm_compute; reflexivity|].
  split; [|split; [|split; [|split]]].
  - intros [k Hk]. change (2 ^ 32) with 4294967296 in Hk. lia.
  - vm_compute. reflexivity.
  - vm_compute. discriminate.
  - intros i j Hi Hj [k ->] [l ->].
    change (2 ^ 32) with 4294967296 in *. simpl in Hi, Hj.
    assert (k = 0) as -> by lia. assert (l = 0) as -> by lia.
    split; [|reflexivity]. intros Hu. discriminate Hu.
  - vm_compute. discriminate.
Qed.

(** Nor does C1 hold when source and destination are one image object,
    as they are in [includeSprite(minimapSprite.data, minimapSprite)].
    Drawing the row [1 2 0 0] onto itself at level 0 from [(1, 0)], the
    code reads at [(1, 0)] the [1] it has just written, not the [2] that
    was there, and writes it on: the result is [1 1 1 1].  The visible
    pixel [(1, 0)] has not been written at [(1 + 1, 0)], and the position
    [(3, 0)], whose source pixel [(2, 0)] was zero, has changed. *)
Example renderScaledImage_onto_itself :
  ∃ images' r,
    @ByRef.renderScaledImage lenient_host 5 5 1 0 0 demo_images = Ok images' ∧
    demo_images !! 5%positive = Some demo_row ∧
    images' !! 5%positive = Some r ∧
    (λ u, Image.getPixel demo_row u 0) <$> seqZ 0 4 = [1; 2; 0; 0] ∧
    (λ u, Image.getPixel r u 0) <$> seqZ 0 4 = [1; 1; 1; 1] ∧
    Image.getPixel r (1 + 1) 0 ≠ Image.getPixel demo_row 1 0 ∧
    Image.getPixel demo_row 2 0 = 0 ∧
    Image.getPixel r (1 + 2) 0 ≠ Image.getPixel demo_row (1 + 2) 0.
Proof.
  eexists _, _. split; [vm_compute; reflexivity|].
  split; [reflexivity|]. split; [reflexivity|].
  repeat split; vm_compute; congruence.
Qed.

(** At scale level 31 the step [1 << 31] is negative: the loops never
    leave. *)
Example renderScaledImage_scale_31 :
  JS.shl 1 31 = - 2 ^ 31 ∧
  @renderScaledImage lenient_host demo_source demo_destination 1 1 31 = Diverge.
Proof. split; vm_compute; reflexivity. Qed.

(** A minimap at scale 3 and a sprite requested at scale 5. *)
Lemma includeSprite_effective_scale_witness :
  Z.max (3 - 5) 0 = 0.
Proof.
  pose proof (@includeSprite_effective_scale lenient_host
    {| Minimap.image := Image.create 1 1; Minimap.scale := 3;
       Minimap.borderWidth := 0; Minimap.borderColor := 0 |}
    demo_hero 5) as H.
  simpl in H. destruct H as (_ & _ & _ & _ & H). apply H; reflexivity.
Defined.

(** The hero at [(4.5, 4)], 2×2, on the demo minimap (scale 1, border 1)
    at its own scale: the origin is [(2 - 0 + 1, 2 - 0 + 1)], and the one
    sampled pixel lands there. *)
Lemma includeSprite_placement_witness :
  ∃ images' drawn,
    @ByRef.includeSprite lenient_host demo_minimap_obj demo_hero_obj 0
      demo_images = Ok images' ∧
    images' !! 7%positive = Some drawn ∧
    Image.getPixel drawn 3 3 = 7.
Proof.
  destruct (@ByRef.includeSprite lenient_host demo_minimap_obj demo_hero_obj 0
              demo_images) as [images'| |] eqn:Hinc;
    [|vm_compute in Hinc; discriminate..].
  destruct (@includeSprite_placement lenient_host demo_images
              demo_minimap_obj demo_hero_obj 0) as [_ Hpixel].
  destruct (Hpixel ltac:(discriminate) ltac:(simpl; lia)
              (Sprite.image demo_hero) (Image.create 6 6) eq_refl eq_refl
              ltac:(simpl; lia) ltac:(simpl; lia) images' Hinc)
    as (drawn & Himages & Hdrawn).
  exists images', drawn. split; [reflexivity|].
  split; [rewrite Himages; apply lookup_insert_eq|].
  apply (Hdrawn 0 0).
  - simpl. lia.
  - simpl. lia.
  - exists 0. reflexivity.
  - exists 0. reflexivity.
  - intros [=].
  - reflexivity.
Defined.

(** C6 does not hold for every sprite.  The display shows the image
    object of the minimap it carries ([createMinimapSprite] passes
    [minimap.image] to [sprites.create]), so
    [includeSprite(minimapSprite.data, minimapSprite)] draws an image
    onto itself.  For the row [1 2 0 0] and the display at [(3, 0)] the
    origin is [(1, 0)] and the effective scale [0]; the visible pixel
    [(1, 0)] of the sprite's image, colour [2], should end up at
    [(1 + 1, 0)], inside the image, where the result has colour [1]:
    the code has read back the [1] it wrote one step before. *)
Lemma includeSprite_own_image :
  Sprite.image demo_row_display = Minimap.image demo_row_minimap ∧
  Sprite.data demo_row_display = Some demo_row_minimap ∧
  demo_images !! Sprite.image demo_row_display = Some demo_row ∧
  JS.shr (JS.trunc (Sprite.x demo_row_display)) (Minimap.scale demo_row_minimap)
  - JS.shr (JS.trunc (Sprite.width demo_row_display / 2)%Q)
           (Z.max (Minimap.scale demo_row_minimap - 0) 0)
  + Minimap.borderWidth demo_row_minimap = 1 ∧
  JS.shr (JS.trunc (Sprite.y demo_row_display)) (Minimap.scale demo_row_minimap)
  - JS.shr (JS.trunc (Sprite.height demo_row_display / 2)%Q)
           (Z.max (Minimap.scale demo_row_minimap - 0) 0)
  + Minimap.borderWidth demo_row_minimap = 0 ∧
  Z.max (Minimap.scale demo_row_minimap - 0) 0 = 0 ∧
  ∃ images' drawn,
    @ByRef.includeSprite lenient_host demo_row_minimap demo_row_display 0
      demo_images = Ok images' ∧
    images' !! Minimap.image demo_row_minimap = Some drawn ∧
    Image.getPixel demo_row 1 0 = 2 ∧
    Image.inRange demo_row (1 + 1 ≫ 0) (0 + 0 ≫ 0) = true ∧
    Image.getPixel drawn (1 + 1 ≫ 0) (0 + 0 ≫ 0) = 1 ∧
    (λ u, Image.getPixel drawn u 0) <$> seqZ 0 4 = [1; 1; 1; 1].
Proof.
  do 6 (split; [reflexivity|]).
  eexists _, _. split; [vm_compute; reflexivity|].
  split; [reflexivity|]. repeat split; vm_compute; reflexivity.
Qed.

(** A sprite without a visible pixel leaves the demo minimap as it is. *)
Lemma includeSprite_blank_identity_witness :
  @includeSprite strict_host demo_minimap demo_invisible 0 = Ok demo_minimap.
Proof.
  assert (blank (Sprite.image demo_invisible)) as Hblank.
  { intros i j. unfold Image.getPixel. simpl.
    by destruct (Image.inRange (Image.create 3 3) i j). }
  destruct (@includeSprite_blank_identity strict_host
              demo_minimap demo_invisible 0 Hblank) as (_ & _ & Hok).
  apply Hok. unfold shift_ok. simpl. lia.
Defined.

(** Without a tile map the requested parameters come back on a blank 1×1
    image. *)
Lemma getMinimapObject_without_tilemap_witness :
  ∃ minimap, @getMinimapObject lenient_host demo_empty_scene 4 3 5 = Ok minimap ∧
             Image.width (Minimap.image minimap) = 1 ∧
             Image.height (Minimap.image minimap) = 1 ∧
             Minimap.scale minimap = 4.
Proof.
  destruct (@getMinimapObject_without_tilemap lenient_host
              demo_empty_scene 4 3 5 eq_refl)
    as (minimap & Hmm & _ & Hw & Hh & _ & Hs & _).
  by exists minimap.
Defined.

(** The 2×2 grid of 4×4 tiles at scale 1 with a border of 1 is 6×6. *)
Lemma getMinimapObject_dimensions_witness :
  ∃ minimap, @getMinimapObject lenient_host demo_state 1 1 9 = Ok minimap ∧
             Image.width (Minimap.image minimap) = 6 ∧
             Image.height (Minimap.image minimap) = 6.
Proof.
  destruct (@getMinimapObject_dimensions lenient_host demo_state demo_tilemap
              1 1 9 eq_refl) as (_ & Hdims & Hreturns & _).
  destruct Hreturns as [minimap Hmm]; [reflexivity|unfold shift_ok; lia|].
  exists minimap. split; [exact Hmm|].
  destruct (Hdims minimap Hmm) as (Hw & Hh & _). rewrite Hw, Hh. by split.
Defined.

(** The corner of that minimap is in the margin and no tile reaches it. *)
Lemma getMinimapObject_border_witness :
  ∃ minimap, @getMinimapObject strict_host demo_state 1 1 9 = Ok minimap ∧
             Image.getPixel (Minimap.image minimap) 0 0 = 9.
Proof.
  destruct (@getMinimapObject strict_host demo_state 1 1 9)
    as [minimap| |] eqn:Hmm; [|vm_compute in Hmm; discriminate..].
  exists minimap. split; [reflexivity|].
  destruct (@getMinimapObject_border strict_host demo_state demo_tilemap
              1 1 9 minimap eq_refl ltac:(lia) Hmm) as [_ Hmargin].
  apply Hmargin.
  - destruct (@getMinimapObject_size strict_host demo_state demo_tilemap
                1 1 9 minimap eq_refl Hmm) as [Hw Hh].
    unfold Image.inRange. rewrite Hw, Hh. reflexivity.
  - left. lia.
  - intros (c & r & i & j & Hc & _ & (Hi & _) & _ & Hu & _).
    change (numCols demo_tilemap) with 2 in Hc. simpl in Hi.
    assert (c = 0 ∨ c = 1) as [-> | ->] by lia;
      (assert (i = 0 ∨ i = 1 ∨ i = 2 ∨ i = 3) as [-> | [-> | [-> | ->]]] by lia);
      vm_compute in Hu; discriminate.
Defined.

(** Untracking the hero takes out its two entries and nothing else. *)
Lemma removeSpriteFromUpdateList_exact_witness :
  spritesToUpdate (removeSpriteFromUpdateList demo_state (Some 2%positive))
  = [demo_tracked (Some 3%positive) 0; demo_tracked None 0] ∧
  removeSpriteFromUpdateList demo_state (Some 4%positive) = demo_state.
Proof.
  destruct (removeSpriteFromUpdateList_exact demo_state (Some 4%positive)) as
    (_ & _ & _ & _ & _ & _ & _ & _ & Hnoop & _).
  split; [reflexivity|]. apply Hnoop.
  intros u Hu. simpl in Hu.
  repeat (apply elem_of_cons in Hu as [->|Hu]; [discriminate|]).
  by apply not_elem_of_nil in Hu.
Defined.

(** One refresh of the small world: the destroyed sprite and the [null]
    are gone from the list, the hero's two entries stay. *)
Lemma refreshTick_prunes_destroyed_witness :
  ∃ st', @refreshTick strict_host demo_state = Ok st' ∧
         spritesToUpdate st'
         = [demo_tracked (Some 2%positive) 0; demo_tracked (Some 2%positive) 1].
Proof.
  destruct (@refreshTick strict_host demo_state) as [st'| |] eqn:Htick;
    [|vm_compute in Htick; discriminate..].
  exists st'. split; [reflexivity|].
  destruct (@refreshTick_prunes_destroyed strict_host demo_state st' Htick)
    as (r & display & oldMM & newMM & finalMM & _ & _ & _ & _ & _ & _ & Hlist & _).
  rewrite Hlist. reflexivity.
Defined.

(** Tracking a sprite and scheduling the refresh without ever creating the
    display: the first handler that fires throws. *)
Lemma refreshTick_needs_display_witness :
  @run lenient_host (Uninitialized (Some demo_tilemap) ∅)
    [AddSpriteToUpdateList (Some 2%positive) 0; UpdateMiniMapEvery 100; Fire 0]
  = Fault.
Proof.
  destruct (@refreshTick_needs_display lenient_host) as (_ & _ & Hrun & _).
  destruct (Hrun (Some demo_tilemap) ∅
              [AddSpriteToUpdateList (Some 2%positive) 0; UpdateMiniMapEvery 100]
              0%nat 100 _ ltac:(repeat constructor) eq_refl eq_refl)
    as [_ Hfault].
  exact Hfault.
Defined.

(** The life of a tracked sprite: the hero is tracked once more, then
    destroyed, then a refresh fires.  No entry for the hero is left, and
    its colour [7] is nowhere on the row of the refreshed image where the
    refresh before the destruction had drawn it. *)
Example tracked_then_destroyed :
  ∃ before after,
    @run strict_host demo_state [Fire 0] = Ok before ∧
    @run strict_host demo_state
      [AddSpriteToUpdateList (Some 2%positive) 0; Destroy 2%positive; Fire 0]
    = Ok after ∧
    spritesToUpdate after = [] ∧
    (Sprite.image <$> heap before !! 1%positive)
      ≫= (λ img, Some ((λ u, Image.getPixel img u 2) <$> seqZ 0 6))
    = Some [9; 1; 7; 7; 2; 9] ∧
    (Sprite.image <$> heap after !! 1%positive)
      ≫= (λ img, Some ((λ u, Image.getPixel img u 2) <$> seqZ 0 6))
    = Some [9; 1; 1; 2; 2; 9].
Proof.
  eexists _, _. split; [vm_compute; reflexivity|].
  split; [vm_compute; reflexivity|].
  repeat split; vm_compute; reflexivity.
Qed.

(* ===================================================================== *)
(** ** Further properties of the renderer *)
(* ===================================================================== *)

(** The step [1 << s] is positive exactly when the shift count, taken
    modulo 32, is not 31. *)
Lemma shl_1_pos s : 0 < JS.shl 1 s ↔ s mod 32 ≠ 31.
Proof.
  pose proof (Z.mod_pos_bound s 32 ltac:(lia)) as Hm.
  unfold JS.shl. rewrite (ToInt32_small 1) by lia. rewrite Z.shiftl_1_l.
  destruct (decide (s mod 32 = 31)) as [->|Hne].
  - split; [|done]. vm_compute. discriminate.
  - split; [done|]. intros _.
    pose proof (pow2_le_30 (s mod 32) ltac:(lia)).
    rewrite ToInt32_small by lia. lia.
Qed.

Lemma shr_mono_small a b s :
  0 ≤ a ≤ b → b < 2 ^ 31 → 0 ≤ JS.shr a s ≤ JS.shr b s.
Proof.
  intros Hab Hb. unfold JS.shr.
  pose proof (Z.mod_pos_bound s 32 ltac:(lia)) as Hm.
  rewrite !ToInt32_small by lia.
  rewrite !Z.shiftr_div_pow2 by lia.
  assert (0 < 2 ^ (s mod 32)) by (apply Z.pow_pos_nonneg; lia).
  split; [apply Z.div_pos; lia|apply Z.div_le_mono; lia].
Qed.

Section RendererMore.
Context `{Host}.

Lemma renderScaledImage_pixel source destination x y s r u v :
  0 < JS.shl 1 s →
  renderScaledImage source destination x y s = Ok r →
  Image.getPixel r u v =
    if Image.inRange destination u v
    then default (Image.getPixel destination u v)
                 (painted (stamps source x y s) u v)
    else 0.
Proof.
  intros Hstep. rewrite renderScaledImage_stamps by done.
  intros Hr. by apply for_of_plot_Ok in Hr as (_ & _ & ->).
Qed.

(** A strict host that accepted a sequence of writes found all of them
    inside the buffer. *)
Lemma for_of_plot_strict ws : ∀ d r,
  strict_bounds = true → for_of ws plot d = Ok r →
  Forall (λ w, Image.inRange d w.1.1 w.1.2 = true) ws.
Proof.
  induction ws as [|w ws IH]; intros d r Hstrict; [by constructor|].
  rewrite for_of_cons, bind_Ok. intros (d1 & Hw & Hr).
  assert (Image.inRange d w.1.1 w.1.2 = true) as Hin.
  { unfold plot, Image.setPixel in Hw.
    destruct (Image.inRange d w.1.1 w.1.2); [done|].
    by rewrite Hstrict in Hw. }
  constructor; [done|].
  apply setPixel_Ok in Hw as (Hw1 & Hh1 & _).
  eapply Forall_impl; [by eapply IH|].
  intros w' Hw'. simpl in Hw'. by rewrite <- (inRange_dims d d1).
Qed.

End RendererMore.

(** A loop whose step is not positive and whose condition holds never
    ends, when from some index down its body neither throws nor breaks
    what it relies on. *)
Lemma for_fuel_hangs {A} (P : A → Prop) (body : Z → A → result A)
    limit step bound :
  step ≤ 0 →
  (∀ i a, i ≤ bound → P a →
          body i a = Diverge ∨ ∃ a', body i a = Ok a' ∧ P a') →
  ∀ fuel i a, i ≤ bound → i < limit → P a →
    for_fuel fuel i limit step body a = Diverge.
Proof.
  intros Hstep Hbody. induction fuel as [|fuel IH]; intros i a Hi Hlimit Ha;
    simpl.
  - destruct (Z.ltb_spec i limit); [done|lia].
  - destruct (Z.ltb_spec i limit); [|lia].
    destruct (Hbody i a Hi Ha) as [->|(a' & -> & Ha')]; [done|].
    simpl. apply IH; [lia|lia|done].
Qed.

Lemma for_of_not_Diverge {A B} (xs : list B) (body : B → A → result A) :
  (∀ x a, body x a ≠ Diverge) → ∀ a, for_of xs body a ≠ Diverge.
Proof.
  intros Hbody. induction xs as [|x xs IH]; intros a; simpl; [done|].
  specialize (Hbody x a). destruct (body x a) as [a'| |]; simpl; [apply IH|done..].
Qed.

Lemma shl_1_31 s : s mod 32 = 31 → JS.shl 1 s = - 2 ^ 31.
Proof. intros Hs. unfold JS.shl. by rewrite Hs. Qed.

Lemma getPixel_outside img i j : i < 0 ∨ j < 0 → Image.getPixel img i j = 0.
Proof.
  intros Hout. unfold Image.getPixel, Image.inRange.
  destruct (Z.leb_spec 0 i); [|done].
  destruct (Z.leb_spec 0 j); [lia|]. by rewrite andb_false_r.
Qed.

Section ByRefTermination.
Context `{Host}.
Variables (images : Buffers) (source destination : positive).
Variables (src dst : Image.t) (x y s : Z).
Hypothesis Hsrc : images !! source = Some src.
Hypothesis Hdst : images !! destination = Some dst.

(** With a positive step the call comes to an end, on one object as on
    two. *)
Lemma renderScaledImage_by_ref_ends :
  0 < JS.shl 1 s →
  ByRef.renderScaledImage source destination x y s images ≠ Diverge.
Proof.
  intros Hstep. unfold ByRef.renderScaledImage, ByRef.width.
  rewrite Hsrc. simpl. rewrite for_loop_indices by done.
  apply for_of_not_Diverge. intros i m. unfold ByRef.height.
  destruct (m !! source) as [b|]; simpl; [|done].
  rewrite for_loop_indices by done.
  apply for_of_not_Diverge. intros j m'.
  unfold ByRef.getPixel, ByRef.setPixel.
  destruct (m' !! source) as [b'|]; simpl; [|done].
  destruct (negb (Image.getPixel b' i j =? 0)); [|done].
  destruct (m' !! destination) as [d|]; simpl; [|done].
  pose proof (setPixel_not_Diverge d (x + JS.shr i s) (y + JS.shr j s)
                (Image.getPixel b' i j)) as Hset.
  by destruct (Image.setPixel d _ _ _).
Qed.

Lemma renderScaledImage_by_ref_empty :
  Image.width src ≤ 0 →
  ByRef.renderScaledImage source destination x y s images = Ok images.
Proof.
  intros Hw. unfold ByRef.renderScaledImage, ByRef.width, for_loop.
  rewrite Hsrc. simpl.
  replace (Z.to_nat (Image.width src)) with 0%nat by lia. simpl.
  destruct (Z.ltb_spec 0 (Image.width src)); [lia|done].
Qed.

(** What the call does at a level that is 31 modulo 32, on a source with
    a column: the step is [-2^31], so after the pixel [(0, 0)] the loops
    only meet indices below zero, where an image reads as transparent
    whatever has been written to it. *)
Lemma renderScaledImage_by_ref_level_31 :
  s mod 32 = 31 → 0 < Image.width src →
  ByRef.renderScaledImage source destination x y s images
  = if strict_bounds && (0 <? Image.height src)
       && negb (Image.getPixel src 0 0 =? 0)
       && negb (Image.inRange dst x y)
    then Fault else Diverge.
Proof.
  intros Hs Hw. unfold ByRef.renderScaledImage. rewrite (shl_1_31 s Hs).
  unfold ByRef.width at 1. rewrite Hsrc. simpl.
  pose (row := λ i j (m : Buffers),
    c ← ByRef.getPixel m source i j;
    if negb (c =? 0) then
      c ← ByRef.getPixel m source i j;
      ByRef.setPixel m destination (x + JS.shr i s) (y + JS.shr j s) c
    else Ok m).
  pose (rows := λ i (m : Buffers),
    limit ← ByRef.height m source; for_loop limit (- 2 ^ 31) (row i) m).
  change (for_loop (Image.width src) (- 2 ^ 31) rows images
          = if strict_bounds && (0 <? Image.height src)
               && negb (Image.getPixel src 0 0 =? 0)
               && negb (Image.inRange dst x y)
            then Fault else Diverge).
  pose (P := λ m : Buffers,
    ∃ b, m !! source = Some b ∧ Image.height b = Image.height src).
  assert (∀ i j m, P m → i < 0 ∨ j < 0 → row i j m = Ok m) as Hrow.
  { intros i j m (b & Hb & _) Hout. unfold row, ByRef.getPixel.
    rewrite Hb. simpl. by rewrite getPixel_outside. }
  assert (row 0 0 images =
            if negb (Image.getPixel src 0 0 =? 0)
            then d ← Image.setPixel dst x y (Image.getPixel src 0 0);
                 Ok (<[destination := d]> images)
            else Ok images) as Hfirst.
  { unfold row, ByRef.getPixel, ByRef.setPixel, JS.shr.
    rewrite Hsrc, Z.shiftr_0_l, !Z.add_0_r. simpl.
    destruct (negb (Image.getPixel src 0 0 =? 0)); [|done].
    by rewrite Hdst. }
  assert (∀ i m, P m → rows i m
            = for_fuel (Z.to_nat (Image.height src)) 0
                (Image.height src) (- 2 ^ 31) (row i) m) as Hrows_eq.
  { intros i m (b & Hb & Hh). unfold rows, ByRef.height, for_loop.
    rewrite Hb. simpl. by rewrite Hh. }
  clearbody rows. clearbody row.
  assert (P images) as Himages by (by exists src).
  assert (∀ fuel m, P m → 0 < Image.height src →
            for_fuel fuel (- 2 ^ 31) (Image.height src) (- 2 ^ 31) (row 0) m
            = Diverge) as Hcolumn.
  { intros fuel m Hm Hh.
    apply (for_fuel_hangs P (row 0) _ _ (-1)); try lia; [|done].
    intros j m' Hj Hm'. right. exists m'.
    by rewrite Hrow by (done || right; lia). }
  assert (∀ i m, i < 0 → P m →
            rows i m = Diverge ∨ ∃ m', rows i m = Ok m' ∧ P m') as Hrows.
  { intros i m Hi Hm. rewrite Hrows_eq by done.
    destruct (decide (0 < Image.height src)) as [Hh|Hh].
    - left. apply (for_fuel_hangs P (row i) _ _ 0); try lia; [|done].
      intros j m' Hj Hm'. right. exists m'.
      by rewrite Hrow by (done || by left).
    - right. exists m.
      replace (Z.to_nat (Image.height src)) with 0%nat by lia. simpl.
      destruct (Z.ltb_spec 0 (Image.height src)); [lia|done]. }
  assert (∀ fuel m, P m →
            for_fuel fuel (- 2 ^ 31) (Image.width src) (- 2 ^ 31) rows m
            = Diverge) as Hrest.
  { intros fuel m Hm.
    apply (for_fuel_hangs P rows _ _ (-1)); try lia; [|done].
    intros i m' Hi Hm'. apply Hrows; [lia|done]. }
  unfold for_loop.
  destruct (Z.to_nat (Image.width src)) as [|fuel] eqn:Hfuel; [lia|].
  simpl. destruct (Z.ltb_spec 0 (Image.width src)); [|lia].
  rewrite Hrows_eq by done.
  destruct (Z.ltb_spec 0 (Image.height src)) as [Hh|Hh].
  - (* The first row: the pixel (0, 0), then indices below zero. *)
    destruct (Z.to_nat (Image.height src)) as [|fuel'] eqn:Hfuel'; [lia|].
    simpl. destruct (Z.ltb_spec 0 (Image.height src)); [|lia].
    rewrite Hfirst.
    destruct (Image.getPixel src 0 0 =? 0); simpl.
    + rewrite Hcolumn by done. simpl. by rewrite andb_false_r.
    + assert (∀ d, Image.height d = Image.height dst →
                   P (<[destination := d]> images)) as Hput.
      { intros d Hd. destruct (decide (source = destination)) as [<-|Hne].
        - exists d. rewrite lookup_insert_eq. split; [done|]. congruence.
        - exists src. by rewrite lookup_insert_ne. }
      unfold Image.setPixel.
      destruct (Image.inRange dst x y); simpl.
      * rewrite Hcolumn by (done || by apply Hput).
        simpl. by rewrite andb_false_r.
      * destruct strict_bounds; simpl; [done|].
        by rewrite Hcolumn by (done || by apply Hput).
  - (* No row: every pass of the outer loop returns at once. *)
    replace (Z.to_nat (Image.height src)) with 0%nat by lia. simpl.
    destruct (Z.ltb_spec 0 (Image.height src)); [lia|]. simpl.
    rewrite Hrest by done. by rewrite andb_false_r.
Qed.

End ByRefTermination.

(** X1.  Termination of [renderScaledImage], whether source and
    destination are two image objects or one.  The call comes to an end
    (it returns or throws) whenever the scale level modulo 32 is not 31.
    At a level that is 31 modulo 32 the step [1 << scale] is [-2^31], and
    on a source with a column the call never returns: the loops never
    end, unless the host rejects out-of-range writes, the source has a
    row, its pixel [(0, 0)] is visible and [(x, y)] lies outside the
    destination, in which case the first write throws.  On a source
    without a column the call returns at every level and changes
    nothing. *)
Theorem renderScaledImage_termination `{Host}
    (images : Buffers) (source destination : positive)
    (src dst : Image.t) (x y s : Z) :
  images !! source = Some src → images !! destination = Some dst →
  (s mod 32 ≠ 31 →
   ByRef.renderScaledImage source destination x y s images ≠ Diverge) ∧
  (s mod 32 = 31 → 0 < Image.width src →
   (∀ images',
      ByRef.renderScaledImage source destination x y s images ≠ Ok images') ∧
   (strict_bounds = false →
    ByRef.renderScaledImage source destination x y s images = Diverge) ∧
   (ByRef.renderScaledImage source destination x y s images = Fault ↔
    strict_bounds = true ∧ 0 < Image.height src ∧
    Image.getPixel src 0 0 ≠ 0 ∧ Image.inRange dst x y = false) ∧
   (ByRef.renderScaledImage source destination x y s images ≠ Fault →
    ByRef.renderScaledImage source destination x y s images = Diverge)) ∧
  (Image.width src ≤ 0 →
   ByRef.renderScaledImage source destination x y s images = Ok images).
Proof.
  intros Hsrc Hdst. split; [|split].
  - intros Hs%shl_1_pos. by apply (renderScaledImage_by_ref_ends _ _ _ src).
  - intros Hs Hw.
    rewrite (renderScaledImage_by_ref_level_31 images source destination
               src dst x y s) by done.
    destruct strict_bounds; simpl; [|by repeat split; try done; intros [? _]].
    destruct (Z.ltb_spec 0 (Image.height src)) as [Hh|Hh]; simpl;
      [|repeat split; try done; intros (_ & ? & _); lia].
    destruct (Z.eqb_spec (Image.getPixel src 0 0) 0) as [Hp|Hp]; simpl;
      [repeat split; try done; by intros (_ & _ & ? & _)|].
    destruct (Image.inRange dst x y); simpl;
      [repeat split; try done; by intros (_ & _ & _ & ?)|].
    repeat split; done.
  - by apply renderScaledImage_by_ref_empty.
Qed.

(** At level 63 the hero's image on the 5×3 destination from [(1, 1)]
    loops for ever; from [(5, 5)], outside the destination, a host that
    rejects the write throws and one that drops it loops for ever; so
    does the row drawn onto itself; at level 33 the call ends. *)
Lemma renderScaledImage_termination_witness :
  @ByRef.renderScaledImage strict_host 3 2 1 1 63 demo_images = Diverge ∧
  @ByRef.renderScaledImage strict_host 3 2 5 5 63 demo_images = Fault ∧
  @ByRef.renderScaledImage lenient_host 3 2 5 5 63 demo_images = Diverge ∧
  @ByRef.renderScaledImage strict_host 5 5 1 0 63 demo_images = Diverge ∧
  @ByRef.renderScaledImage strict_host 1 2 1 1 33 demo_images ≠ Diverge.
Proof.
  destruct (@renderScaledImage_termination strict_host demo_images 3 2
              (Sprite.image demo_hero) demo_destination 1 1 63
              eq_refl eq_refl) as (_ & Hloops & _).
  destruct (@renderScaledImage_termination strict_host demo_images 3 2
              (Sprite.image demo_hero) demo_destination 5 5 63
              eq_refl eq_refl) as (_ & Hthrows & _).
  destruct (@renderScaledImage_termination lenient_host demo_images 3 2
              (Sprite.image demo_hero) demo_destination 5 5 63
              eq_refl eq_refl) as (_ & Hdrops & _).
  destruct (@renderScaledImage_termination strict_host demo_images 5 5
              demo_row demo_row 1 0 63 eq_refl eq_refl) as (_ & Hitself & _).
  destruct (@renderScaledImage_termination strict_host demo_images 1 2
              demo_source demo_destination 1 1 33 eq_refl eq_refl)
    as (Hends & _ & _).
  destruct (Hloops eq_refl ltac:(simpl; lia)) as (_ & _ & Hfault & Hhangs).
  destruct (Hthrows eq_refl ltac:(simpl; lia)) as (_ & _ & Hfault' & _).
  destruct (Hdrops eq_refl ltac:(simpl; lia)) as (_ & Hlenient & _).
  destruct (Hitself eq_refl ltac:(simpl; lia)) as (_ & _ & Hfault'' & Hhangs'').
  split; [|split; [|split; [|split]]].
  - apply Hhangs. intros (_ & _ & _ & Hout)%Hfault. discriminate Hout.
  - apply Hfault'. split; [reflexivity|]. split; [simpl; lia|].
    split; [intros [=]|reflexivity].
  - apply Hlenient. reflexivity.
  - apply Hhangs''. intros (_ & _ & _ & Hout)%Hfault''. discriminate Hout.
  - apply Hends. intros [=].
Defined.

(** X2.  The footprint of [renderScaledImage].  A call that returns has
    changed nothing outside the rectangle from [(x, y)] to
    [(x + ((width - 1) >> s), y + ((height - 1) >> s))], both corners
    included, whatever the scale level. *)
Theorem renderScaledImage_footprint `{Host}
    (source destination : Image.t) (x y s : Z) (r : Image.t) (u v : Z) :
  Image.width source ≤ 2 ^ 31 → Image.height source ≤ 2 ^ 31 →
  renderScaledImage source destination x y s = Ok r →
  ¬ (x ≤ u ≤ x + JS.shr (Image.width source - 1) s ∧
     y ≤ v ≤ y + JS.shr (Image.height source - 1) s) →
  Image.getPixel r u v = Image.getPixel destination u v.
Proof.
  intros Hw Hh Hr Hout.
  apply (renderScaledImage_untouched source destination x y s r u v Hr).
  intros i j (Hi & Hj & _) -> ->. exfalso. apply Hout.
  pose proof (shr_mono_small i (Image.width source - 1) s).
  pose proof (shr_mono_small j (Image.height source - 1) s).
  lia.
Qed.

(** The 4×2 image at level 1 from [(1, 1)] covers the columns 1 to 2 of
    row 1 only: the pixel [(3, 1)] of the destination stays. *)
Lemma renderScaledImage_footprint_witness :
  ∃ r, @renderScaledImage strict_host demo_source demo_destination 1 1 1 = Ok r ∧
       Image.getPixel r 3 1 = 9.
Proof.
  destruct (@renderScaledImage strict_host demo_source demo_destination 1 1 1)
    as [r| |] eqn:Hr; [|vm_compute in Hr; discriminate..].
  exists r. split; [reflexivity|].
  rewrite (@renderScaledImage_footprint strict_host demo_source
             demo_destination 1 1 1 r 3 1 ltac:(simpl; lia) ltac:(simpl; lia) Hr).
  - reflexivity.
  - vm_compute. intros [[_ Hu] _]. by apply Hu.
Defined.

(** On the contents of two image objects: when a rendering has returned,
    the same rendering onto its result returns too and changes no
    pixel. *)
Lemma renderScaledImage_again `{Host}
    (source destination : Image.t) (x y s : Z) (r : Image.t) :
  renderScaledImage source destination x y s = Ok r →
  ∃ r', renderScaledImage source r x y s = Ok r' ∧
        Image.width r' = Image.width r ∧ Image.height r' = Image.height r ∧
        ∀ u v, Image.getPixel r' u v = Image.getPixel r u v.
Proof.
  intros Hr.
  destruct (decide (0 < JS.shl 1 s)) as [Hstep|Hstep].
  - pose proof (renderScaledImage_dims _ _ _ _ _ _ Hr) as [Hw Hh].
    assert (∃ r', renderScaledImage source r x y s = Ok r') as [r' Hr'].
    { rewrite renderScaledImage_stamps in * by done.
      apply for_of_plot_total. intros Hstrict.
      eapply Forall_impl; [by eapply for_of_plot_strict|].
      intros w Hin. simpl in Hin. by rewrite (inRange_dims destination r). }
    exists r'. pose proof (renderScaledImage_dims _ _ _ _ _ _ Hr') as [Hw' Hh'].
    split; [done|]. split; [done|]. split; [done|]. intros u v.
    rewrite (renderScaledImage_pixel source r x y s r') by done.
    rewrite (renderScaledImage_pixel source destination x y s r) by done.
    rewrite (inRange_dims destination r) by done.
    destruct (Image.inRange destination u v); [|done].
    by destruct (painted (stamps source x y s) u v).
  - assert (r = destination) as ->
      by (eapply renderScaledImage_stuck; [|done]; lia).
    by exists destination.
Qed.

(** X3.  Rendering onto another image is idempotent.  When source and
    destination are two image objects and a rendering has returned, the
    same rendering once more returns too and changes no pixel of any
    image.  On one and the same object it does not hold:
    [renderScaledImage_twice_onto_itself]. *)
Theorem renderScaledImage_idempotent `{Host}
    (images : Buffers) (source destination : positive) (dst : Image.t)
    (x y s : Z) (images' : Buffers) :
  source ≠ destination → images !! destination = Some dst →
  ByRef.renderScaledImage source destination x y s images = Ok images' →
  ∃ r r',
    images' = <[destination := r]> images ∧
    ByRef.renderScaledImage source destination x y s images'
    = Ok (<[destination := r']> images) ∧
    same_picture r' r.
Proof.
  intros Hne Hdst Hrender.
  destruct (renderScaledImage_by_ref_source _ _ _ _ _ _ _ Hrender)
    as [src Hsrc].
  rewrite (renderScaledImage_by_ref images source destination src dst)
    in Hrender by done.
  apply bind_Ok in Hrender as (r & Hr & [= <-]).
  destruct (renderScaledImage_again src dst x y s r Hr)
    as (r' & Hr' & Hw & Hh & Hpixels).
  exists r, r'. split; [done|]. split; [|done].
  rewrite (renderScaledImage_onto images source destination src r) by done.
  by rewrite Hr'.
Qed.

Lemma renderScaledImage_idempotent_witness :
  ∃ images' r r',
    @ByRef.renderScaledImage strict_host 1 2 1 1 0 demo_images = Ok images' ∧
    images' !! 2%positive = Some r ∧
    @ByRef.renderScaledImage strict_host 1 2 1 1 0 images'
    = Ok (<[2%positive := r']> demo_images) ∧
    Image.getPixel r' 2 2 = Image.getPixel r 2 2.
Proof.
  destruct (@ByRef.renderScaledImage strict_host 1 2 1 1 0 demo_images)
    as [images'| |] eqn:Hrender; [|vm_compute in Hrender; discriminate..].
  destruct (@renderScaledImage_idempotent strict_host demo_images 1 2
              demo_destination 1 1 0 images' ltac:(intros [=]) eq_refl Hrender)
    as (r & r' & Himages & Hagain & _ & _ & Hsame).
  exists images', r, r'. split; [reflexivity|].
  split; [rewrite Himages; apply lookup_insert_eq|].
  split; [exact Hagain|apply Hsame].
Defined.

(** Drawing the row [0 0 5] onto itself from [(-1, 0)] moves the [5] one
    pixel to the left and leaves [0 5 5]; doing it again leaves
    [5 5 5]. *)
Example renderScaledImage_twice_onto_itself :
  ∃ images' images'' r r',
    @ByRef.renderScaledImage lenient_host 6 6 (-1) 0 0 demo_images
    = Ok images' ∧
    @ByRef.renderScaledImage lenient_host 6 6 (-1) 0 0 images' = Ok images'' ∧
    images' !! 6%positive = Some r ∧ images'' !! 6%positive = Some r' ∧
    (λ u, Image.getPixel r u 0) <$> seqZ 0 3 = [0; 5; 5] ∧
    (λ u, Image.getPixel r' u 0) <$> seqZ 0 3 = [5; 5; 5].
Proof.
  eexists _, _, _, _. split; [vm_compute; reflexivity|].
  split; [vm_compute; reflexivity|].
  split; [reflexivity|]. split; [reflexivity|].
  split; vm_compute; reflexivity.
Qed.

(** On the contents of three image objects, the destination not one of
    the sources: what two renderings in a row leave. *)
Lemma renderScaledImage_over `{Host}
    (below above destination : Image.t) (xb yb sb xa ya sa : Z) :
  sb mod 32 ≠ 31 → sa mod 32 ≠ 31 →
  (∀ r1 r2,
     renderScaledImage below destination xb yb sb = Ok r1 →
     renderScaledImage above r1 xa ya sa = Ok r2 →
     ∀ u v, Image.getPixel r2 u v =
       if Image.inRange destination u v
       then default (default (Image.getPixel destination u v)
                             (painted (stamps below xb yb sb) u v))
                    (painted (stamps above xa ya sa) u v)
       else 0) ∧
  ((∀ i j i' j',
      visited below sb i j → Image.getPixel below i j ≠ 0 →
      visited above sa i' j' → Image.getPixel above i' j' ≠ 0 →
      ¬ (xb + JS.shr i sb = xa + JS.shr i' sa ∧
         yb + JS.shr j sb = ya + JS.shr j' sa)) →
   ∀ r1 r2 r1' r2',
     renderScaledImage below destination xb yb sb = Ok r1 →
     renderScaledImage above r1 xa ya sa = Ok r2 →
     renderScaledImage above destination xa ya sa = Ok r1' →
     renderScaledImage below r1' xb yb sb = Ok r2' →
     ∀ u v, Image.getPixel r2 u v = Image.getPixel r2' u v).
Proof.
  intros Hsb%shl_1_pos Hsa%shl_1_pos.
  assert (∀ bot top d xt yt st_ xo yo so r1 r2,
    0 < JS.shl 1 st_ → 0 < JS.shl 1 so →
    renderScaledImage bot d xo yo so = Ok r1 →
    renderScaledImage top r1 xt yt st_ = Ok r2 →
    ∀ u v, Image.getPixel r2 u v =
      if Image.inRange d u v
      then default (default (Image.getPixel d u v)
                            (painted (stamps bot xo yo so) u v))
                   (painted (stamps top xt yt st_) u v)
      else 0) as Hlayers.
  { intros bot top d xt yt st_ xo yo so r1 r2 Ht Ho Hr1 Hr2 u v.
    pose proof (renderScaledImage_dims _ _ _ _ _ _ Hr1) as [Hw Hh].
    rewrite (renderScaledImage_pixel top r1 xt yt st_ r2) by done.
    rewrite (renderScaledImage_pixel bot d xo yo so r1) by done.
    rewrite (inRange_dims d r1) by done.
    by destruct (Image.inRange d u v). }
  split.
  - intros r1 r2 Hr1 Hr2.
    by apply (Hlayers below above destination xa ya sa xb yb sb r1 r2).
  - intros Hdisjoint r1 r2 r1' r2' Hr1 Hr2 Hr1' Hr2' u v.
    rewrite (Hlayers below above destination xa ya sa xb yb sb r1 r2) by done.
    rewrite (Hlayers above below destination xb yb sb xa ya sa r1' r2') by done.
    destruct (Image.inRange destination u v); [|done].
    destruct (painted (stamps below xb yb sb) u v) as [cb|] eqn:Hb;
      destruct (painted (stamps above xa ya sa) u v) as [ca|] eqn:Ha;
      try done.
    exfalso.
    apply painted_Some, elem_of_stamps in Hb; [|done].
    apply painted_Some, elem_of_stamps in Ha; [|done].
    destruct Hb as (i & j & Hij & Hne & Hu & Hv & _).
    destruct Ha as (i' & j' & Hij' & Hne' & Hu' & Hv' & _).
    apply (Hdisjoint i j i' j'); try done. split; congruence.
Qed.

(** X4.  Layers.  Let the destination be another image object than
    [below] and [above].  After drawing [below] and then [above] on it,
    no other image has changed, and a position inside the destination
    shows the visible pixel of [above] that lands there if there is one,
    else that of [below] if there is one, else what the destination had.
    So when no position receives a visible pixel from both images, the
    two orders of drawing give the same picture. *)
Theorem renderScaledImage_layers `{Host}
    (images : Buffers) (below above destination : positive)
    (bottom top canvas : Image.t) (xb yb sb xa ya sa : Z) :
  below ≠ destination → above ≠ destination →
  images !! below = Some bottom → images !! above = Some top →
  images !! destination = Some canvas →
  sb mod 32 ≠ 31 → sa mod 32 ≠ 31 →
  (∀ images2,
     (images1 ← ByRef.renderScaledImage below destination xb yb sb images;
      ByRef.renderScaledImage above destination xa ya sa images1)
     = Ok images2 →
     ∃ r2,
       images2 = <[destination := r2]> images ∧
       ∀ u v, Image.getPixel r2 u v =
         if Image.inRange canvas u v
         then default (default (Image.getPixel canvas u v)
                               (painted (stamps bottom xb yb sb) u v))
                      (painted (stamps top xa ya sa) u v)
         else 0) ∧
  ((∀ i j i' j',
      visited bottom sb i j → Image.getPixel bottom i j ≠ 0 →
      visited top sa i' j' → Image.getPixel top i' j' ≠ 0 →
      ¬ (xb + JS.shr i sb = xa + JS.shr i' sa ∧
         yb + JS.shr j sb = ya + JS.shr j' sa)) →
   ∀ images2 images2',
     (images1 ← ByRef.renderScaledImage below destination xb yb sb images;
      ByRef.renderScaledImage above destination xa ya sa images1)
     = Ok images2 →
     (images1 ← ByRef.renderScaledImage above destination xa ya sa images;
      ByRef.renderScaledImage below destination xb yb sb images1)
     = Ok images2' →
     ∃ r2 r2',
       images2 = <[destination := r2]> images ∧
       images2' = <[destination := r2']> images ∧
       ∀ u v, Image.getPixel r2 u v = Image.getPixel r2' u v).
Proof.
  intros Hb Ha Hbottom Htop Hcanvas Hsb Hsa.
  destruct (renderScaledImage_over bottom top canvas xb yb sb xa ya sa Hsb Hsa)
    as [Hlayers Horder].
  rewrite (renderScaledImage_by_ref_twice images below above destination
             bottom top canvas) by done.
  rewrite (renderScaledImage_by_ref_twice images above below destination
             top bottom canvas) by done.
  split.
  - intros images2. rewrite bind_Ok. intros (r1 & Hr1 & Hr2).
    apply bind_Ok in Hr2 as (r2 & Hr2 & [= <-]).
    exists r2. split; [done|]. by apply (Hlayers r1 r2).
  - intros Hdisjoint images2 images2'.
    rewrite !bind_Ok. intros (r1 & Hr1 & Hr2) (r1' & Hr1' & Hr2').
    apply bind_Ok in Hr2 as (r2 & Hr2 & [= <-]).
    apply bind_Ok in Hr2' as (r2' & Hr2' & [= <-]).
    exists r2, r2'. split; [done|]. split; [done|].
    by apply (Horder Hdisjoint r1 r2 r1' r2').
Qed.

(** The hero's image and the destroyed sprite's, drawn side by side on the
    demo destination, in both orders. *)
Lemma renderScaledImage_layers_witness :
  ∃ images2 images2' r2 r2',
    (images1 ← @ByRef.renderScaledImage strict_host 3 2 0 0 0 demo_images;
     @ByRef.renderScaledImage strict_host 4 2 2 0 0 images1) = Ok images2 ∧
    (images1 ← @ByRef.renderScaledImage strict_host 4 2 2 0 0 demo_images;
     @ByRef.renderScaledImage strict_host 3 2 0 0 0 images1) = Ok images2' ∧
    images2 !! 2%positive = Some r2 ∧ images2' !! 2%positive = Some r2' ∧
    Image.getPixel r2 1 1 = Image.getPixel r2' 1 1.
Proof.
  destruct (images1 ← @ByRef.renderScaledImage strict_host 3 2 0 0 0 demo_images;
            @ByRef.renderScaledImage strict_host 4 2 2 0 0 images1)
    as [images2| |] eqn:H2; [|vm_compute in H2; discriminate..].
  destruct (images1 ← @ByRef.renderScaledImage strict_host 4 2 2 0 0 demo_images;
            @ByRef.renderScaledImage strict_host 3 2 0 0 0 images1)
    as [images2'| |] eqn:H2'; [|vm_compute in H2'; discriminate..].
  destruct (@renderScaledImage_layers strict_host demo_images 3 4 2
              (Sprite.image demo_hero) (Sprite.image demo_ghost)
              demo_destination 0 0 0 2 0 0
              ltac:(intros [=]) ltac:(intros [=]) eq_refl eq_refl eq_refl
              ltac:(intros [=]) ltac:(intros [=])) as [_ Horder].
  destruct (Horder) with (images2 := images2) (images2' := images2')
    as (r2 & r2' & Hi2 & Hi2' & Hsame).
  - intros i j i' j' (Hi & _) _ (Hi' & _) _ [Hu _]. simpl in Hi, Hi'.
    rewrite !shr_small, !Z.shiftr_0_r in Hu by lia. lia.
  - exact H2.
  - exact H2'.
  - exists images2, images2', r2, r2'. split; [reflexivity|].
    split; [reflexivity|].
    split; [rewrite Hi2; apply lookup_insert_eq|].
    split; [rewrite Hi2'; apply lookup_insert_eq|apply Hsame].
Defined.

(* ===================================================================== *)
(** ** Further properties of the builder *)
(* ===================================================================== *)

Section BuilderMore.
Context `{Host}.

Lemma stamp_cells_all_stamps tilemap scale borderWidth img :
  0 < JS.shl 1 scale →
  for_of (cells tilemap) (stamp_cell tilemap scale borderWidth) img
  = for_of (all_stamps tilemap scale borderWidth) plot img.
Proof.
  intros Hstep. unfold all_stamps. rewrite for_of_bind.
  apply for_of_ext. intros cell d _. unfold stamp_cell.
  by apply renderScaledImage_stamps.
Qed.

Lemma elem_of_all_stamps tilemap scale borderWidth u v col :
  0 < JS.shl 1 scale →
  (u, v, col) ∈ all_stamps tilemap scale borderWidth ↔
  ∃ c r i j,
    0 ≤ c < numCols tilemap ∧ 0 ≤ r < numRows tilemap ∧
    visited (tile_at tilemap c r) scale i j ∧
    Image.getPixel (tile_at tilemap c r) i j ≠ 0 ∧
    u = cell_offset tilemap scale borderWidth c + JS.shr i scale ∧
    v = cell_offset tilemap scale borderWidth r + JS.shr j scale ∧
    col = Image.getPixel (tile_at tilemap c r) i j.
Proof.
  intros Hstep. unfold all_stamps. rewrite list_elem_of_bind. split.
  - intros ([c r] & Hin & Hcell%elem_of_cells). simpl in Hin.
    apply elem_of_stamps in Hin as (i & j & Hij & Hne & -> & -> & ->); [|done].
    exists c, r, i, j. tauto.
  - intros (c & r & i & j & Hc & Hr & Hij & Hne & -> & -> & ->).
    exists (c, r). split; [|by apply elem_of_cells]. simpl.
    apply elem_of_stamps; [done|]. by exists i, j.
Qed.

(** Under [grid_ok] the pixel [(i, ·)] of a tile in column [k] lands in
    column [b + k * cell_size + i / 2^scale] of the image. *)
Lemma cell_landing tilemap scale b n k i :
  0 ≤ scale ≤ TileMap.scale tilemap → TileMap.scale tilemap ≤ 30 →
  n * tileWidth tilemap < 2 ^ 31 →
  0 ≤ k < n → 0 ≤ i < tileWidth tilemap →
  cell_offset tilemap scale b k + JS.shr i scale
  = b + k * cell_size tilemap scale + i `div` 2 ^ scale ∧
  0 ≤ i `div` 2 ^ scale < cell_size tilemap scale ∧
  JS.shr (n * tileWidth tilemap) scale = n * cell_size tilemap scale.
Proof.
  intros Hs Hts Hn Hk Hi. unfold cell_offset, tileWidth, cell_size in *.
  rewrite shl_1 in * by (unfold shift_ok; lia).
  set (q := 2 ^ (TileMap.scale tilemap - scale)).
  assert (0 < q) as Hq by (apply Z.pow_pos_nonneg; lia).
  assert (0 < 2 ^ scale) as Hp by (apply Z.pow_pos_nonneg; lia).
  assert (2 ^ TileMap.scale tilemap = q * 2 ^ scale) as Htw.
  { unfold q. rewrite <- Z.pow_add_r by lia. f_equal. lia. }
  rewrite Htw in *.
  assert (q * 2 ^ scale < 2 ^ 31) as Hsmall.
  { assert (q * 2 ^ scale ≤ n * (q * 2 ^ scale)); [nia|lia]. }
  rewrite !shr_small by nia.
  replace (k * (q * 2 ^ scale)) with ((k * q) * 2 ^ scale) by lia.
  replace (n * (q * 2 ^ scale)) with ((n * q) * 2 ^ scale) by lia.
  rewrite !shiftr_multiple by lia.
  rewrite Z.shiftr_div_pow2 by lia.
  assert (0 ≤ i `div` 2 ^ scale) by (apply Z.div_pos; lia).
  assert (i `div` 2 ^ scale < q) by (apply Z.div_lt_upper_bound; lia).
  lia.
Qed.

(** The quotient and remainder of a landing column name the cell and the
    pixel. *)
Lemma landing_unique q c k c' k' :
  0 ≤ k < q → 0 ≤ k' < q → c * q + k = c' * q + k' → c = c' ∧ k = k'.
Proof.
  intros Hk Hk' Heq.
  assert (c = c') as <-; [|lia].
  destruct (Z.lt_trichotomy c c') as [Hlt|[Heq'|Hgt]]; [|done|].
  - assert ((c + 1) * q ≤ c' * q) by (apply Z.mul_le_mono_nonneg_r; lia). lia.
  - assert ((c' + 1) * q ≤ c * q) by (apply Z.mul_le_mono_nonneg_r; lia). lia.
Qed.

(** With tiles that fit, a write of the builder on the position of the
    pixel [(k, l)] of the cell [(c, r)] is the write of that pixel. *)
Lemma all_stamps_unique tilemap scale b c r k l col :
  grid_ok tilemap scale → tiles_fit tilemap →
  0 ≤ c < numCols tilemap → 0 ≤ r < numRows tilemap →
  0 ≤ k < cell_size tilemap scale → 0 ≤ l < cell_size tilemap scale →
  (b + c * cell_size tilemap scale + k,
   b + r * cell_size tilemap scale + l, col) ∈ all_stamps tilemap scale b →
  col = Image.getPixel (tile_at tilemap c r) (k * 2 ^ scale) (l * 2 ^ scale) ∧
  col ≠ 0.
Proof.
  intros (Hs & Hts & Hcols & Hrows) Hfit Hc Hr Hk Hl Hin.
  assert (0 < JS.shl 1 scale) as Hstep.
  { rewrite shl_1 by (unfold shift_ok; lia). apply Z.pow_pos_nonneg; lia. }
  apply elem_of_all_stamps in Hin; [|done].
  destruct Hin as (c' & r' & i & j & Hc' & Hr' & Hij & Hne & Hu & Hv & ->).
  destruct (Hfit (TileMap.getTileIndex tilemap c' r')) as [Hw Hh].
  fold (tile_at tilemap c' r') in Hw, Hh.
  apply visited_sampled in Hij; [|unfold shift_ok; lia].
  destruct Hij as (Hi & Hj & [ki ->] & [kj ->]).
  destruct (cell_landing tilemap scale b (numCols tilemap) c' (ki * 2 ^ scale))
    as (Hlu & Hbu & _); [done..|lia|].
  destruct (cell_landing tilemap scale b (numRows tilemap) r' (kj * 2 ^ scale))
    as (Hlv & Hbv & _); [done..|lia|].
  assert (0 < 2 ^ scale) as Hp by (apply Z.pow_pos_nonneg; lia).
  rewrite Z.div_mul in * by lia.
  rewrite Hlu in Hu. rewrite Hlv in Hv.
  destruct (landing_unique (cell_size tilemap scale) c k c' ki) as [-> ->];
    [done|done|lia|].
  destruct (landing_unique (cell_size tilemap scale) r l r' kj) as [-> ->];
    [done|done|lia|].
  done.
Qed.

Lemma getMinimapObject_pixel st tilemap scale b borderColor minimap c r k l :
  tileMap st = Some tilemap →
  grid_ok tilemap scale → tiles_fit tilemap → 0 ≤ b →
  getMinimapObject st scale b borderColor = Ok minimap →
  0 ≤ c < numCols tilemap → 0 ≤ r < numRows tilemap →
  0 ≤ k < cell_size tilemap scale → 0 ≤ l < cell_size tilemap scale →
  Image.getPixel (Minimap.image minimap)
    (b + c * cell_size tilemap scale + k) (b + r * cell_size tilemap scale + l)
  = let px := Image.getPixel (tile_at tilemap c r)
                (k * 2 ^ scale) (l * 2 ^ scale) in
    if px =? 0 then (if 0 <? b then borderColor else 0) else px.
Proof.
  intros Htm Hgrid Hfit Hb Hmm Hc Hr Hk Hl.
  pose proof Hgrid as (Hs & Hts & Hcols & Hrows).
  assert (0 < JS.shl 1 scale) as Hstep.
  { rewrite shl_1 by (unfold shift_ok; lia). apply Z.pow_pos_nonneg; lia. }
  assert (0 < 2 ^ scale) as Hp by (apply Z.pow_pos_nonneg; lia).
  apply (getMinimapObject_Ok st tilemap) in Hmm as [Hcells _]; [|done].
  rewrite stamp_cells_all_stamps in Hcells by done.
  apply for_of_plot_Ok in Hcells as (_ & _ & ->).
  set (u := b + c * cell_size tilemap scale + k).
  set (v := b + r * cell_size tilemap scale + l).
  destruct (canvas_dims tilemap scale b borderColor) as [Hcw Hch].
  assert (Image.inRange (canvas tilemap scale b borderColor) u v = true) as Hin.
  { destruct (cell_landing tilemap scale b (numCols tilemap) c 0)
      as (_ & _ & HW); [done..| |].
    { unfold tileWidth. rewrite shl_1 by (unfold shift_ok; lia).
      split; [done|apply Z.pow_pos_nonneg; lia]. }
    destruct (cell_landing tilemap scale b (numRows tilemap) r 0)
      as (_ & _ & HH); [done..| |].
    { unfold tileWidth. rewrite shl_1 by (unfold shift_ok; lia).
      split; [done|apply Z.pow_pos_nonneg; lia]. }
    unfold Image.inRange. rewrite Hcw, Hch.
    unfold minimap_width, minimap_height. rewrite HW, HH. subst u v.
    repeat (apply andb_true_intro; split);
      (apply Z.leb_le || apply Z.ltb_lt); nia. }
  rewrite Hin.
  assert (Image.getPixel (canvas tilemap scale b borderColor) u v
          = if 0 <? b then borderColor else 0) as ->.
  { unfold Image.getPixel. rewrite Hin. unfold canvas.
    by destruct (0 <? b). }
  simpl.
  destruct (Z.eqb_spec (Image.getPixel (tile_at tilemap c r)
              (k * 2 ^ scale) (l * 2 ^ scale)) 0) as [Hzero|Hvis].
  - destruct (painted (all_stamps tilemap scale b) u v) as [col|] eqn:Hp';
      [|done]. exfalso.
    apply painted_Some in Hp'.
    destruct (all_stamps_unique tilemap scale b c r k l col) as [-> Hne];
      done.
  - destruct (painted (all_stamps tilemap scale b) u v) as [col|] eqn:Hp'.
    + apply painted_Some in Hp'. simpl.
      by destruct (all_stamps_unique tilemap scale b c r k l col) as [-> _].
    + exfalso. eapply painted_None in Hp'. apply Hp'.
      apply elem_of_all_stamps; [done|].
      exists c, r, (k * 2 ^ scale), (l * 2 ^ scale).
      assert (Image.inRange (tile_at tilemap c r)
                (k * 2 ^ scale) (l * 2 ^ scale) = true) as Htin.
      { unfold Image.getPixel in Hvis.
        by destruct (Image.inRange (tile_at tilemap c r) _ _). }
      unfold Image.inRange in Htin.
      apply andb_prop in Htin as [Htin Hj2]. apply andb_prop in Htin as [Htin Hj1].
      apply andb_prop in Htin as [Hi1 Hi2].
      apply Z.leb_le in Hi1, Hj1. apply Z.ltb_lt in Hi2, Hj2.
      destruct (Hfit (TileMap.getTileIndex tilemap c r)) as [Hw Hh].
      fold (tile_at tilemap c r) in Hw, Hh.
      destruct (cell_landing tilemap scale b (numCols tilemap) c (k * 2 ^ scale))
        as (Hlu & _ & _); [done..|lia|].
      destruct (cell_landing tilemap scale b (numRows tilemap) r (l * 2 ^ scale))
        as (Hlv & _ & _); [done..|lia|].
      rewrite Z.div_mul in * by lia.
      split; [done|]. split; [done|]. split.
      { apply visited_sampled; [unfold shift_ok; lia|].
        repeat split; try done; [by exists k|by exists l]. }
      split; [done|]. split; [by rewrite Hlu|]. split; [by rewrite Hlv|done].
Qed.

Lemma getMinimapObject_empty st tilemap scale b borderColor :
  tileMap st = Some tilemap →
  numRows tilemap ≤ 0 ∨ numCols tilemap ≤ 0 →
  getMinimapObject st scale b borderColor
  = Ok {| Minimap.image := canvas tilemap scale b borderColor;
          Minimap.scale := scale; Minimap.borderWidth := b;
          Minimap.borderColor := borderColor |}.
Proof.
  intros Htm Hempty. rewrite (getMinimapObject_cells st tilemap) by done.
  assert (cells tilemap = []) as ->; [|done].
  unfold cells. destruct Hempty as [Hr|Hc].
  - rewrite (seqZ_nil 0 (numRows tilemap)) by done. reflexivity.
  - rewrite (seqZ_nil 0 (numCols tilemap)) by done.
    induction (seqZ 0 (numRows tilemap)) as [|r rows IH]; [reflexivity|].
    rewrite bind_cons, IH. reflexivity.
Qed.

End BuilderMore.

(** X5.  The minimap is the map sampled every [2^scale] pixels.  When the
    geometry is sound ([grid_ok], [tiles_fit], no negative border),
    [getMinimapObject] returns on every host, and in the image each tile
    takes a square of [2^(tile scale - scale)] pixels a side, right after
    the border: the pixel [(k, l)] of the square of the cell [(c, r)] is
    the pixel [(k * 2^scale, l * 2^scale)] of the tile's image, or, where
    that one is transparent, the background ([borderColor] when there is
    a border, [0] otherwise). *)
Theorem getMinimapObject_downsamples `{Host}
    (st : State) (tilemap : TileMap.t) (scale b borderColor : Z) :
  tileMap st = Some tilemap →
  grid_ok tilemap scale → tiles_fit tilemap → 0 ≤ b →
  ∃ minimap,
    getMinimapObject st scale b borderColor = Ok minimap ∧
    ∀ c r k l,
      0 ≤ c < numCols tilemap → 0 ≤ r < numRows tilemap →
      0 ≤ k < cell_size tilemap scale → 0 ≤ l < cell_size tilemap scale →
      Image.getPixel (Minimap.image minimap)
        (b + c * cell_size tilemap scale + k)
        (b + r * cell_size tilemap scale + l)
      = let px := Image.getPixel (tile_at tilemap c r)
                    (k * 2 ^ scale) (l * 2 ^ scale) in
        if px =? 0 then (if 0 <? b then borderColor else 0) else px.
Proof.
  intros Htm Hgrid Hfit Hb.
  destruct (getMinimapObject_in_bounds st tilemap scale b borderColor)
    as [minimap Hmm]; [done..|].
  exists minimap. split; [done|]. intros c r k l Hc Hr Hk Hl.
  by apply (getMinimapObject_pixel st tilemap scale b borderColor).
Qed.

Lemma getMinimapObject_downsamples_witness :
  ∃ minimap,
    @getMinimapObject strict_host demo_state 1 1 9 = Ok minimap ∧
    Image.getPixel (Minimap.image minimap) 4 2 = 2.
Proof.
  destruct (@getMinimapObject_downsamples strict_host demo_state demo_tilemap
              1 1 9) as (minimap & Hmm & Hpx).
  - reflexivity.
  - vm_compute. repeat split; congruence.
  - intros idx. vm_compute. split; congruence.
  - lia.
  - exists minimap. split; [exact Hmm|].
    apply (Hpx 1 0 1 1); vm_compute; split; congruence.
Defined.

(** X6.  The border is never drawn over.  With a sound geometry and a
    border width [b > 0], [getMinimapObject] returns on every host and
    every pixel of the outer [b]-pixel margin of the image is
    [borderColor]: no tile reaches into the border. *)
Theorem getMinimapObject_border_intact `{Host}
    (st : State) (tilemap : TileMap.t) (scale b borderColor : Z) :
  tileMap st = Some tilemap →
  grid_ok tilemap scale → tiles_fit tilemap → 0 < b →
  ∃ minimap,
    getMinimapObject st scale b borderColor = Ok minimap ∧
    ∀ u v,
      Image.inRange (Minimap.image minimap) u v = true →
      in_margin (Minimap.image minimap) b u v →
      Image.getPixel (Minimap.image minimap) u v = borderColor.
Proof.
  intros Htm Hgrid Hfit Hb.
  destruct (getMinimapObject_in_bounds st tilemap scale b borderColor)
    as [minimap Hmm]; [done|done|done|lia|].
  exists minimap. split; [done|]. intros u v Hin Hmargin.
  by apply (getMinimapObject_margin_intact st tilemap scale b).
Qed.

Lemma getMinimapObject_border_intact_witness :
  ∃ minimap,
    @getMinimapObject strict_host demo_state 1 2 9 = Ok minimap ∧
    Image.getPixel (Minimap.image minimap) 1 3 = 9 ∧
    Image.getPixel (Minimap.image minimap) 4 6 = 9.
Proof.
  destruct (@getMinimapObject_border_intact strict_host demo_state demo_tilemap
              1 2 9) as (minimap & Hmm & Hpx).
  - reflexivity.
  - vm_compute. repeat split; congruence.
  - intros idx. vm_compute. split; congruence.
  - lia.
  - exists minimap. split; [exact Hmm|].
    destruct (getMinimapObject_size demo_state demo_tilemap 1 2 9 minimap
                eq_refl Hmm) as [Hw Hh].
    change (Image.width (Minimap.image minimap) = 8) in Hw.
    change (Image.height (Minimap.image minimap) = 8) in Hh.
    split; apply Hpx; unfold Image.inRange, in_margin; rewrite ?Hw, ?Hh;
      try reflexivity; lia.
Defined.

(** X7.  A map without a whole tile.  When the map has no row or no
    column of tiles, [getMinimapObject] draws nothing: it returns, on
    every host and at every scale level, an image of the computed size
    that is [borderColor] all over when there is a border and blank
    otherwise. *)
Theorem getMinimapObject_empty_grid `{Host}
    (st : State) (tilemap : TileMap.t) (scale b borderColor : Z) :
  tileMap st = Some tilemap →
  numRows tilemap ≤ 0 ∨ numCols tilemap ≤ 0 →
  ∃ minimap,
    getMinimapObject st scale b borderColor = Ok minimap ∧
    Image.width (Minimap.image minimap)
    = JS.shr (numCols tilemap * tileWidth tilemap) scale + b * 2 ∧
    Image.height (Minimap.image minimap)
    = JS.shr (numRows tilemap * tileWidth tilemap) scale + b * 2 ∧
    ∀ u v,
      Image.getPixel (Minimap.image minimap) u v
      = if Image.inRange (Minimap.image minimap) u v && (0 <? b)
        then borderColor else 0.
Proof.
  intros Htm Hempty. eexists. split.
  - by apply (getMinimapObject_empty st tilemap).
  - simpl. destruct (canvas_dims tilemap scale b borderColor) as [-> ->].
    split; [done|]. split; [done|]. intros u v.
    unfold Image.getPixel, canvas.
    destruct (0 <? b); simpl.
    + by destruct (Image.inRange _ u v).
    + rewrite andb_false_r. by destruct (Image.inRange _ u v).
Qed.

Lemma getMinimapObject_empty_grid_witness :
  ∃ minimap,
    @getMinimapObject strict_host
      (Uninitialized (Some demo_strip) ∅) 1 1 9 = Ok minimap ∧
    Image.width (Minimap.image minimap) = 2 ∧
    Image.height (Minimap.image minimap) = 6 ∧
    Image.getPixel (Minimap.image minimap) 1 3 = 9.
Proof.
  destruct (@getMinimapObject_empty_grid strict_host
              (Uninitialized (Some demo_strip) ∅) demo_strip 1 1 9)
    as (minimap & Hmm & Hw & Hh & Hpx).
  - reflexivity.
  - right. vm_compute. congruence.
  - exists minimap. split; [exact Hmm|].
    change (Image.width (Minimap.image minimap) = 2) in Hw.
    change (Image.height (Minimap.image minimap) = 6) in Hh.
    split; [exact Hw|]. split; [exact Hh|].
    rewrite Hpx. unfold Image.inRange. rewrite Hw, Hh. reflexivity.
Defined.

(* ===================================================================== *)
(** ** Further properties of the display and the tracked list *)
(* ===================================================================== *)

Section TrackerMore.
Context `{Host}.

(** [getMinimapObject] reads nothing of the state but the tile map. *)
Lemma getMinimapObject_tileMap st1 st2 scale borderWidth borderColor :
  tileMap st1 = tileMap st2 →
  getMinimapObject st1 scale borderWidth borderColor
  = getMinimapObject st2 scale borderWidth borderColor.
Proof. unfold getMinimapObject. by intros ->. Qed.

Lemma isDestroyed_create img d :
  isDestroyed (Some (Sprite.set_data (Sprite.create img) d)) = false.
Proof. done. Qed.

Lemma overlay_params st u minimap minimap' :
  overlay st u minimap = Ok minimap' →
  Minimap.scale minimap' = Minimap.scale minimap ∧
  Minimap.borderWidth minimap' = Minimap.borderWidth minimap ∧
  Minimap.borderColor minimap' = Minimap.borderColor minimap.
Proof.
  unfold overlay. rewrite bind_Ok. intros (sprite & _ & Hinc).
  by apply includeSprite_params in Hinc.
Qed.

Lemma overlays_params st l minimap minimap' :
  for_of l (overlay st) minimap = Ok minimap' →
  Minimap.scale minimap' = Minimap.scale minimap ∧
  Minimap.borderWidth minimap' = Minimap.borderWidth minimap ∧
  Minimap.borderColor minimap' = Minimap.borderColor minimap.
Proof.
  apply (for_of_inv (λ m,
    Minimap.scale m = Minimap.scale minimap ∧
    Minimap.borderWidth m = Minimap.borderWidth minimap ∧
    Minimap.borderColor m = Minimap.borderColor minimap)); [|done].
  intros u m m' _ (Hs & Hb & Hc) (Hs' & Hb' & Hc')%overlay_params.
  repeat split; congruence.
Qed.

(** The parameters of the minimap a refresh leaves are those of the
    minimap it found. *)
Lemma refreshTick_params st st' :
  refreshTick st = Ok st' →
  ∃ r display oldMM finalMM,
    minimapSprite st = Some r ∧ heap st !! r = Some display ∧
    Sprite.data display = Some oldMM ∧
    st' = refreshed st r display finalMM ∧
    Minimap.scale finalMM = Minimap.scale oldMM ∧
    Minimap.borderWidth finalMM = Minimap.borderWidth oldMM ∧
    Minimap.borderColor finalMM = Minimap.borderColor oldMM.
Proof.
  intros (r & display & oldMM & newMM & finalMM
          & Hr & Hd & Hdata & Hnew & Hfinal & ->)%refreshTick_Ok.
  exists r, display, oldMM, finalMM. do 4 (split; [done|]).
  apply getMinimapObject_params in Hnew as (Hs & Hb & Hc).
  apply overlays_params in Hfinal as (Hs' & Hb' & Hc').
  repeat split; congruence.
Qed.

Lemma display_params_refreshed st r display oldMM finalMM :
  minimapSprite st = Some r → heap st !! r = Some display →
  Sprite.data display = Some oldMM →
  Minimap.scale finalMM = Minimap.scale oldMM →
  Minimap.borderWidth finalMM = Minimap.borderWidth oldMM →
  Minimap.borderColor finalMM = Minimap.borderColor oldMM →
  display_params (refreshed st r display finalMM) = display_params st.
Proof.
  intros Hr Hd Hdata Hs Hb Hc. unfold display_params. simpl.
  rewrite Hr. simpl. rewrite lookup_insert_eq, Hd. simpl.
  rewrite Hdata. simpl. by rewrite Hs, Hb, Hc.
Qed.

Lemma display_params_destroy st l :
  display_params (destroy st l) = display_params st.
Proof.
  unfold destroy. destruct (heap st !! l) as [s|] eqn:Hl; [|done].
  unfold display_params. simpl.
  destruct (minimapSprite st) as [r|]; [|done]. simpl.
  destruct (decide (r = l)) as [->|Hne].
  - by rewrite lookup_insert_eq, Hl.
  - by rewrite lookup_insert_ne.
Qed.

Lemma step_display_params st e st' :
  is_create e = false → step st e = Ok st' →
  display_params st' = display_params st.
Proof.
  destruct e as [s b c|sprite p|sprite|interval|sprite|k]; simpl;
    intros Hnc Hstep; try done; try by injection Hstep as <-.
  - injection Hstep as <-. apply display_params_destroy.
  - destruct (handlers st !! k); [|by injection Hstep as <-].
    apply refreshTick_params in Hstep
      as (r & display & oldMM & finalMM & Hr & Hd & Hdata & -> & Hs & Hb & Hc).
    by apply (display_params_refreshed st r display oldMM).
Qed.

End TrackerMore.

(** X8.  What [createMinimapSprite] leaves behind.  A call that returns
    has made a new sprite: its reference was not in use, it is the
    module's display from now on, it shows the image [getImage] gives for
    the minimap that [getMinimapObject] built with the requested
    parameters, carries that minimap as its data and is not destroyed.
    Every sprite that existed is still there, unchanged (an earlier
    display too: it is neither destroyed nor reused), and the tracked
    list, the refresh handlers and the tile map are as before. *)
Theorem createMinimapSprite_fresh_display `{Host}
    (st : State) (scale borderWidth borderColor : Z) (st' : State) (r : ref) :
  createMinimapSprite st scale borderWidth borderColor = Ok (st', r) →
  heap st !! r = None ∧
  minimapSprite st' = Some r ∧
  (∃ minimap display,
     getMinimapObject st scale borderWidth borderColor = Ok minimap ∧
     heap st' !! r = Some display ∧
     Sprite.image display = getImage minimap ∧
     Sprite.data display = Some minimap ∧
     isDestroyed (Some display) = false) ∧
  display_params st' = Some (scale, borderWidth, borderColor) ∧
  (∀ l sprite, heap st !! l = Some sprite → heap st' !! l = Some sprite) ∧
  (∀ l, l ≠ r → heap st' !! l = heap st !! l) ∧
  spritesToUpdate st' = spritesToUpdate st ∧
  handlers st' = handlers st ∧
  tileMap st' = tileMap st.
Proof.
  intros (minimap & Hmm & -> & ->)%createMinimapSprite_Ok.
  assert (heap st !! fresh (dom (heap st)) = None) as Hfresh.
  { apply not_elem_of_dom, is_fresh. }
  split; [done|]. split; [done|]. split; [|split; [|split; [|split]]].
  - eexists minimap, _. split; [done|]. split; [apply lookup_insert_eq|].
    split; [done|]. split; [done|]. apply isDestroyed_create.
  - unfold display_params. simpl. rewrite lookup_insert_eq. simpl.
    by apply getMinimapObject_params in Hmm as (-> & -> & ->).
  - intros l sprite Hl. simpl. rewrite lookup_insert_ne; [done|].
    intros <-. congruence.
  - intros l Hl. simpl. by rewrite lookup_insert_ne.
  - done.
Qed.

(** X9.  The display keeps its parameters.  Whatever is called or fires,
    as long as it is not [createMinimapSprite], a run that completes
    leaves the scale, border width and border colour of the display's
    minimap as they were: a refresh rebuilds the minimap with the
    parameters of the one before, and nothing else touches them. *)
Theorem run_display_params `{Host} (es : list event) (st st' : State) :
  Forall (λ e, is_create e = false) es → run st es = Ok st' →
  display_params st' = display_params st.
Proof.
  revert st. induction es as [|e es IH]; intros st Hes; simpl.
  - by intros [= <-].
  - inv Hes. rewrite bind_Ok. intros (st1 & Hstep & Hrun).
    rewrite (IH st1) by done. by apply (step_display_params st e).
Qed.

(** A second display for the small world: it gets the reference [4], and
    the first display and the hero stay where they were. *)
Lemma createMinimapSprite_fresh_display_witness :
  ∃ st' r,
    @createMinimapSprite strict_host demo_state 0 2 5 = Ok (st', r) ∧
    heap demo_state !! r = None ∧
    minimapSprite st' = Some r ∧
    display_params st' = Some (0, 2, 5) ∧
    heap st' !! 1%positive = Some demo_display ∧
    heap st' !! 2%positive = Some demo_hero.
Proof.
  destruct (@createMinimapSprite strict_host demo_state 0 2 5)
    as [[st' r]| |] eqn:Hcreate; [|vm_compute in Hcreate; discriminate..].
  exists st', r. split; [reflexivity|].
  destruct (@createMinimapSprite_fresh_display strict_host demo_state 0 2 5
              st' r Hcreate)
    as (Hfresh & Hdisplay & _ & Hparams & Hkept & _).
  split; [exact Hfresh|]. split; [exact Hdisplay|]. split; [exact Hparams|].
  split; apply Hkept; reflexivity.
Defined.

(** The hero is untracked, the refresh fires, the ghost is destroyed once
    more, the refresh fires again: the display is still a minimap at
    scale 1 with a border of width 1 and colour 9. *)
Lemma run_display_params_witness :
  ∃ st',
    @run lenient_host demo_state
      [RemoveSpriteFromUpdateList (Some 2%positive); Fire 0;
       Destroy 3%positive; UpdateMiniMapEvery 50; Fire 1] = Ok st' ∧
    display_params st' = Some (1, 1, 9).
Proof.
  destruct (@run lenient_host demo_state
      [RemoveSpriteFromUpdateList (Some 2%positive); Fire 0;
       Destroy 3%positive; UpdateMiniMapEvery 50; Fire 1])
    as [st'| |] eqn:Hrun; [|vm_compute in Hrun; discriminate..].
  exists st'. split; [reflexivity|].
  rewrite (@run_display_params lenient_host
             [RemoveSpriteFromUpdateList (Some 2%positive); Fire 0;
              Destroy 3%positive; UpdateMiniMapEvery 50; Fire 1]
             demo_state st' ltac:(repeat constructor) Hrun).
  reflexivity.
Defined.

Section Safety.
Context `{Host}.
Hypothesis Hlenient : strict_bounds = false.

Lemma scales_ok_filter (P : IUpdateSprite.t → Prop)
    `{!∀ u, Decision (P u)} l :
  scales_ok l → scales_ok (filter P l).
Proof.
  unfold scales_ok. rewrite !Forall_forall.
  intros Hl u [_ Hu]%list_elem_of_filter. by apply Hl.
Qed.

Lemma Safe_refreshed st r display (oldMM finalMM : Minimap.t) :
  heap st !! r = Some display → minimapSprite st = Some r →
  shift_ok (Minimap.scale oldMM) →
  Minimap.scale finalMM = Minimap.scale oldMM →
  scales_ok (spritesToUpdate st) →
  Safe (refreshed st r display finalMM).
Proof.
  intros Hd Hr Hs Hscale Hl. split.
  - eexists r, _, finalMM. split; [done|]. split; [apply lookup_insert_eq|].
    split; [done|]. by rewrite Hscale.
  - simpl. by apply scales_ok_filter.
Qed.

(** The display is created: afterwards a refresh can run. *)
Lemma step_create_Safe st scale borderWidth borderColor :
  shift_ok scale → scales_ok (spritesToUpdate st) →
  ∃ st', step st (CreateMinimapSprite scale borderWidth borderColor) = Ok st' ∧
         Safe st'.
Proof.
  intros Hs Hl. simpl. unfold createMinimapSprite.
  destruct (getMinimapObject_returns st scale borderWidth borderColor)
    as (minimap & -> & Hscale & _); [done..|].
  simpl. eexists. split; [done|]. split; [|done].
  eexists _, _, minimap. split; [done|]. split; [apply lookup_insert_eq|].
  split; [done|]. by rewrite Hscale.
Qed.

Lemma step_Safe st e :
  Safe st → ok_event e → ∃ st', step st e = Ok st' ∧ Safe st'.
Proof.
  intros [(r & display & minimap & Hr & Hd & Hdata & Hs) Hl] He.
  destruct e as [s b c|sprite p|sprite|interval|sprite|k].
  - by apply step_create_Safe.
  - eexists. split; [done|]. split.
    + by exists r, display, minimap.
    + simpl. apply Forall_app. split; [done|]. by apply Forall_singleton.
  - eexists. split; [done|]. split.
    + by exists r, display, minimap.
    + simpl. by apply scales_ok_filter.
  - eexists. split; [done|]. split; [|done]. by exists r, display, minimap.
  - eexists. split; [done|]. unfold destroy.
    destruct (heap st !! sprite) as [s|] eqn:Hsprite.
    + split; [|done]. simpl.
      destruct (decide (sprite = r)) as [->|Hne].
      * eexists r, _, minimap. split; [done|].
        split; [apply lookup_insert_eq|]. simpl. split; [congruence|done].
      * exists r, display, minimap. split; [done|].
        by rewrite lookup_insert_ne.
    + split; [|done]. by exists r, display, minimap.
  - simpl. destruct (handlers st !! k).
    + destruct (refreshTick_returns st r display minimap) as [st' Hst'];
        [done..|].
      exists st'. split; [done|].
      apply refreshTick_params in Hst'
        as (r' & display' & oldMM & finalMM
            & Hr' & Hd' & Hdata' & -> & Hscale & _).
      assert (r' = r) as -> by congruence.
      assert (display' = display) as -> by congruence.
      assert (oldMM = minimap) as -> by congruence.
      by apply (Safe_refreshed st r display minimap).
    + exists st. split; [done|]. split; [|done].
      by exists r, display, minimap.
Qed.

Lemma run_Safe es : ∀ st,
  Safe st → Forall ok_event es → ∃ st', run st es = Ok st' ∧ Safe st'.
Proof.
  induction es as [|e es IH]; intros st Hsafe Hes; [by exists st|].
  inv Hes. destruct (step_Safe st e) as (st1 & Hstep & Hsafe1); [done..|].
  simpl. rewrite Hstep. simpl. by apply IH.
Qed.

End Safety.

(** X10.  No fault and no endless loop after the display exists.  On a
    host that drops out-of-range writes, with the arguments the blocks
    offer (a scale level within 32-bit shifts for the display, no
    negative scale for a tracked sprite), every sequence of calls, sprite
    destructions and refresh ticks runs to its end, from a state in which
    a refresh can run, and from any state with sound tracked scales when
    the sequence begins with [createMinimapSprite]; a refresh can run in
    the state it ends in. *)
Theorem run_completes `{Host} (es : list event) (st : State) :
  strict_bounds = false → Forall ok_event es →
  (Safe st → ∃ st', run st es = Ok st' ∧ Safe st') ∧
  (scales_ok (spritesToUpdate st) →
   ∀ scale borderWidth borderColor, shift_ok scale →
     ∃ st', run st (CreateMinimapSprite scale borderWidth borderColor :: es)
            = Ok st' ∧ Safe st').
Proof.
  intros Hlenient Hes. split.
  - intros Hsafe. by apply run_Safe.
  - intros Hl scale borderWidth borderColor Hs.
    destruct (step_create_Safe Hlenient st scale borderWidth borderColor)
      as (st1 & Hstep & Hsafe1); [done..|].
    change (run st (CreateMinimapSprite scale borderWidth borderColor :: es))
      with (st1 ← step st (CreateMinimapSprite scale borderWidth borderColor);
            run st1 es).
    rewrite Hstep. by apply run_Safe.
Qed.

(** A program on a scene without a tile map: it creates the display,
    tracks two sprites that do not exist, schedules the refresh and lets
    it fire twice. *)
Lemma run_completes_witness :
  ∃ st',
    @run lenient_host demo_empty_scene
      [CreateMinimapSprite 1 2 5; AddSpriteToUpdateList (Some 7%positive) 0;
       AddSpriteToUpdateList None 3; UpdateMiniMapEvery 100; Fire 0; Fire 0]
    = Ok st' ∧ Safe st'.
Proof.
  destruct (@run_completes lenient_host
      [AddSpriteToUpdateList (Some 7%positive) 0;
       AddSpriteToUpdateList None 3; UpdateMiniMapEvery 100; Fire 0; Fire 0]
      demo_empty_scene eq_refl) as [_ Hrun].
  - repeat constructor; simpl; lia.
  - apply (Hrun ltac:(constructor) 1 2 5). unfold shift_ok. lia.
Defined.

(** X11.  Tracking and untracking.  Untracking [S] right after tracking
    it gives the state that untracking alone gives, and the very state
    from before when [S] was not tracked; tracking [S] and untracking
    another reference can be swapped; and two untrackings can be done in
    either order. *)
Theorem removeSpriteFromUpdateList_undoes_add
    (st : State) (S : option ref) (spriteScale : Z) :
  removeSpriteFromUpdateList (addSpriteToUpdateList st S spriteScale) S
  = removeSpriteFromUpdateList st S ∧
  ((∀ u, u ∈ spritesToUpdate st → IUpdateSprite.sprite u ≠ S) →
   removeSpriteFromUpdateList (addSpriteToUpdateList st S spriteScale) S = st) ∧
  (∀ T, T ≠ S →
     removeSpriteFromUpdateList (addSpriteToUpdateList st S spriteScale) T
     = addSpriteToUpdateList (removeSpriteFromUpdateList st T) S spriteScale) ∧
  (∀ T, removeSpriteFromUpdateList (removeSpriteFromUpdateList st S) T
        = removeSpriteFromUpdateList (removeSpriteFromUpdateList st T) S).
Proof.
  assert (removeSpriteFromUpdateList (addSpriteToUpdateList st S spriteScale) S
          = removeSpriteFromUpdateList st S) as Hundo.
  { unfold removeSpriteFromUpdateList, addSpriteToUpdateList,
      set_spritesToUpdate. simpl. f_equal.
    rewrite filter_app, filter_cons_False, filter_nil, app_nil_r;
      [done|]. simpl. tauto. }
  split; [done|]. split; [|split].
  - intros Hnew. rewrite Hundo. unfold removeSpriteFromUpdateList.
    rewrite filter_all by done. by destruct st.
  - intros T HT. unfold removeSpriteFromUpdateList, addSpriteToUpdateList,
      set_spritesToUpdate. simpl. f_equal.
    rewrite filter_app, filter_cons_True, filter_nil; [done|].
    simpl. congruence.
  - intros T. unfold removeSpriteFromUpdateList, set_spritesToUpdate. simpl.
    f_equal. rewrite !list_filter_filter. apply list_filter_iff.
    intros u. tauto.
Qed.

Section TickMore.
Context `{Host}.

Lemma setImage_shown display minimap :
  Sprite.setImage
    (Sprite.set_data
       (Sprite.setImage (Sprite.set_data display (Some minimap))
                        (Minimap.image minimap))
       (Some minimap))
    (Minimap.image minimap)
  = Sprite.setImage (Sprite.set_data display (Some minimap))
                    (Minimap.image minimap).
Proof.
  unfold Sprite.setImage. simpl.
  by rewrite setImage_position_same_size.
Qed.

(** An overlay reads the tracked sprite only: a change of the display
    does not matter to the overlay of another sprite. *)
Lemma overlay_refreshed st r display finalMM u minimap :
  IUpdateSprite.sprite u ≠ Some r →
  overlay (refreshed st r display finalMM) u minimap = overlay st u minimap.
Proof.
  intros Hne. unfold overlay.
  destruct (IUpdateSprite.sprite u) as [l|]; [|done]. simpl.
  rewrite lookup_insert_ne; [done|]. congruence.
Qed.

Lemma refreshTick_again st r display finalMM oldMM newMM :
  minimapSprite st = Some r → heap st !! r = Some display →
  Sprite.data display = Some oldMM →
  getMinimapObject st (Minimap.scale oldMM) (Minimap.borderWidth oldMM)
    (Minimap.borderColor oldMM) = Ok newMM →
  for_of (filter (alive st) (spritesToUpdate st)) (overlay st) newMM
  = Ok finalMM →
  (∀ u, u ∈ spritesToUpdate st → alive st u →
        IUpdateSprite.sprite u ≠ Some r) →
  refreshTick (refreshed st r display finalMM)
  = Ok (refreshed st r display finalMM).
Proof.
  intros Hr Hd Hdata Hnew Hfinal Hother.
  pose proof (getMinimapObject_params _ _ _ _ _ Hnew) as (Hs & Hb & Hc).
  pose proof (overlays_params _ _ _ _ Hfinal) as (Hs' & Hb' & Hc').
  rewrite (refreshTick_refreshed (refreshed st r display finalMM) r
             (Sprite.setImage (Sprite.set_data display (Some finalMM))
                              (Minimap.image finalMM)) finalMM);
    [|done|apply lookup_insert_eq|done].
  rewrite (getMinimapObject_tileMap _ st) by done.
  rewrite Hs', Hb', Hc', Hs, Hb, Hc, Hnew. simpl.
  assert (filter (alive (refreshed st r display finalMM))
            (filter (alive st) (spritesToUpdate st))
          = filter (alive st) (spritesToUpdate st)) as Hlist.
  { apply filter_all. intros u [Ha _]%list_elem_of_filter.
    by apply refreshed_alive. }
  rewrite Hlist.
  rewrite (for_of_ext _ (overlay (refreshed st r display finalMM))
             (overlay st)).
  - rewrite Hfinal. simpl. f_equal. unfold refreshed at 1.
    change (spritesToUpdate (refreshed st r display finalMM))
      with (filter (alive st) (spritesToUpdate st)).
    rewrite Hlist, setImage_shown.
    unfold refreshed, set_spritesToUpdate, set_heap. simpl.
    by rewrite insert_insert_eq.
  - intros u minimap [Ha Hu]%list_elem_of_filter.
    apply overlay_refreshed. by apply Hother.
Qed.

End TickMore.

(** X12.  A refresh settles.  When a refresh has completed and the
    display itself is not among the live tracked sprites, a second
    refresh right after it completes too and changes nothing: the state
    a refresh leaves is a fixed point of the refresh. *)
Theorem refreshTick_settles `{Host} (st st' : State) :
  refreshTick st = Ok st' →
  (∀ u, u ∈ spritesToUpdate st → alive st u →
        IUpdateSprite.sprite u ≠ minimapSprite st) →
  refreshTick st' = Ok st'.
Proof.
  intros (r & display & oldMM & newMM & finalMM
          & Hr & Hd & Hdata & Hnew & Hfinal & ->)%refreshTick_Ok Hother.
  apply (refreshTick_again st r display finalMM oldMM newMM); try done.
  intros u Hu Ha. rewrite <- Hr. by apply Hother.
Qed.

Lemma refreshTick_settles_witness :
  ∃ st', @refreshTick strict_host demo_state = Ok st' ∧
         @refreshTick strict_host st' = Ok st'.
Proof.
  destruct (@refreshTick strict_host demo_state) as [st'| |] eqn:Htick;
    [|vm_compute in Htick; discriminate..].
  exists st'. split; [reflexivity|].
  apply (@refreshTick_settles strict_host demo_state st' Htick).
  intros u Hu _. simpl in Hu.
  change (minimapSprite demo_state) with (Some 1%positive).
  repeat (apply elem_of_cons in Hu as [->|Hu]); [intros [=]..|].
  destruct (not_elem_of_nil _ Hu).
Defined.

(** X13.  What a refresh leaves alone.  A refresh that completes changes
    no sprite but the display, and the display only by giving it a
    minimap as its data and by the host's [setImage] with the image of
    that minimap; it creates no sprite and removes none; the display is
    the same sprite as before, the refresh handlers and the tile map are
    as before, and the tracked list is what is left of the old one, in
    the old order. *)
Theorem refreshTick_frame `{Host} (st st' : State) :
  refreshTick st = Ok st' →
  tileMap st' = tileMap st ∧
  minimapSprite st' = minimapSprite st ∧
  handlers st' = handlers st ∧
  dom (heap st') = dom (heap st) ∧
  (∀ l, minimapSprite st ≠ Some l → heap st' !! l = heap st !! l) ∧
  (∀ r display, minimapSprite st = Some r → heap st !! r = Some display →
     ∃ minimap,
       heap st' !! r
       = Some (Sprite.setImage (Sprite.set_data display (Some minimap))
                               (Minimap.image minimap))) ∧
  spritesToUpdate st' `sublist_of` spritesToUpdate st.
Proof.
  intros (r & display & oldMM & newMM & finalMM
          & Hr & Hd & Hdata & Hnew & Hfinal & ->)%refreshTick_Ok.
  do 3 (split; [done|]). split; [|split; [|split]].
  - simpl. apply dom_insert_lookup_L. by rewrite Hd.
  - intros l Hl. simpl. rewrite lookup_insert_ne; [done|]. congruence.
  - intros r' display' Hr' Hd'.
    assert (r' = r) as -> by congruence.
    assert (display' = display) as -> by congruence.
    exists finalMM. apply lookup_insert_eq.
  - apply sublist_filter.
Qed.

Lemma refreshTick_frame_witness :
  ∃ st', @refreshTick strict_host demo_state = Ok st' ∧
         heap st' !! 2%positive = Some demo_hero ∧
         heap st' !! 3%positive = Some demo_ghost ∧
         heap st' !! 4%positive = None ∧
         handlers st' = [100].
Proof.
  destruct (@refreshTick strict_host demo_state) as [st'| |] eqn:Htick;
    [|vm_compute in Htick; discriminate..].
  exists st'. split; [reflexivity|].
  destruct (@refreshTick_frame strict_host demo_state st' Htick)
    as (_ & _ & Hhandlers & _ & Hothers & _).
  rewrite !Hothers by discriminate. rewrite Hhandlers.
  repeat split; reflexivity.
Defined.

Section RunFrame.
Context `{Host}.

Lemma step_frame st e st' :
  step st e = Ok st' →
  tileMap st' = tileMap st ∧
  handlers st' = handlers st ++ registered [e] ∧
  dom (heap st) ⊆ dom (heap st').
Proof.
  destruct e as [s b c|sprite p|sprite|interval|sprite|k]; simpl.
  - rewrite bind_Ok. intros ([st1 r] & Hcreate & [= <-]).
    apply createMinimapSprite_Ok in Hcreate as (minimap & _ & -> & ->).
    simpl. rewrite app_nil_r. split; [done|]. split; [done|].
    apply subseteq_dom, insert_subseteq, not_elem_of_dom, is_fresh.
  - intros [= <-]. simpl. by rewrite app_nil_r.
  - intros [= <-]. simpl. by rewrite app_nil_r.
  - by intros [= <-].
  - intros [= <-]. unfold destroy.
    destruct (heap st !! sprite) eqn:Hs; simpl; rewrite app_nil_r;
      (split; [done|]); (split; [done|]); [|done].
    rewrite dom_insert_L. set_solver.
  - rewrite app_nil_r. destruct (handlers st !! k).
    + intros (r & display & oldMM & newMM & finalMM
              & Hr & Hd & Hdata & Hnew & Hfinal & ->)%refreshTick_Ok.
      split; [done|]. split; [done|]. simpl.
      rewrite dom_insert_L. set_solver.
    + by intros [= <-].
Qed.

End RunFrame.

(** X14.  Handlers and sprites only accumulate.  After any run that
    completes, the refresh handlers are those from before followed by
    one for each call of [updateMiniMapEvery], in the order of the calls
    (none is ever taken off or replaced, and a second call adds a second
    handler); every sprite reference that was in use still is; and the
    scene's tile map is the same. *)
Theorem run_accumulates `{Host} (es : list event) (st st' : State) :
  run st es = Ok st' →
  tileMap st' = tileMap st ∧
  handlers st' = handlers st ++ registered es ∧
  dom (heap st) ⊆ dom (heap st').
Proof.
  revert st. induction es as [|e es IH]; intros st; simpl.
  - intros [= <-]. by rewrite app_nil_r.
  - rewrite bind_Ok. intros (st1 & Hstep & Hrun).
    apply step_frame in Hstep as (Htm & Hh & Hdom).
    apply IH in Hrun as (Htm' & Hh' & Hdom').
    split; [congruence|]. split; [|by transitivity (dom (heap st1))].
    rewrite Hh', Hh, <- app_assoc. f_equal. by destruct e.
Qed.

Lemma run_accumulates_witness :
  ∃ st',
    @run strict_host demo_state
      [UpdateMiniMapEvery 50; CreateMinimapSprite 0 0 0; Fire 1;
       UpdateMiniMapEvery 50] = Ok st' ∧
    handlers st' = [100; 50; 50].
Proof.
  destruct (@run strict_host demo_state
      [UpdateMiniMapEvery 50; CreateMinimapSprite 0 0 0; Fire 1;
       UpdateMiniMapEvery 50]) as [st'| |] eqn:Hrun;
    [|vm_compute in Hrun; discriminate..].
  exists st'. split; [reflexivity|].
  destruct (@run_accumulates strict_host _ demo_state st' Hrun)
    as (_ & Hhandlers & _).
  rewrite Hhandlers. reflexivity.
Defined.


